(** * mxRadialTreeLayout: a shallow embedding and its verified properties

    The development follows [src/mxgraph/layout/mxRadialTreeLayout.js].
    A layout instance ([this]) is a record that is threaded through the
    phases of [execute]; the graph model is part of that record (the
    geometry of every cell), and so is the field [theta] of the layout nodes,
    which is a store indexed by node identity because rows and child chains
    alias the same node objects.

    Numbers are real numbers: the properties below are stated up to
    floating-point tolerance, so rounding, infinities and NaN are outside the
    model.  Where the JavaScript code would divide by zero the theorems that
    depend on the quotient assume the divisor is not zero.

    The same source file goes on with the helpers [getValue], [mixInto] and
    [copyTextToClipboard], with [CodecRegistry] and with [mxDefaultToolbar].
    They are embedded after the layout: the registry by explicit state
    passing, the toolbar and the clipboard helper as methods that list the
    calls they make to their collaborators and may throw.  The toolbar uses
    the name [mxEvent] without importing it: whether the global scope binds
    that name is a parameter of its methods, and evaluating the name throws
    where it does not. *)

From Stdlib Require Import Reals List Lra Lia Arith Bool FunctionalExtensionality
  Permutation.
From Stdlib Require String.
From Equations Require Import Equations.
Import ListNotations.
Import String.StringSyntax.

Open Scope R_scope.
Delimit Scope string_scope with string.
Bind Scope string_scope with String.string.

Abbreviation string := String.string.

(** ** Data model *)

(** Identity of a vertex (an [mxCell]). *)
Definition Cell := nat.

(** [mxRectangle]: the bound of a vertex. *)
Record mxRectangle := Rect {
  x : R;
  y : R;
  width : R;
  height : R
}.

(** A layout node of the compact tree: a left-child/right-sibling tree.
    [id] is the identity of the JavaScript object; [null] is [None]. *)
#[warnings="-register-all"]
Inductive TreeNode : Type :=
  Node { id : nat; cell : Cell; child : option TreeNode; next : option TreeNode }.

(** The nodes reached from [n] by following [next]: the iterations of
    [while (child != null) { ...; child = child.next }] starting at [n]. *)
Fixpoint siblings (n : TreeNode) : list TreeNode :=
  match n with
  | Node _ _ _ nx =>
      n :: match nx with Some m => siblings m | None => [] end
  end.

Definition chain (o : option TreeNode) : list TreeNode :=
  match o with Some n => siblings n | None => [] end.

(** [row[i] != null ? row[i].child : null] *)
Definition childOf (o : option TreeNode) : option TreeNode :=
  match o with Some n => child n | None => None end.

(** ** JavaScript arrays

    [arr_set d i v l] is the assignment [l[i] = v].  Inside the array it
    replaces, at the end it appends, and beyond the end it leaves holes,
    which read as [d]. *)
Definition arr_set {A} (d : A) (i : nat) (v : A) (l : list A) : list A :=
  firstn i l ++ repeat d (i - length l) ++ v :: skipn (S i) l.

(** A number read from an index that was never written is [undefined] in
    JavaScript; the model reads [0] there. *)
Definition num_get (l : list R) (i : nat) : R := nth i l 0.
Definition num_set (i : nat) (v : R) (l : list R) : list R := arr_set 0 i v l.

Definition row_get (l : list (list TreeNode)) (i : nat) : list TreeNode := nth i l [].
Definition row_set (i : nat) (v : list TreeNode) (l : list (list TreeNode)) :=
  arr_set [] i v l.

(** ** The layout instance *)

Record Layout := mkLayout {
  (* fields of the base classes that [execute] touches *)
  parent : Cell;
  useBoundingBox : bool;
  edgeRouting : bool;
  root : Cell;
  node : option TreeNode;
  (* fields of mxRadialTreeLayout *)
  angleOffset : R;
  nodeDistance : R;
  centerX : R;
  centerY : R;
  rowMinX : list R;
  rowMaxX : list R;
  rowMinCenX : list R;
  rowMaxCenX : list R;
  rowRadi : list R;
  row : list (list TreeNode);
  (* the graph model: the geometry of every cell *)
  geometry : Cell -> mxRectangle;
  (* the field [theta] of every layout node, by node identity *)
  theta : nat -> R
}.

Definition set_parent v s :=
  mkLayout v (useBoundingBox s) (edgeRouting s) (root s) (node s) (angleOffset s)
    (nodeDistance s) (centerX s) (centerY s) (rowMinX s) (rowMaxX s) (rowMinCenX s)
    (rowMaxCenX s) (rowRadi s) (row s) (geometry s) (theta s).
Definition set_useBoundingBox v s :=
  mkLayout (parent s) v (edgeRouting s) (root s) (node s) (angleOffset s)
    (nodeDistance s) (centerX s) (centerY s) (rowMinX s) (rowMaxX s) (rowMinCenX s)
    (rowMaxCenX s) (rowRadi s) (row s) (geometry s) (theta s).
Definition set_edgeRouting v s :=
  mkLayout (parent s) (useBoundingBox s) v (root s) (node s) (angleOffset s)
    (nodeDistance s) (centerX s) (centerY s) (rowMinX s) (rowMaxX s) (rowMinCenX s)
    (rowMaxCenX s) (rowRadi s) (row s) (geometry s) (theta s).
Definition set_root v s :=
  mkLayout (parent s) (useBoundingBox s) (edgeRouting s) v (node s) (angleOffset s)
    (nodeDistance s) (centerX s) (centerY s) (rowMinX s) (rowMaxX s) (rowMinCenX s)
    (rowMaxCenX s) (rowRadi s) (row s) (geometry s) (theta s).
Definition set_node v s :=
  mkLayout (parent s) (useBoundingBox s) (edgeRouting s) (root s) v (angleOffset s)
    (nodeDistance s) (centerX s) (centerY s) (rowMinX s) (rowMaxX s) (rowMinCenX s)
    (rowMaxCenX s) (rowRadi s) (row s) (geometry s) (theta s).
Definition set_angleOffset v s :=
  mkLayout (parent s) (useBoundingBox s) (edgeRouting s) (root s) (node s) v
    (nodeDistance s) (centerX s) (centerY s) (rowMinX s) (rowMaxX s) (rowMinCenX s)
    (rowMaxCenX s) (rowRadi s) (row s) (geometry s) (theta s).
Definition set_centerX v s :=
  mkLayout (parent s) (useBoundingBox s) (edgeRouting s) (root s) (node s) (angleOffset s)
    (nodeDistance s) v (centerY s) (rowMinX s) (rowMaxX s) (rowMinCenX s)
    (rowMaxCenX s) (rowRadi s) (row s) (geometry s) (theta s).
Definition set_centerY v s :=
  mkLayout (parent s) (useBoundingBox s) (edgeRouting s) (root s) (node s) (angleOffset s)
    (nodeDistance s) (centerX s) v (rowMinX s) (rowMaxX s) (rowMinCenX s)
    (rowMaxCenX s) (rowRadi s) (row s) (geometry s) (theta s).
Definition set_rowMinX v s :=
  mkLayout (parent s) (useBoundingBox s) (edgeRouting s) (root s) (node s) (angleOffset s)
    (nodeDistance s) (centerX s) (centerY s) v (rowMaxX s) (rowMinCenX s)
    (rowMaxCenX s) (rowRadi s) (row s) (geometry s) (theta s).
Definition set_rowMaxX v s :=
  mkLayout (parent s) (useBoundingBox s) (edgeRouting s) (root s) (node s) (angleOffset s)
    (nodeDistance s) (centerX s) (centerY s) (rowMinX s) v (rowMinCenX s)
    (rowMaxCenX s) (rowRadi s) (row s) (geometry s) (theta s).
Definition set_rowMinCenX v s :=
  mkLayout (parent s) (useBoundingBox s) (edgeRouting s) (root s) (node s) (angleOffset s)
    (nodeDistance s) (centerX s) (centerY s) (rowMinX s) (rowMaxX s) v
    (rowMaxCenX s) (rowRadi s) (row s) (geometry s) (theta s).
Definition set_rowMaxCenX v s :=
  mkLayout (parent s) (useBoundingBox s) (edgeRouting s) (root s) (node s) (angleOffset s)
    (nodeDistance s) (centerX s) (centerY s) (rowMinX s) (rowMaxX s) (rowMinCenX s)
    v (rowRadi s) (row s) (geometry s) (theta s).
Definition set_rowRadi v s :=
  mkLayout (parent s) (useBoundingBox s) (edgeRouting s) (root s) (node s) (angleOffset s)
    (nodeDistance s) (centerX s) (centerY s) (rowMinX s) (rowMaxX s) (rowMinCenX s)
    (rowMaxCenX s) v (row s) (geometry s) (theta s).
Definition set_row v s :=
  mkLayout (parent s) (useBoundingBox s) (edgeRouting s) (root s) (node s) (angleOffset s)
    (nodeDistance s) (centerX s) (centerY s) (rowMinX s) (rowMaxX s) (rowMinCenX s)
    (rowMaxCenX s) (rowRadi s) v (geometry s) (theta s).
Definition set_geometry v s :=
  mkLayout (parent s) (useBoundingBox s) (edgeRouting s) (root s) (node s) (angleOffset s)
    (nodeDistance s) (centerX s) (centerY s) (rowMinX s) (rowMaxX s) (rowMinCenX s)
    (rowMaxCenX s) (rowRadi s) (row s) v (theta s).
Definition set_theta v s :=
  mkLayout (parent s) (useBoundingBox s) (edgeRouting s) (root s) (node s) (angleOffset s)
    (nodeDistance s) (centerX s) (centerY s) (rowMinX s) (rowMaxX s) (rowMinCenX s)
    (rowMaxCenX s) (rowRadi s) (row s) (geometry s) v.

(** ** Collaborators that are not part of the sources *)

(** Modelled from the spec: [getVertexBounds] of mxGraphLayout is not among
    the sources; the topology accessor's [bounds(vertex)] returns the
    vertex's x, y, width and height. *)
Definition getVertexBounds (s : Layout) (c : Cell) : mxRectangle := geometry s c.

(** Modelled from the spec: [setVertexLocation] of mxGraphLayout is not among
    the sources; the topology accessor's [setBounds(vertex, x, y)] writes the
    position of the vertex and keeps its size. *)
Definition setVertexLocation (c : Cell) (nx ny : R) (s : Layout) : Layout :=
  set_geometry
    (fun c' => if Nat.eqb c' c
               then Rect nx ny (width (geometry s c)) (height (geometry s c))
               else geometry s c') s.

(** [node.theta = v] *)
Definition setTheta (n : TreeNode) (v : R) (s : Layout) : Layout :=
  set_theta (fun i => if Nat.eqb i (id n) then v else theta s i) s.

(** ** calcRowDims *)

(** The body of the inner [while] loop (lines 287-311) for one [child];
    the flag is the local [rowHasChildren]. *)
Definition visitChild (rowNum : nat) (acc : Layout * bool) (ch : TreeNode)
  : Layout * bool :=
  let '(s, rowHasChildren) := acc in
  let vertexBounds := getVertexBounds s (cell ch) in
  let s := set_rowMinX
             (num_set rowNum (Rmin (x vertexBounds) (num_get (rowMinX s) rowNum))
                (rowMinX s)) s in
  let s := set_rowMaxX
             (num_set rowNum
                (Rmax (x vertexBounds + width vertexBounds) (num_get (rowMaxX s) rowNum))
                (rowMaxX s)) s in
  let s := set_rowMinCenX
             (num_set rowNum
                (Rmin (x vertexBounds + width vertexBounds / 2)
                   (num_get (rowMinCenX s) rowNum))
                (rowMinCenX s)) s in
  let s := set_rowMaxCenX
             (num_set rowNum
                (Rmax (x vertexBounds + width vertexBounds / 2)
                   (num_get (rowMaxCenX s) rowNum))
                (rowMaxCenX s)) s in
  let s := set_rowRadi
             (num_set rowNum (y vertexBounds - y (getVertexBounds s (root s)))
                (rowRadi s)) s in
  let rowHasChildren :=
    match child ch with Some _ => true | None => rowHasChildren end in
  let s := set_row (row_set rowNum (row_get (row s) rowNum ++ [ch]) (row s)) s in
  (s, rowHasChildren).

(** Lines 275-313: one invocation of [calcRowDims] on a non-empty [row],
    up to the test of [rowHasChildren]. *)
Definition calcRowDims_body (row_ : list (option TreeNode)) (rowNum : nat)
  (s : Layout) : Layout * bool :=
  let s := set_rowMinX (num_set rowNum (centerX s) (rowMinX s)) s in
  let s := set_rowMaxX (num_set rowNum (centerX s) (rowMaxX s)) s in
  let s := set_rowMinCenX (num_set rowNum (centerX s) (rowMinCenX s)) s in
  let s := set_rowMaxCenX (num_set rowNum (centerX s) (rowMaxCenX s)) s in
  let s := set_row (row_set rowNum [] (row s)) s in
  fold_left
    (fun acc r => fold_left (visitChild rowNum) (chain (childOf r)) acc)
    row_ (s, false).

(** ** Measures on the tree *)

(** Number of levels of the forest made of [n], its later siblings and
    their descendants. *)
Fixpoint levels (n : TreeNode) : nat :=
  match n with
  | Node _ _ ch nx =>
      Nat.max (S (match ch with Some m => levels m | None => 0%nat end))
              (match nx with Some m => levels m | None => 0%nat end)
  end.

Definition olevels (o : option TreeNode) : nat :=
  match o with Some n => levels n | None => 0%nat end.

(** Number of rows that lie below the nodes of [row_]. *)
Definition rows_below (row_ : list (option TreeNode)) : nat :=
  list_max (map (fun o => olevels (childOf o)) row_).

(** Depth of the tree whose root node is [o]; the root is at depth 0. *)
Definition depth (o : option TreeNode) : nat := rows_below [o].

(** The children of the nodes of [row_], in the order the loops visit them. *)
Definition childrenOf (row_ : list (option TreeNode)) : list TreeNode :=
  concat (map (fun r => chain (childOf r)) row_).

Definition hasChild (n : TreeNode) : bool :=
  match child n with Some _ => true | None => false end.

(** ** Basic facts: arrays *)

Section Arrays.
Context {A : Type} (d : A).

Lemma length_arr_set i v (l : list A) :
  length (arr_set d i v l) = Nat.max (length l) (S i).
Proof.
  unfold arr_set.
  rewrite !length_app, repeat_length. cbn [length].
  rewrite length_firstn, length_skipn. lia.
Qed.

Lemma nth_arr_set_eq i v (l : list A) : nth i (arr_set d i v l) d = v.
Proof.
  unfold arr_set.
  rewrite app_assoc, app_nth2; rewrite length_app, repeat_length, length_firstn.
  - replace (i - _)%nat with 0%nat by lia. reflexivity.
  - lia.
Qed.

Lemma nth_arr_set_neq i j v (l : list A) :
  i <> j -> nth j (arr_set d i v l) d = nth j l d.
Proof.
  intros Hij. unfold arr_set.
  destruct (Nat.lt_ge_cases j i) as [Hlt | Hge].
  - destruct (Nat.lt_ge_cases j (length l)) as [Hjl | Hjl].
    + rewrite app_nth1 by (rewrite length_firstn; lia).
      rewrite <- (firstn_skipn i l) at 2.
      rewrite app_nth1 by (rewrite length_firstn; lia). reflexivity.
    + rewrite firstn_all2 by lia.
      rewrite app_nth2 by lia.
      rewrite app_nth1 by (rewrite repeat_length; lia).
      rewrite nth_repeat. symmetry. apply nth_overflow. lia.
  - assert (Hlt : (i < j)%nat) by lia.
    rewrite app_assoc, app_nth2;
      rewrite length_app, repeat_length, length_firstn; [| lia].
    replace (j - _)%nat with (S (j - S i)) by lia. cbn [nth].
    rewrite nth_skipn. f_equal. lia.
Qed.
End Arrays.

(** ** Basic facts: one invocation of calcRowDims *)

Lemma fold_left_children {S} (f : S -> TreeNode -> S) row_ (acc : S) :
  fold_left (fun a r => fold_left f (chain (childOf r)) a) row_ acc
  = fold_left f (childrenOf row_) acc.
Proof.
  unfold childrenOf. revert acc.
  induction row_ as [| r rs IH]; intros acc; cbn [map concat fold_left].
  - reflexivity.
  - rewrite fold_left_app. apply IH.
Qed.

Lemma row_get_set_eq i v l : row_get (row_set i v l) i = v.
Proof. apply nth_arr_set_eq. Qed.

Lemma row_get_set_neq i j v l : i <> j -> row_get (row_set i v l) j = row_get l j.
Proof. apply nth_arr_set_neq. Qed.

Lemma num_get_set_eq i v l : num_get (num_set i v l) i = v.
Proof. apply nth_arr_set_eq. Qed.

Lemma num_get_set_neq i j v l : i <> j -> num_get (num_set i v l) j = num_get l j.
Proof. apply nth_arr_set_neq. Qed.

Lemma visitChild_row rowNum l s b :
  row_get (row (fst (fold_left (visitChild rowNum) l (s, b)))) rowNum
  = row_get (row s) rowNum ++ l.
Proof.
  revert s b. induction l as [| ch l IH]; intros s b; cbn [fold_left].
  - cbn. now rewrite app_nil_r.
  - unfold visitChild at 2. cbv zeta. rewrite IH. cbn [row set_row].
    rewrite row_get_set_eq. cbn [row set_rowRadi set_rowMaxCenX set_rowMinCenX
      set_rowMaxX set_rowMinX]. now rewrite <- app_assoc.
Qed.

Lemma visitChild_flag rowNum l s b :
  snd (fold_left (visitChild rowNum) l (s, b)) = (b || existsb hasChild l)%bool.
Proof.
  revert s b. induction l as [| ch l IH]; intros s b; cbn [fold_left existsb].
  - cbn. now rewrite orb_false_r.
  - unfold visitChild at 2. cbv zeta. rewrite IH. unfold hasChild.
    destruct (child ch), b; reflexivity.
Qed.

Lemma calcRowDims_body_row row_ rowNum s :
  row_get (row (fst (calcRowDims_body row_ rowNum s))) rowNum = childrenOf row_.
Proof.
  unfold calcRowDims_body. rewrite fold_left_children, visitChild_row.
  cbn [row set_row]. now rewrite row_get_set_eq.
Qed.

Lemma calcRowDims_body_flag row_ rowNum s :
  snd (calcRowDims_body row_ rowNum s) = existsb hasChild (childrenOf row_).
Proof.
  unfold calcRowDims_body. now rewrite fold_left_children, visitChild_flag.
Qed.

(** ** Basic facts: tree measures *)

Lemma TreeNode_induction (P : TreeNode -> Prop) :
  (forall i c ch nx,
      (forall m, ch = Some m -> P m) -> (forall m, nx = Some m -> P m) ->
      P (Node i c ch nx)) ->
  forall n, P n.
Proof.
  intros H. fix IH 1. intros [i c ch nx]. apply H.
  - destruct ch as [k |]; intros m E; [injection E as <-; apply IH | discriminate].
  - destruct nx as [k |]; intros m E; [injection E as <-; apply IH | discriminate].
Qed.

Lemma siblings_levels n m : In m (siblings n) -> (S (olevels (child m)) <= levels n)%nat.
Proof.
  induction n as [i c ch nx _ IHnx] using TreeNode_induction.
  cbn [siblings levels]. intros [<- | Hin].
  - cbn [child]. unfold olevels. lia.
  - destruct nx as [k |]; [| contradiction].
    specialize (IHnx k eq_refl Hin). lia.
Qed.

Lemma chain_levels o m : In m (chain o) -> (S (olevels (child m)) <= olevels o)%nat.
Proof. destruct o; cbn; [apply siblings_levels | contradiction]. Qed.

Lemma list_max_le_iff l k : (list_max l <= k)%nat <-> Forall (fun v => (v <= k)%nat) l.
Proof. apply list_max_le. Qed.

Lemma childrenOf_levels row_ m :
  In m (childrenOf row_) -> (S (olevels (child m)) <= rows_below row_)%nat.
Proof.
  unfold childrenOf, rows_below. rewrite in_concat.
  intros (l & Hl & Hm). rewrite in_map_iff in Hl. destruct Hl as (r & <- & Hr).
  apply chain_levels in Hm.
  assert (Hle : (olevels (childOf r) <= list_max (map (fun o => olevels (childOf o)) row_))%nat).
  { assert (HF := proj1 (list_max_le_iff (map (fun o => olevels (childOf o)) row_) _)
                    (Nat.le_refl _)).
    rewrite Forall_forall in HF. apply HF.
    apply (in_map (fun o => olevels (childOf o))), Hr. }
  lia.
Qed.

Lemma rows_below_children row_ :
  childrenOf row_ <> [] ->
  (rows_below (map Some (childrenOf row_)) < rows_below row_)%nat.
Proof.
  intros Hne.
  assert (Hpos : (1 <= rows_below row_)%nat).
  { destruct (childrenOf row_) as [| m l] eqn:E; [congruence |].
    assert (Hm : In m (childrenOf row_)) by (rewrite E; now left).
    apply childrenOf_levels in Hm. lia. }
  enough (rows_below (map Some (childrenOf row_)) <= rows_below row_ - 1)%nat by lia.
  unfold rows_below at 1. apply list_max_le_iff. rewrite Forall_forall.
  intros v Hv. rewrite map_map in Hv. cbn [childOf] in Hv.
  rewrite in_map_iff in Hv. destruct Hv as (m & <- & Hm).
  apply childrenOf_levels in Hm. lia.
Qed.

(** ** calcRowDims (lines 269-318) *)

Definition inspect {A} (a : A) : {b : A | a = b} := exist _ a eq_refl.

Equations? calcRowDims (row_ : list (option TreeNode)) (rowNum : nat) (s : Layout)
  : Layout by wf (rows_below row_) lt :=
  calcRowDims [] rowNum s := s;
  calcRowDims (r :: rs) rowNum s with inspect (calcRowDims_body (r :: rs) rowNum s) := {
    | exist _ (s', true) e :=
        calcRowDims (map Some (row_get (row s') rowNum)) (S rowNum) s';
    | exist _ (s', false) _ := s' }.
Proof.
  pose proof (calcRowDims_body_row (r :: rs) rowNum s) as Hrow.
  pose proof (calcRowDims_body_flag (r :: rs) rowNum s) as Hflag.
  rewrite e in Hrow, Hflag. cbn [fst snd] in Hrow, Hflag.
  rewrite Hrow. apply rows_below_children.
  intros E. rewrite E in Hflag. discriminate.
Qed.

(** ** The phases of execute *)

Definition Rgtb (a b : R) : bool := if Rgt_dec a b then true else false.
Definition Rltb (a b : R) : bool := if Rlt_dec a b then true else false.

(** Lines 177-189: the steepest left and right gradients over all rows. *)
Definition steepestGradients (s : Layout) : R * R :=
  fold_left
    (fun '(maxLeftGrad, maxRightGrad) i =>
       let leftGrad :=
         (centerX s - num_get (rowMinX s) i - nodeDistance s) / num_get (rowRadi s) i in
       let rightGrad :=
         (num_get (rowMaxX s) i - centerX s - nodeDistance s) / num_get (rowRadi s) i in
       (Rmax maxLeftGrad leftGrad, Rmax maxRightGrad rightGrad))
    (seq 0 (length (row s))) (0, 0).

(** Lines 193-197: the virtual limits of row [i]. *)
Definition xLeftLimit (maxLeftGrad : R) (s : Layout) (i : nat) : R :=
  centerX s - nodeDistance s - maxLeftGrad * num_get (rowRadi s) i.
Definition xRightLimit (maxRightGrad : R) (s : Layout) (i : nat) : R :=
  centerX s + nodeDistance s + maxRightGrad * num_get (rowRadi s) i.

(** Lines 202-205: the angle given to a node of row [i]. *)
Definition polarAngle (maxLeftGrad maxRightGrad : R) (s : Layout) (i : nat)
  (n : TreeNode) : R :=
  let fullWidth := xRightLimit maxRightGrad s i - xLeftLimit maxLeftGrad s i in
  let vertexBounds := getVertexBounds s (cell n) in
  let xProportion :=
    (x vertexBounds + width vertexBounds / 2 - xLeftLimit maxLeftGrad s i) / fullWidth in
  2 * PI * xProportion.

(** Lines 191-208: polar angle assignment.  The inner loop only uses [j] to
    fetch [row[j]], so it is a fold over the elements of the row. *)
Definition assignTheta (maxLeftGrad maxRightGrad : R) (s : Layout) : Layout :=
  fold_left
    (fun s i =>
       fold_left
         (fun s n => setTheta n (polarAngle maxLeftGrad maxRightGrad s i n) s)
         (row_get (row s) i) s)
    (seq 0 (length (row s))) s.

(** Lines 216-224: sum and number of the angles of the children of [n]. *)
Definition childrenTheta (s : Layout) (n : TreeNode) : R * nat :=
  fold_left
    (fun '(totalTheta, counter) ch => (totalTheta + theta s (id ch), S counter))
    (chain (child n)) (0, 0%nat).

(** Lines 215-236: the body of the inner loop of the reconciliation for
    [row[j]], where [row = this.row[i]]. *)
Definition reconcileNode (i : nat) (s : Layout) (j : nat) : Layout :=
  let row_ := row_get (row s) i in
  match nth_error row_ j with
  | None => s
  | Some n =>
      let '(totalTheta, counter) := childrenTheta s n in
      if (0 <? counter)%nat then
        let averTheta := totalTheta / INR counter in
        if Rgtb averTheta (theta s (id n)) && (j <? length row_ - 1)%nat then
          let nextTheta := theta s (id (nth (j + 1) row_ n)) in
          setTheta n (Rmin averTheta (nextTheta - PI / 10)) s
        else if Rltb averTheta (theta s (id n)) && (0 <? j)%nat then
          let lastTheta := theta s (id (nth (j - 1) row_ n)) in
          setTheta n (Rmax averTheta (lastTheta + PI / 10)) s
        else s
      else s
  end.

Definition reconcileRow (s : Layout) (i : nat) : Layout :=
  fold_left (reconcileNode i) (seq 0 (length (row_get (row s) i))) s.

(** Lines 210-238: [for (let i = this.row.length - 2; i >= 0; i--)]. *)
Definition reconcile (s : Layout) : Layout :=
  fold_left reconcileRow (rev (seq 0 (length (row s) - 1))) s.

(** Lines 245-254: the location given to a node of row [i]. *)
Definition emitNode (i : nat) (s : Layout) (n : TreeNode) : Layout :=
  let vertexBounds := getVertexBounds s (cell n) in
  setVertexLocation (cell n)
    (centerX s - width vertexBounds / 2 + num_get (rowRadi s) i * cos (theta s (id n)))
    (centerY s - height vertexBounds / 2 + num_get (rowRadi s) i * sin (theta s (id n)))
    s.

(** Lines 240-256: set locations. *)
Definition setLocations (s : Layout) : Layout :=
  fold_left (fun s i => fold_left (emitNode i) (row_get (row s) i) s)
    (seq 0 (length (row s))) s.

(** ** execute (lines 154-257) *)

(** What the compact tree layout hands over: the root vertex, the root layout
    node and the Cartesian bound of every vertex it visited. *)
Record CompactTree := mkCompactTree {
  c_root : Cell;
  c_node : option TreeNode;
  c_bounds : Cell -> option mxRectangle
}.

Section Execute.

(** The compact tree layout on a fixed topology with fixed vertex sizes:
    a function of the arguments of [execute]. *)
Variable compact : Cell -> option Cell -> CompactTree.

(** Modelled from the spec: [mxCompactTreeLayout.execute] is not among the
    sources.  The precondition stage sets [this.root] and [this.node] and
    gives every visited vertex its Cartesian bound; it is deterministic in
    the topology. *)
Definition super_execute (parent_ : Cell) (root_ : option Cell) (s : Layout)
  : Layout :=
  let c := compact parent_ root_ in
  let s := set_root (c_root c) s in
  let s := set_node (c_node c) s in
  set_geometry
    (fun v => match c_bounds c v with Some b => b | None => geometry s v end) s.

(** Lines 155-158: what happens before the base class is called. *)
Definition execute_prologue (parent_ : Cell) (s : Layout) : Layout :=
  let s := set_parent parent_ s in
  let s := set_useBoundingBox false s in
  set_edgeRouting false s.

(** Lines 164-166: the center of the layout is the center of the root. *)
Definition execute_center (s : Layout) : Layout :=
  let rootBounds := getVertexBounds s (root s) in
  let s := set_centerX (x rootBounds + width rootBounds / 2) s in
  set_centerY (y rootBounds + height rootBounds / 2) s.

(** Lines 163-256: what happens after the base class returns.  The loop of
    lines 169-173 only fills a local variable that is never read. *)
Definition execute_radial (s : Layout) : Layout :=
  let s := execute_center s in
  let s := calcRowDims [node s] 0 s in
  let '(maxLeftGrad, maxRightGrad) := steepestGradients s in
  let s := assignTheta maxLeftGrad maxRightGrad s in
  let s := reconcile s in
  setLocations s.

Definition execute (parent_ : Cell) (root_ : option Cell) (s : Layout) : Layout :=
  let s := execute_prologue parent_ s in
  let s := super_execute parent_ root_ s in
  execute_radial s.

End Execute.

(** A freshly constructed layout over a graph with the given geometry: the
    class field initialisers of lines 14-99.  The fields [rootx], [rooty],
    [levelDistance], [autoRadius] and [sortEdges] are never read or written
    by the class and are left out.  The fields of the base classes and the
    center are set by execute before they are read. *)
Definition newLayout (g : Cell -> mxRectangle) : Layout :=
  mkLayout 0%nat true true 0%nat None (5 / 10) 10 0 0 [] [] [] [] [] [] g (fun _ => 0).

(** ** Intermediate states of execute, and calcRowDims with a call budget *)

(** The instance after the rows are computed, and after the angles are
    assigned: the intermediate states of [execute_radial]. *)
Definition execute_rows (s : Layout) : Layout :=
  calcRowDims [node (execute_center s)] 0 (execute_center s).

Definition execute_angles (s : Layout) : Layout :=
  assignTheta (fst (steepestGradients (execute_rows s)))
    (snd (steepestGradients (execute_rows s))) (execute_rows s).

(** calcRowDims with a budget of invocations: [None] when more than [budget]
    nested invocations would be needed. *)
Fixpoint calcRowDims_calls (budget : nat) (row_ : list (option TreeNode)) (rowNum : nat)
  (s : Layout) : option Layout :=
  match budget with
  | O => None
  | S budget =>
      match row_ with
      | [] => Some s
      | _ :: _ =>
          let '(s', rowHasChildren) := calcRowDims_body row_ rowNum s in
          if rowHasChildren
          then calcRowDims_calls budget (map Some (row_get (row s') rowNum)) (S rowNum) s'
          else Some s'
      end
  end.

(** * The vocabulary of the properties *)

(** A change of the instance, applied to the instance paired with the local
    [rowHasChildren]. *)
Definition on_state (g : Layout -> Layout) (p : Layout * bool) : Layout * bool :=
  (g (fst p), snd p).

(** The nodes whose angle the pass may write: those that have a child and
    sit in a row other than the outermost one. *)
Definition reconcilable (s : Layout) (k : nat) : Prop :=
  exists i n, (i + 2 <= length (row s))%nat /\ In n (row_get (row s) i) /\
              id n = k /\ child n <> None.

(** Node objects are distinct: no two nodes of the rows share an identity. *)
Definition distinctNodes (s : Layout) : Prop := NoDup (map id (concat (row s))).

(** Extent of a list of nodes, starting from [c]: the running minimum and
    maximum of lines 290-302 for a measure [f] of the bound. *)
Definition rowMin (f : mxRectangle -> R) (g : Cell -> mxRectangle) (c : R)
  (l : list TreeNode) : R :=
  fold_left (fun m ch => Rmin (f (g (cell ch))) m) l c.
Definition rowMax (f : mxRectangle -> R) (g : Cell -> mxRectangle) (c : R)
  (l : list TreeNode) : R :=
  fold_left (fun m ch => Rmax (f (g (cell ch))) m) l c.

Definition rightEdge (b : mxRectangle) : R := x b + width b.
Definition centreX (b : mxRectangle) : R := x b + width b / 2.

(** The writes of lines 303-304 to [rowRadi[rowNum]], one per visited node. *)
Definition radiFold (rowNum : nat) (g : Cell -> mxRectangle) (rootCell : Cell)
  (l : list TreeNode) (radi : list R) : list R :=
  fold_left (fun a ch => num_set rowNum (y (g (cell ch)) - y (g rootCell)) a) l radi.

(** [rowAt row_ k]: the nodes that lie [k + 1] levels below the nodes of
    [row_]. *)
Fixpoint rowAt (row_ : list (option TreeNode)) (k : nat) : list TreeNode :=
  match k with
  | O => childrenOf row_
  | S k => rowAt (map Some (childrenOf row_)) k
  end.

(** Number of invocations of calcRowDims that write a row when it is called
    on [row_]. *)
Definition rowCount (row_ : list (option TreeNode)) : nat :=
  match row_ with
  | [] => 0%nat
  | _ :: _ => Nat.max 1 (rows_below row_)
  end.

(** The five numbers kept for row [j]. *)
Definition dims (s : Layout) (j : nat) : R * R * R * R * R :=
  (num_get (rowMinX s) j, num_get (rowMaxX s) j, num_get (rowMinCenX s) j,
   num_get (rowMaxCenX s) j, num_get (rowRadi s) j).

(** The value of [rowRadi[rowNum]] after the loop over [l], from [old]. *)
Definition lastRadius (g : Cell -> mxRectangle) (rootCell : Cell)
  (l : list TreeNode) (old : R) : R :=
  fold_left (fun _ ch => y (g (cell ch)) - y (g rootCell)) l old.

(** The five numbers that an invocation on the nodes [l] leaves for its row. *)
Definition dimsOf (s : Layout) (l : list TreeNode) (oldRadius : R)
  : R * R * R * R * R :=
  (rowMin x (geometry s) (centerX s) l, rowMax rightEdge (geometry s) (centerX s) l,
   rowMin centreX (geometry s) (centerX s) l, rowMax centreX (geometry s) (centerX s) l,
   lastRadius (geometry s) (root s) l oldRadius).

(** [f] differs from [s] only in the row arrays. *)
Definition sameButRows (s f : Layout) : Prop :=
  f = mkLayout (parent s) (useBoundingBox s) (edgeRouting s) (root s) (node s)
        (angleOffset s) (nodeDistance s) (centerX s) (centerY s)
        (rowMinX f) (rowMaxX f) (rowMinCenX f) (rowMaxCenX f) (rowRadi f) (row f)
        (geometry s) (theta s).

(** What a call [calcRowDims row_ rowNum] turns [s] into. *)
Record RowsWritten (row_ : list (option TreeNode)) (rowNum : nat) (s f : Layout)
  : Prop := {
  rw_frame : sameButRows s f;
  rw_length :
    length (row f) =
    match rowCount row_ with
    | O => length (row s)
    | S _ => Nat.max (length (row s)) (rowNum + rowCount row_)
    end;
  rw_outside :
    forall j, (j < rowNum)%nat \/ (rowNum + rowCount row_ <= j)%nat ->
              dims f j = dims s j /\ row_get (row f) j = row_get (row s) j;
  rw_inside :
    forall k, (k < rowCount row_)%nat ->
              row_get (row f) (rowNum + k) = rowAt row_ k /\
              dims f (rowNum + k)
              = dimsOf s (rowAt row_ k) (num_get (rowRadi s) (rowNum + k))
}.

Definition upd {V} (st : nat -> V) (k : nat) (v : V) : nat -> V :=
  fun i => if Nat.eqb i k then v else st i.

Definition writes {V} (ws : list (nat * V)) (st : nat -> V) : nat -> V :=
  fold_left (fun st w => upd st (fst w) (snd w)) ws st.

(** [f] differs from [s] only in the angles of the nodes. *)
Definition sameButTheta (s f : Layout) : Prop := f = set_theta (theta f) s.

(** [f] differs from [s] only in the positions of the cells. *)
Definition sameButPositions (s f : Layout) : Prop :=
  f = set_geometry (geometry f) s /\
  forall c, width (geometry f c) = width (geometry s c) /\
            height (geometry f c) = height (geometry s c).

(** The writes of lines 199-207, in order. *)
Definition thetaWrites (maxLeftGrad maxRightGrad : R) (s : Layout) : list (nat * R) :=
  flat_map
    (fun i => map (fun n => (id n, polarAngle maxLeftGrad maxRightGrad s i n))
                  (row_get (row s) i))
    (seq 0 (length (row s))).

(** The position written for a node of row [i] (lines 248-253). *)
Definition emitted (s : Layout) (i : nat) (n : TreeNode) : mxRectangle :=
  let vertexBounds := geometry s (cell n) in
  Rect (centerX s - width vertexBounds / 2 + num_get (rowRadi s) i * cos (theta s (id n)))
       (centerY s - height vertexBounds / 2 + num_get (rowRadi s) i * sin (theta s (id n)))
       (width vertexBounds) (height vertexBounds).

Definition locationWrites (s : Layout) : list (nat * mxRectangle) :=
  flat_map (fun i => map (fun n => (cell n, emitted s i n)) (row_get (row s) i))
    (seq 0 (length (row s))).

Definition treeRows (o : option TreeNode) : list (list TreeNode) :=
  map (rowAt [o]) (seq 0 (Nat.max 1 (depth o))).

Definition leftGrad (s : Layout) (i : nat) : R :=
  (centerX s - num_get (rowMinX s) i - nodeDistance s) / num_get (rowRadi s) i.
Definition rightGrad (s : Layout) (i : nat) : R :=
  (num_get (rowMaxX s) i - centerX s - nodeDistance s) / num_get (rowRadi s) i.

(** The average of lines 216-227. *)
Definition averTheta (s : Layout) (n : TreeNode) : R :=
  fst (childrenTheta s n) / INR (snd (childrenTheta s n)).

(** Adjacent siblings of row [i] are at least PI / 10 apart, in row order. *)
Definition separated (s : Layout) (i : nat) : Prop :=
  forall j n m,
    nth_error (row_get (row s) i) j = Some n ->
    nth_error (row_get (row s) i) (S j) = Some m ->
    theta s (id n) + PI / 10 <= theta s (id m).

(** ** The nodes of the tree *)

(** A node, the nodes below it, and its later siblings with the nodes below
    them: all that is reached from [n] by [child] and [next]. *)
Fixpoint reachable (n : TreeNode) : list TreeNode :=
  match n with
  | Node _ _ ch nx =>
      n :: match ch with Some c => reachable c | None => [] end
        ++ match nx with Some m => reachable m | None => [] end
  end.

(** The nodes below [o]: its children and all their descendants. *)
Definition below (o : option TreeNode) : list TreeNode :=
  match childOf o with Some c => reachable c | None => [] end.

(** ** Instances that later phases cannot tell apart *)


(** Two instances that the phases after calcRowDims cannot tell apart. *)
Record AgreeRows (X Y : Layout) : Prop := {
  ag_row : row X = row Y;
  ag_dims : forall j, (j < length (row X))%nat -> dims X j = dims Y j;
  ag_geometry : geometry X = geometry Y;
  ag_centerX : centerX X = centerX Y;
  ag_centerY : centerY X = centerY Y;
  ag_nodeDistance : nodeDistance X = nodeDistance Y
}.

(** ... and that hold the same angle for every node of the rows. *)
Definition AgreeTheta (X Y : Layout) : Prop :=
  forall n, In n (concat (row X)) -> theta X (id n) = theta Y (id n).

(** The rows hold the children of the nodes of all rows but the last. *)
Definition childrenInRows (X : Layout) : Prop :=
  forall i n m, (S i < length (row X))%nat -> In n (row_get (row X) i) ->
                In m (chain (child n)) -> In m (concat (row X)).

(** Two instances on which the reconciliation runs alike. *)
Definition Agree (X Y : Layout) : Prop :=
  AgreeRows X Y /\ AgreeTheta X Y /\ childrenInRows X.

(** ** A graph that is moved as a whole *)

(** A bound moved by [(dx, dy)]. *)
Definition moved (dx dy : R) (b : mxRectangle) : mxRectangle :=
  Rect (x b + dx) (y b + dy) (width b) (height b).

(** The compact tree layout that puts every vertex [(dx, dy)] away from where
    [compact] puts it. *)
Definition movedCompact (dx dy : R) (compact : Cell -> option Cell -> CompactTree)
  : Cell -> option Cell -> CompactTree :=
  fun parent_ root_ =>
    let c := compact parent_ root_ in
    mkCompactTree (c_root c) (c_node c)
      (fun v => match c_bounds c v with Some b => Some (moved dx dy b) | None => None end).

(** [Y] is [X] with the graph, the center and the extents of the rows moved
    by [(dx, dy)]. *)
Record Moved (dx dy : R) (X Y : Layout) : Prop := {
  mv_row : row X = row Y;
  mv_theta : theta X = theta Y;
  mv_rowMinX : forall j, (j < length (row X))%nat ->
                         num_get (rowMinX Y) j = num_get (rowMinX X) j + dx;
  mv_rowMaxX : forall j, (j < length (row X))%nat ->
                         num_get (rowMaxX Y) j = num_get (rowMaxX X) j + dx;
  mv_rowRadi : forall j, (j < length (row X))%nat ->
                         num_get (rowRadi Y) j = num_get (rowRadi X) j;
  mv_geometry : geometry Y = fun v => moved dx dy (geometry X v);
  mv_centerX : centerX Y = centerX X + dx;
  mv_centerY : centerY Y = centerY X + dy;
  mv_nodeDistance : nodeDistance Y = nodeDistance X
}.

(** * Sample graphs *)

(** ** A root with two children, one of which has a child *)

Definition nodeC : TreeNode := Node 13 3%nat None None.
Definition nodeB : TreeNode := Node 12 2%nat (Some nodeC) None.
Definition nodeA : TreeNode := Node 11 1%nat None (Some nodeB).
Definition nodeR : TreeNode := Node 10 0%nat (Some nodeA) None.

(** The bounds a compact tree layout gives the four vertices: the root on
    top, its children A and B centered below it, C below B. *)
Definition sampleBounds (c : Cell) : mxRectangle :=
  match c with
  | 0%nat => Rect 100 0 20 20
  | 1%nat => Rect 80 30 20 20
  | 2%nat => Rect 120 30 20 20
  | 3%nat => Rect 120 60 20 20
  | _ => Rect 0 0 0 0
  end.

Definition sampleCompact (_ : Cell) (_ : option Cell) : CompactTree :=
  mkCompactTree 0%nat (Some nodeR)
    (fun c => if (c <=? 3)%nat then Some (sampleBounds c) else None).

(** The instance right after the compact tree layout ran on a new layout. *)
Definition sampleStart : Layout :=
  super_execute sampleCompact 0%nat None (execute_prologue 0%nat (newLayout sampleBounds)).

(** ** A single vertex *)

(** A graph with a single vertex. *)
Definition singleCompact (_ : Cell) (_ : option Cell) : CompactTree :=
  mkCompactTree 0%nat (Some (Node 10 0%nat None None)) (fun _ => None).

(** ** The rows of the first sample, with angles given by hand *)

(** An instance whose rows are those of the sample tree. *)
Definition sampleRows : Layout := set_row [[nodeA; nodeB]; [nodeC]] (newLayout sampleBounds).

(** The sample rows with the angles 0 for A and C and 1 for B. *)
Definition sampleSeparated : Layout :=
  set_theta (fun k => if Nat.eqb k 12 then 1 else 0) sampleRows.

(** ** Four siblings, the second with a very wide child *)

Definition nodeW : TreeNode := Node 25 5%nat None None.
Definition nodeP3 : TreeNode := Node 24 4%nat None None.
Definition nodeP2 : TreeNode := Node 23 3%nat None (Some nodeP3).
Definition nodeP1 : TreeNode := Node 22 2%nat (Some nodeW) (Some nodeP2).
Definition nodeP0 : TreeNode := Node 21 1%nat None (Some nodeP1).
Definition nodeRoot : TreeNode := Node 20 0%nat (Some nodeP0) None.

(** The root is centered over its four children, which stand side by side;
    the wide vertex is centered under its parent. *)
Definition wideBounds (c : Cell) : mxRectangle :=
  match c with
  | 0%nat => Rect (-10) 0 20 20
  | 1%nat => Rect (-55) 50 20 20
  | 2%nat => Rect (-25) 50 20 20
  | 3%nat => Rect 5 50 20 20
  | 4%nat => Rect 35 50 20 20
  | 5%nat => Rect (-1505) 100 2980 20
  | _ => Rect 0 0 0 0
  end.

Definition wideCompact (_ : Cell) (_ : option Cell) : CompactTree :=
  mkCompactTree 0%nat (Some nodeRoot)
    (fun c => if (c <=? 5)%nat then Some (wideBounds c) else None).

Definition wideStart : Layout :=
  super_execute wideCompact 0%nat None (execute_prologue 0%nat (newLayout wideBounds)).

(** ** Two trees in one graph *)

(** A graph with two trees: A0 -> A1 -> A2 and B0 -> B1. *)
Definition nodeA2 : TreeNode := Node 32 2%nat None None.
Definition nodeA1 : TreeNode := Node 31 1%nat (Some nodeA2) None.
Definition nodeA0 : TreeNode := Node 30 0%nat (Some nodeA1) None.
Definition nodeB1 : TreeNode := Node 41 4%nat None None.
Definition nodeB0 : TreeNode := Node 40 3%nat (Some nodeB1) None.

Definition twoTreesBounds (c : Cell) : mxRectangle :=
  match c with
  | 0%nat => Rect (-10) 0 20 10
  | 1%nat => Rect (-10) 20 20 10
  | 2%nat => Rect (-10) 40 20 10
  | 3%nat => Rect 10 100 20 10
  | 4%nat => Rect 10 120 20 10
  | _ => Rect 0 0 0 0
  end.

(** The compact tree layout of the tree that hangs from the given root: it
    visits the vertices of that tree only. *)
Definition twoTreesCompact (_ : Cell) (root_ : option Cell) : CompactTree :=
  match root_ with
  | Some 3%nat =>
      mkCompactTree 3%nat (Some nodeB0)
        (fun c => if ((3 <=? c) && (c <=? 4))%nat then Some (twoTreesBounds c) else None)
  | _ =>
      mkCompactTree 0%nat (Some nodeA0)
        (fun c => if (c <=? 2)%nat then Some (twoTreesBounds c) else None)
  end.

(** [execute(parent, A0)] on a new layout, then [execute(parent, B0)] twice. *)
Definition runA : Layout :=
  execute twoTreesCompact 0%nat (Some 0%nat) (newLayout twoTreesBounds).
Definition runB (s : Layout) : Layout := execute twoTreesCompact 0%nat (Some 3%nat) s.

(** The instance right after the compact tree layout of the tree B. *)
Definition startB (s : Layout) : Layout :=
  super_execute twoTreesCompact 0%nat (Some 3%nat) (execute_prologue 0%nat s).

(** The instance right after the compact tree layout of the tree A, on a new
    layout. *)
Definition startA : Layout :=
  super_execute twoTreesCompact 0%nat (Some 0%nat)
    (execute_prologue 0%nat (newLayout twoTreesBounds)).

(** ** A vertex that hangs from the root in a later run *)

(** The graph of the tree A after the vertex of A2 was attached to the root
    and the vertex of A1 was removed: the compact tree layout makes new nodes
    for the root and for the vertex 2, which is now one level below the
    root. *)
Definition nodeD2 : TreeNode := Node 36 2%nat None None.
Definition nodeD0 : TreeNode := Node 35 0%nat (Some nodeD2) None.

Definition reattachedCompact (_ : Cell) (_ : option Cell) : CompactTree :=
  mkCompactTree 0%nat (Some nodeD0)
    (fun c =>
       match c with
       | 0%nat => Some (Rect (-10) 0 20 10)
       | 2%nat => Some (Rect (-10) 20 20 10)
       | _ => None
       end).

(** [execute(parent, A0)] on the changed graph. *)
Definition runD (s : Layout) : Layout := execute reattachedCompact 0%nat (Some 0%nat) s.


(** ** A child of width zero *)

(** A root with two children; the right one has width 0. *)
Definition nodeZ2 : TreeNode := Node 52 2%nat None None.
Definition nodeZ1 : TreeNode := Node 51 1%nat None (Some nodeZ2).
Definition nodeZ0 : TreeNode := Node 50 0%nat (Some nodeZ1) None.

Definition narrowBounds (c : Cell) : mxRectangle :=
  match c with
  | 0%nat => Rect 0 0 20 20
  | 1%nat => Rect (-5) 40 20 20
  | 2%nat => Rect 25 40 0 20
  | _ => Rect 0 0 0 0
  end.

Definition narrowCompact (_ : Cell) (_ : option Cell) : CompactTree :=
  mkCompactTree 0%nat (Some nodeZ0)
    (fun c => if (c <=? 2)%nat then Some (narrowBounds c) else None).

Definition narrowStart : Layout :=
  super_execute narrowCompact 0%nat None (execute_prologue 0%nat (newLayout narrowBounds)).

(** * The helpers, the codec registry and the toolbar of the same file *)

(** ** JavaScript values and ordinary objects *)

(** The values the helpers look at.  An object, a function included, is a
    reference. *)
Inductive JsValue : Type :=
| JsNull
| JsUndefined
| JsBoolean (b : bool)
| JsNumber (r : R)
| JsString (s : string)
| JsObject (ref : nat).

(** A property key: a string or a symbol. *)
Inductive PropertyKey : Type :=
| KeyString (s : string)
| KeySymbol (n : nat).

Definition PropertyKey_eqb (a b : PropertyKey) : bool :=
  match a, b with
  | KeyString s, KeyString t => String.eqb s t
  | KeySymbol n, KeySymbol m => Nat.eqb n m
  | _, _ => false
  end.

(** An own property with its attributes: a data property or an accessor
    property. *)
Inductive Property : Type :=
| DataProperty (value : JsValue) (writable enumerable configurable : bool)
| AccessorProperty (getter setter : JsValue) (enumerable configurable : bool).

(** An ordinary object, as far as [Object.defineProperty] looks at it: its
    own properties and whether it is extensible. *)
Record OrdinaryObject : Type := mkObject {
  properties : PropertyKey -> option Property;
  extensible : bool
}.

Definition setProperty (key : PropertyKey) (p : Property) (o : OrdinaryObject)
  : OrdinaryObject :=
  mkObject (fun k => if PropertyKey_eqb k key then Some p else properties o k)
           (extensible o).

(** [Object.defineProperty(o, key, { value: v, writable: true })] on an
    ordinary object (ECMAScript, ValidateAndApplyPropertyDescriptor); [None]
    when it throws a TypeError.  A new property is neither enumerable nor
    configurable; a property that is there keeps these two attributes, and it
    cannot be redefined when it is not configurable and is an accessor or is
    not writable. *)
Definition defineProperty (o : OrdinaryObject) (key : PropertyKey) (v : JsValue)
  : option OrdinaryObject :=
  match properties o key with
  | None =>
      if extensible o then Some (setProperty key (DataProperty v true false false) o)
      else None
  | Some (DataProperty _ w e c) =>
      if c || w then Some (setProperty key (DataProperty v true e c) o) else None
  | Some (AccessorProperty _ _ e c) =>
      if c then Some (setProperty key (DataProperty v true e c) o) else None
  end.

(** ** The helpers [isNullish], [isNotNullish], [getValue] and [mixInto] *)

Module Utils.

(** [v === null || v === undefined] *)
Definition isNullish (v : JsValue) : bool :=
  match v with
  | JsNull | JsUndefined => true
  | _ => false
  end.

Definition isNotNullish (v : JsValue) : bool := negb (isNullish v).

(** [v == null]: the loose comparison holds of null and undefined only. *)
Definition looseEqualsNull (v : JsValue) : bool :=
  match v with
  | JsNull | JsUndefined => true
  | _ => false
  end.

(** [getValue(array, key, defaultValue)].  [array] is [None] when it is null
    or undefined; otherwise it is what reading a property of it gives, which
    is undefined for a key it does not have.  A default that is left out is
    undefined. *)
Definition getValue (array : option (string -> JsValue)) (key : string)
  (defaultValue : JsValue) : JsValue :=
  let value := match array with Some a => a key | None => JsNull end in
  if looseEqualsNull value then defaultValue else value.

(** What [mixInto(dest)(mixin)] leaves: the object [dest.prototype] and
    whether [console.error] was called. *)
Record Mixed : Type := mkMixed {
  prototype : option OrdinaryObject;
  errorLogged : bool
}.

(** The loop of [mixInto] over the keys and values of the mixin, inside the
    [try]: it ends at the first [defineProperty] that throws, and the flag
    says whether one did. *)
Fixpoint defineAll (o : OrdinaryObject) (mixin : list (PropertyKey * JsValue))
  : OrdinaryObject * bool :=
  match mixin with
  | [] => (o, false)
  | (key, v) :: rest =>
      match defineProperty o key v with
      | Some o' => defineAll o' rest
      | None => (o, true)
      end
  end.

(** [mixInto(dest)(mixin)].  [dest] is the object [dest.prototype], [None]
    when [dest] is null or undefined or has no such object: reading
    [dest.prototype], or [Object.defineProperty] on what it gives, throws
    then, at the first key.  [mixin] is the list of the own keys of the mixin
    in the order of [Reflect.ownKeys], each with the value [mixin[key]];
    it is [None] when the mixin is not an object, and [Reflect.ownKeys] throws
    then, outside the [try]: the result is [None]. *)
Definition mixInto (dest : option OrdinaryObject)
  (mixin : option (list (PropertyKey * JsValue))) : option Mixed :=
  match mixin with
  | None => None
  | Some keys =>
      match dest with
      | None => Some (mkMixed None (match keys with [] => false | _ :: _ => true end))
      | Some o =>
          let '(o', failed) := defineAll o keys in
          Some (mkMixed (Some o') failed)
      end
  end.

End Utils.

(** ** CodecRegistry *)

Module CodecRegistry.

(** An [ObjectCodec], as far as the registry looks at it: what [getName()]
    returns and [template.constructor.name]; [codec_ref] tells two codecs
    apart that agree on both. *)
Record ObjectCodec : Type := mkObjectCodec {
  codec_ref : nat;
  getName : string;
  template_constructor_name : string
}.

(** A constructor function: its name, and the codec that
    [new ObjectCodec(new constructor_())] gives, [None] when that throws.
    The constructors are taken not to use the registry themselves. *)
Record ConstructorType : Type := mkConstructorType {
  name : string;
  new_ObjectCodec : option ObjectCodec
}.

(** The two static objects, used as maps from names.  Names are taken not to
    be those of the properties every object inherits. *)
Record Registry : Type := mkRegistry {
  codecs : string -> option ObjectCodec;
  aliases : string -> option string
}.

Definition empty : Registry := mkRegistry (fun _ => None) (fun _ => None).

Definition addAlias (classname codecname : string) (r : Registry) : Registry :=
  mkRegistry (codecs r)
    (fun k => if String.eqb k classname then Some codecname else aliases r k).

Definition register (codec : option ObjectCodec) (r : Registry)
  : Registry * option ObjectCodec :=
  match codec with
  | Some c =>
      let name := getName c in
      let r := mkRegistry (fun k => if String.eqb k name then Some c else codecs r k)
                          (aliases r) in
      let classname := template_constructor_name c in
      (if negb (String.eqb classname name) then addAlias classname name r else r, codec)
  | None => (r, codec)
  end.

(** [getCodec(constructor_)].  The argument is [None] when it is null or
    undefined, a string ([inl]) or a constructor ([inr]). *)
Definition getCodec (constructor_ : option (string + ConstructorType)) (r : Registry)
  : Registry * option ObjectCodec :=
  match constructor_ with
  | None => (r, None)
  | Some key =>
      let name := match key with inl s => s | inr c => name c end in
      let name := match aliases r name with Some a => a | None => name end in
      let codec := codecs r name in
      match codec, key with
      | None, inr c =>
          match new_ObjectCodec c with
          | Some codec => (fst (register (Some codec) r), Some codec)
          | None => (r, None)
          end
      | _, _ => (r, codec)
      end
  end.

Definition getCodecByName (name : string) (r : Registry) : option ObjectCodec :=
  codecs r name.

End CodecRegistry.

(** ** copyTextToClipboard *)

Module Clipboard.

(** The calls into the document, the clipboard and the console. *)
Inductive DomCall : Type :=
| createElement (tag : string)
| appendChild
| focus
| select
| execCommand (command : string)
| removeChild
| writeText (text : string)
| console_log (message : string)
| console_error (message : string).

(** A run: the calls made, in order, and what was returned, [None] when an
    exception left the function. *)
Definition Run (A : Type) : Type := list DomCall * option A.

Definition ret {A} (a : A) : Run A := ([], Some a).

Definition bind {A B} (m : Run A) (f : A -> Run B) : Run B :=
  match m with
  | (cs, Some a) => let '(cs', b) := f a in (cs ++ cs', b)
  | (cs, None) => (cs, None)
  end.

(** [try { m } catch (err) { handler }] *)
Definition try_catch {A} (m : Run A) (handler : Run A) : Run A :=
  match m with
  | (cs, Some a) => (cs, Some a)
  | (cs, None) => let '(cs', a) := handler in (cs ++ cs', a)
  end.

Notation "x <- m ;; f" := (bind m (fun x => f))
  (at level 61, m at next level, right associativity).
Notation "m ;;; f" := (bind m (fun _ => f))
  (at level 61, right associativity).

Section Document.

(** Which calls throw, and what [document.execCommand] returns. *)
Variable throws : DomCall -> bool.
Variable execCommand_returns : bool.

Definition call (c : DomCall) : Run unit :=
  ([c], if throws c then None else Some tt).

(** [fallbackCopyTextToClipboard(text)].  The assignments to the value and
    the style of the new element are not calls. *)
Definition fallbackCopyTextToClipboard (text : string) : Run unit :=
  call (createElement "textarea") ;;;
  call appendChild ;;;
  call focus ;;;
  call select ;;;
  try_catch
    (call (execCommand "copy") ;;;
     let successful := execCommand_returns in
     let msg := if successful then "successful"%string else "unsuccessful"%string in
     call (console_log (String.append "Fallback: Copying text command was " msg)))
    (call (console_error "Fallback: Oops, unable to copy")) ;;;
  call removeChild.


End Document.

End Clipboard.

(** ** mxDefaultToolbar *)

Module mxDefaultToolbar.

(** A cell with the cell it lies in: [model.getParent(cell)] is
    [cell_parent].  The cells of a graph model form a tree, so a cell has
    finitely many ancestors. *)
#[warnings="-register-all"]
Inductive mxCell : Type := mkCell {
  cell_id : nat;
  cell_parent : option mxCell
}.

(** A mouse event, as far as [mxEvent.getClientX] and [getClientY] read it,
    where [mxEvent] is bound; [event_id] tells events apart. *)
Record MouseEvent : Type := mkMouseEvent {
  event_id : nat;
  clientX : R;
  clientY : R
}.

(** The constants [mxEvent.SELECT], [mxEvent.DOUBLE_CLICK] and
    [mxEvent.ESCAPE], where [mxEvent] is bound; the file does not show their
    values. *)
Inductive mxEventName : Type := SELECT | DOUBLE_CLICK | ESCAPE.

(** The calls that change the graph, its model, the editor or the inner
    toolbar, or that make a cell or a toolbar.  [setGeometry] is
    [vertex.setGeometry(g)] with the bound of [g]; [setRelativeGeometry] is
    [model.setGeometry] with a new geometry whose [relative] is true;
    [new_mxToolbar] is [new mxToolbar(container)]; [set_insertFunction] is
    the assignment to [editor.insertFunction], and [funct_apply] is
    [funct.apply(this, [container])]. *)
Inductive Call : Type :=
| splitEdge (target : option mxCell) (vertex : mxCell) (px py : R)
| addVertex (target : option mxCell) (vertex : mxCell) (px py : R)
| beginUpdate
| endUpdate
| setGeometry (vertex : mxCell) (g : mxRectangle)
| addCell (vertex : mxCell) (parent : option mxCell)
| constrainChild (vertex : mxCell)
| createEdge (source vertex : mxCell)
| setRelativeGeometry (edge : mxCell)
| addEdge (edge : mxCell) (parent : option mxCell) (source vertex : mxCell)
| setSelectionCells (cells : list mxCell)
| scrollCellToVisible (vertex : mxCell)
| graph_removeListener (name : string) (handler : nat)
| editor_removeListener (name : string) (handler : nat)
| toolbar_destroy (toolbar : nat)
| new_mxToolbar (container : nat)
| toolbar_addListener (toolbar : nat) (name : mxEventName)
| graph_addListener (name : mxEventName) (handler : nat)
| editor_addListener (name : mxEventName) (handler : nat)
| toolbar_resetMode (toolbar : nat) (forced : bool)
| set_insertFunction (funct : option nat)
| funct_apply (funct container : nat).

(** The editor with its graph and the model of the graph: what their
    queries answer.  [createdEdge] is the cell that [editor.createEdge]
    returns. *)
Record mxEditor : Type := mkEditor {
  isEdge : mxCell -> bool;
  isCellConnectable : mxCell -> bool;
  isValidDropTarget : mxCell -> mxCell -> MouseEvent -> bool;
  canImportCell : mxCell -> bool;
  isSplitEnabled : bool;
  isSplitTarget : option mxCell -> mxCell -> MouseEvent -> bool;
  isEdgeValid : mxCell -> mxCell -> bool;
  getGeometry : mxCell -> option mxRectangle;
  getDirectedEdgeCount : mxCell -> nat;
  gridSize : R;
  convertPoint : R -> R -> R * R;
  horizontalFlow : bool;
  createdEdge : mxCell -> mxCell -> mxCell
}.

(** The fields of the toolbar.  The inner [mxToolbar] and the reset handler
    are references. *)
Record Toolbar : Type := mkToolbar {
  editor : option mxEditor;
  toolbar : option nat;
  resetHandler : option nat;
  spacing : R;
  connectOnDrop : bool
}.


(** A toolbar with the editor [ed] that was not initialised. *)
Definition newToolbar (ed : option mxEditor) : Toolbar :=
  mkToolbar ed None None 4 false.

(** A method: from the toolbar to the toolbar it leaves, the calls it
    made, in order, and what it returned, [None] when it threw. *)
Definition Method (A : Type) : Type := Toolbar -> Toolbar * (list Call * option A).

Definition ret {A} (a : A) : Method A := fun this => (this, ([], Some a)).

Definition throw {A} : Method A := fun this => (this, ([], None)).

Definition bind {A B} (m : Method A) (f : A -> Method B) : Method B :=
  fun this =>
    match m this with
    | (this, (cs, Some a)) =>
        let '(this, (cs', b)) := f a this in (this, (cs ++ cs', b))
    | (this, (cs, None)) => (this, (cs, None))
    end.

(** [try { m } finally { fin }] *)
Definition finally {A} (m : Method A) (fin : Method unit) : Method A :=
  fun this =>
    let '(this, (cs, a)) := m this in
    let '(this, (cs', done)) := fin this in
    (this, (cs ++ cs', match done with Some _ => a | None => None end)).

(** The value of a field of [this]. *)
Definition field {A} (f : Toolbar -> A) : Method A :=
  fun this => (this, ([], Some (f this))).

(** An assignment to a field of [this]. *)
Definition assign (f : Toolbar -> Toolbar) : Method unit :=
  fun this => (f this, ([], Some tt)).

(** Reading a property of [v] throws a TypeError when [v] is null. *)
Definition nonNull {A} (v : option A) : Method A :=
  match v with Some a => ret a | None => throw end.

Definition calls {A} (r : Toolbar * (list Call * option A)) : list Call := fst (snd r).

Definition result {A} (r : Toolbar * (list Call * option A)) : option A := snd (snd r).

Notation "x <- m ;; f" := (bind m (fun x => f))
  (at level 61, m at next level, right associativity).
Notation "m ;;; f" := (bind m (fun _ => f))
  (at level 61, right associativity).

Section Methods.

(** Which calls of the collaborators throw, and what the calls that return a
    cell return. *)
Variable throws : Call -> bool.
Variable returned : Call -> option mxCell.

(** Whether the global scope binds the name [mxEvent].  The module imports
    [mxClient], [mxToolbar], [mxGeometry] and [mxUtils] and nothing else
    (lines 328-331), so [mxEvent] is a free name in it: it is bound only
    where a script has defined a global of that name, and it is not bound
    when the module is loaded on its own. *)
Variable mxEvent_defined : bool.

(** The reference of the [mxToolbar] that is made for a container, and of
    the function that [mxUtils.bind] makes for the reset handler. *)
Variable mxToolbar_for : nat -> nat.
Variable bound_resetHandler : nat.

(** A call of a collaborator that returns nothing the toolbar uses. *)
Definition call (c : Call) : Method unit :=
  fun this => (this, ([c], if throws c then None else Some tt)).

(** A call of a collaborator that returns a cell or null. *)
Definition call_returning (c : Call) : Method (option mxCell) :=
  fun this => (this, ([c], if throws c then None else Some (returned c))).

(** An evaluation of the name [mxEvent]: it throws a ReferenceError where
    the name is not bound. *)
Definition mxEvent : Method unit :=
  if mxEvent_defined then ret tt else throw.

(** The function that [init] stores in [editor.insertFunction] for [funct]:
    [() => { funct.apply(this, [container]); this.toolbar.resetMode(); }] *)
Definition insertFunction (funct container : nat) : Method unit :=
  call (funct_apply funct container) ;;;
  toolbar_ <- field toolbar ;;
  t <- nonNull toolbar_ ;;
  call (toolbar_resetMode t false).

(** The listener that [init] gives the inner toolbar, for an event whose
    property [function] is [funct]. *)
Definition selectListener (funct : option nat) : Method unit :=
  editor_ <- field editor ;;
  nonNull editor_ ;;;
  call (set_insertFunction funct).

(** The reset handler:
    [() => { if (this.toolbar != null) { this.toolbar.resetMode(true); } }] *)
Definition resetHandler_function : Method unit :=
  toolbar_ <- field toolbar ;;
  match toolbar_ with
  | Some t => call (toolbar_resetMode t true)
  | None => ret tt
  end.

(** [init(container)].  The callee [this.toolbar.addListener] is evaluated
    before its argument [mxEvent.SELECT], and [this.editor.graph.addListener]
    before [mxEvent.DOUBLE_CLICK]. *)
Definition init (container : option nat) : Method unit :=
  match container with
  | Some c =>
      call (new_mxToolbar c) ;;;
      assign (fun this =>
                mkToolbar (editor this) (Some (mxToolbar_for c)) (resetHandler this)
                  (spacing this) (connectOnDrop this)) ;;;
      toolbar_ <- field toolbar ;;
      t <- nonNull toolbar_ ;;
      mxEvent ;;;
      call (toolbar_addListener t SELECT) ;;;
      assign (fun this =>
                mkToolbar (editor this) (toolbar this) (Some bound_resetHandler)
                  (spacing this) (connectOnDrop this)) ;;;
      editor_ <- field editor ;;
      nonNull editor_ ;;;
      mxEvent ;;;
      call (graph_addListener DOUBLE_CLICK bound_resetHandler) ;;;
      mxEvent ;;;
      call (editor_addListener ESCAPE bound_resetHandler)
  | None => ret tt
  end.

(** [constructor(container, editor)], on the class field initialisers. *)
Definition constructor (container : option nat) (editor_ : option mxEditor)
  : Method unit :=
  assign (fun this =>
            mkToolbar editor_ (toolbar this) (resetHandler this) (spacing this)
              (connectOnDrop this)) ;;;
  match container, editor_ with
  | Some _, Some _ => init container
  | _, _ => ret tt
  end.

(** [insert(vertex, evt, target)] *)
Definition insert (vertex : mxCell) (evt : MouseEvent) (target : option mxCell)
  : Method (option mxCell) :=
  editor_ <- field editor ;;
  graph <- nonNull editor_ ;;
  if canImportCell graph vertex then
    mxEvent ;;;
    let x := clientX evt in
    mxEvent ;;;
    let y := clientY evt in
    let pt := convertPoint graph x y in
    if isSplitEnabled graph && isSplitTarget graph target vertex evt then
      call_returning (splitEdge target vertex (fst pt) (snd pt))
    else
      call_returning (addVertex target vertex (fst pt) (snd pt))
  else ret None.

(** [connect(vertex, evt, source)] *)
Definition connect (vertex : mxCell) (evt : MouseEvent) (source : option mxCell)
  : Method unit :=
  editor_ <- field editor ;;
  graph <- nonNull editor_ ;;
  match source with
  | Some source =>
      if isCellConnectable graph vertex && isEdgeValid graph source vertex then
        call beginUpdate ;;;
        edge <- finally
          (let geo := getGeometry graph source in
           g <- nonNull (getGeometry graph vertex) ;;
           geo <- nonNull geo ;;
           let gx := x geo + (width geo - width g) / 2 in
           let gy := y geo + (height geo - height g) / 2 in
           spacing_ <- field spacing ;;
           let step := spacing_ * gridSize graph in
           let dist := INR (getDirectedEdgeCount graph source) * 20 in
           let g :=
             if horizontalFlow graph
             then Rect (gx + ((width g + width geo) / 2 + step + dist)) gy
                       (width g) (height g)
             else Rect gx (gy + ((height g + height geo) / 2 + step + dist))
                       (width g) (height g) in
           call (setGeometry vertex g) ;;;
           let parent := cell_parent source in
           call (addCell vertex parent) ;;;
           call (constrainChild vertex) ;;;
           call (createEdge source vertex) ;;;
           let edge := createdEdge graph source vertex in
           match getGeometry graph edge with
           | None => call (setRelativeGeometry edge)
           | Some _ => ret tt
           end ;;;
           call (addEdge edge parent source vertex) ;;;
           ret edge)
          (call endUpdate) ;;
        call (setSelectionCells [vertex; edge]) ;;;
        call (scrollCellToVisible vertex)
      else ret tt
  | None => ret tt
  end.

(** The loop of [drop]:
    [while (target != null && !graph.isValidDropTarget(target, [vertex], evt))
       target = model.getParent(target)], from a target that is not null. *)
Fixpoint validTargetFrom (graph : mxEditor) (vertex : mxCell) (evt : MouseEvent)
  (target : mxCell) : option mxCell :=
  if negb (isValidDropTarget graph target vertex evt) then
    match cell_parent target with
    | Some parent => validTargetFrom graph vertex evt parent
    | None => None
    end
  else Some target.

(** [drop(vertex, evt, target)] *)
Definition drop (vertex : mxCell) (evt : MouseEvent) (target : option mxCell)
  : Method unit :=
  editor_ <- field editor ;;
  graph <- nonNull editor_ ;;
  connectOnDrop_ <- field connectOnDrop ;;
  if match target with
     | None => true
     | Some t => isEdge graph t || negb connectOnDrop_
                 || negb (isCellConnectable graph t)
     end
  then
    let target :=
      match target with
      | Some t => validTargetFrom graph vertex evt t
      | None => None
      end in
    insert vertex evt target ;;; ret tt
  else connect vertex evt target.

(** [destroy()] *)
Definition destroy : Method unit :=
  resetHandler_ <- field resetHandler ;;
  match resetHandler_ with
  | Some handler =>
      editor_ <- field editor ;;
      nonNull editor_ ;;;
      call (graph_removeListener "dblclick"%string handler) ;;;
      call (editor_removeListener "escape"%string handler) ;;;
      assign (fun this =>
                mkToolbar (editor this) (toolbar this) None (spacing this)
                  (connectOnDrop this))
  | None => ret tt
  end ;;;
  toolbar_ <- field toolbar ;;
  match toolbar_ with
  | Some t =>
      call (toolbar_destroy t) ;;;
      assign (fun this =>
                mkToolbar (editor this) None (resetHandler this) (spacing this)
                  (connectOnDrop this))
  | None => ret tt
  end.

End Methods.

End mxDefaultToolbar.

(** ** The vocabulary of the properties of [mixInto] *)

(** [Object.defineProperty] with a value cannot define [key] on [o]. *)
Definition locked (o : OrdinaryObject) (key : PropertyKey) : bool :=
  match properties o key with
  | None => negb (extensible o)
  | Some (DataProperty _ w _ c) => negb (c || w)
  | Some (AccessorProperty _ _ _ c) => negb c
  end.

(** The property that defining [key] with the value [v] leaves on an object
    that had [old] under that key. *)
Definition defined (old : option Property) (v : JsValue) : Property :=
  match old with
  | None => DataProperty v true false false
  | Some (DataProperty _ _ e c) => DataProperty v true e c
  | Some (AccessorProperty _ _ e c) => DataProperty v true e c
  end.

(** ** The vocabulary of the properties of the registry *)

(** [register] called on each codec of a list in turn. *)
Definition registerAll (cs : list CodecRegistry.ObjectCodec) (r : CodecRegistry.Registry)
  : CodecRegistry.Registry :=
  fold_left (fun r c => fst (CodecRegistry.register (Some c) r)) cs r.

(** The last codec of [cs] whose name is [n]. *)
Definition lastNamed (n : string) (cs : list CodecRegistry.ObjectCodec)
  : option CodecRegistry.ObjectCodec :=
  find (fun c => String.eqb (CodecRegistry.getName c) n) (rev cs).

(** The name under which [getCodec] looks a name up. *)
Definition resolved (r : CodecRegistry.Registry) (n : string) : string :=
  match CodecRegistry.aliases r n with Some a => a | None => n end.

(** ** The vocabulary of the properties of the toolbar *)

(** A cell and its ancestors, from the cell outwards. *)
Fixpoint cellAndAncestors (c : mxDefaultToolbar.mxCell) : list mxDefaultToolbar.mxCell :=
  c :: match mxDefaultToolbar.cell_parent c with
       | Some p => cellAndAncestors p
       | None => []
       end.

(** [found] is the first valid drop target among [target] and its
    ancestors, null when there is none. *)
Definition nearestValidTarget (graph : mxDefaultToolbar.mxEditor)
  (vertex : mxDefaultToolbar.mxCell) (evt : mxDefaultToolbar.MouseEvent)
  (target found : option mxDefaultToolbar.mxCell) : Prop :=
  let chain := match target with Some t => cellAndAncestors t | None => [] end in
  match found with
  | Some p =>
      exists inner outer,
        chain = inner ++ p :: outer /\
        mxDefaultToolbar.isValidDropTarget graph p vertex evt = true /\
        forall c, In c inner -> mxDefaultToolbar.isValidDropTarget graph c vertex evt = false
  | None =>
      forall c, In c chain -> mxDefaultToolbar.isValidDropTarget graph c vertex evt = false
  end.




(** ** Samples for the helpers, the registry and the toolbar *)

(** An object with a property that is neither writable nor configurable and
    one that is both. *)
Definition sampleProto : OrdinaryObject :=
  mkObject
    (fun k =>
       if PropertyKey_eqb k (KeyString "fixed")
       then Some (DataProperty (JsNumber 1) false true false)
       else if PropertyKey_eqb k (KeyString "name")
            then Some (DataProperty (JsString "old") true true true)
            else None)
    true.

Definition sampleMixin : list (PropertyKey * JsValue) :=
  [(KeyString "name", JsString "new"); (KeyString "run", JsObject 1)].

(** A codec whose name is not the class name of its template, and one whose
    name is that class name. *)
Definition codecA : CodecRegistry.ObjectCodec :=
  CodecRegistry.mkObjectCodec 1 "mxCell" "Cell".
Definition codecB : CodecRegistry.ObjectCodec :=
  CodecRegistry.mkObjectCodec 2 "Cell" "Cell".

(** A constructor that gives a codec of its name, and one that throws. *)
Definition ctorPoint : CodecRegistry.ConstructorType :=
  CodecRegistry.mkConstructorType "Point"
    (Some (CodecRegistry.mkObjectCodec 3 "Point" "Point")).
Definition ctorBad : CodecRegistry.ConstructorType :=
  CodecRegistry.mkConstructorType "Bad" None.

(** A layer, a group in it, a cell in the group, and a new vertex. *)
Definition cellLayer : mxDefaultToolbar.mxCell := mxDefaultToolbar.mkCell 0 None.
Definition cellGroup : mxDefaultToolbar.mxCell :=
  mxDefaultToolbar.mkCell 1 (Some cellLayer).
Definition cellTarget : mxDefaultToolbar.mxCell :=
  mxDefaultToolbar.mkCell 2 (Some cellGroup).
Definition cellNew : mxDefaultToolbar.mxCell := mxDefaultToolbar.mkCell 9 None.

(** An editor with horizontal flow whose graph takes drops into the group
    only; the target is 80 by 30 at the origin, the new vertex 40 by 20, and
    the layer has no geometry. *)
Definition sampleEditor : mxDefaultToolbar.mxEditor :=
  mxDefaultToolbar.mkEditor
    (fun _ => false) (fun _ => true)
    (fun t _ _ => Nat.eqb (mxDefaultToolbar.cell_id t) 1)
    (fun _ => true) false (fun _ _ _ => false) (fun _ _ => true)
    (fun c =>
       if Nat.eqb (mxDefaultToolbar.cell_id c) 2 then Some (Rect 0 0 80 30)
       else if Nat.eqb (mxDefaultToolbar.cell_id c) 9 then Some (Rect 0 0 40 20)
            else None)
    (fun _ => 1%nat) 10 (fun px py => (px, py)) true
    (fun _ _ => mxDefaultToolbar.mkCell 10 None).

(** The toolbar that [new mxDefaultToolbar(null, editor)] makes, and one
    with [connectOnDrop] set, an inner toolbar and a reset handler. *)
Definition sampleToolbar : mxDefaultToolbar.Toolbar :=
  mxDefaultToolbar.newToolbar (Some sampleEditor).
Definition connectingToolbar : mxDefaultToolbar.Toolbar :=
  mxDefaultToolbar.mkToolbar (Some sampleEditor) (Some 1%nat) (Some 2%nat) 4 true.

Definition sampleEvent : mxDefaultToolbar.MouseEvent :=
  mxDefaultToolbar.mkMouseEvent 0 5 7.

Definition neverThrows : mxDefaultToolbar.Call -> bool := fun _ => false.
Definition returnsNull : mxDefaultToolbar.Call -> option mxDefaultToolbar.mxCell :=
  fun _ => None.

(** A document in which [document.execCommand] throws and nothing else
    does, and one in which nothing throws. *)
Definition execCommandThrows (c : Clipboard.DomCall) : bool :=
  match c with
  | Clipboard.execCommand _ => true
  | _ => false
  end.

(** * Properties *)

(** ** Unfolding calcRowDims *)

(** The recursion of lines 270-317, as one equation. *)
Lemma calcRowDims_step row_ rowNum s :
  calcRowDims row_ rowNum s =
  match row_ with
  | [] => s
  | _ :: _ =>
      let '(s', rowHasChildren) := calcRowDims_body row_ rowNum s in
      if rowHasChildren
      then calcRowDims (map Some (row_get (row s') rowNum)) (S rowNum) s'
      else s'
  end.
Proof.
  destruct row_ as [| r rs]; simp calcRowDims; [reflexivity |].
  generalize (inspect (calcRowDims_body (r :: rs) rowNum s)).
  intros [[s' [|]] e]; simp calcRowDims; rewrite e; reflexivity.
Qed.

(** An induction principle that follows the calls of calcRowDims. *)
Lemma calcRowDims_induction (P : list (option TreeNode) -> nat -> Layout -> Layout -> Prop) :
  (forall rowNum s, P [] rowNum s s) ->
  (forall row_ rowNum s s',
      row_ <> [] -> calcRowDims_body row_ rowNum s = (s', false) ->
      P row_ rowNum s s') ->
  (forall row_ rowNum s s',
      row_ <> [] -> calcRowDims_body row_ rowNum s = (s', true) ->
      P (map Some (childrenOf row_)) (S rowNum) s'
        (calcRowDims (map Some (childrenOf row_)) (S rowNum) s') ->
      P row_ rowNum s (calcRowDims (map Some (childrenOf row_)) (S rowNum) s')) ->
  forall row_ rowNum s, P row_ rowNum s (calcRowDims row_ rowNum s).
Proof.
  intros Hnil Hstop Hrec row_.
  remember (rows_below row_) as k eqn:Hk.
  revert row_ Hk. induction k as [k IH] using lt_wf_ind. intros row_ Hk rowNum s.
  rewrite calcRowDims_step. destruct row_ as [| r rs]; [apply Hnil |].
  destruct (calcRowDims_body (r :: rs) rowNum s) as [s' has] eqn:E.
  pose proof (calcRowDims_body_row (r :: rs) rowNum s) as Hrow.
  pose proof (calcRowDims_body_flag (r :: rs) rowNum s) as Hflag.
  rewrite E in Hrow, Hflag. cbn [fst snd] in Hrow, Hflag.
  destruct has.
  - rewrite Hrow. apply Hrec; [discriminate | exact E |].
    eapply IH; [| reflexivity]. subst k. apply rows_below_children.
    intros E'. rewrite E' in Hflag. discriminate.
  - apply Hstop; [discriminate | exact E].
Qed.

(** ** The instance options *)

Lemma fold_left_commute {S T} (g : S -> S) (f : S -> T -> S) l s :
  (forall s t, f (g s) t = g (f s t)) ->
  fold_left f l (g s) = g (fold_left f l s).
Proof.
  intros H. revert s. induction l as [| t l IH]; intros s; cbn [fold_left].
  - reflexivity.
  - rewrite H. apply IH.
Qed.

Section AngleOffset.
Variable a : R.

Local Abbreviation lift := (on_state (set_angleOffset a)).

Lemma visitChild_angleOffset rowNum p ch :
  visitChild rowNum (lift p) ch = lift (visitChild rowNum p ch).
Proof. destruct p as [s b]. reflexivity. Qed.

Lemma calcRowDims_body_angleOffset row_ rowNum s :
  calcRowDims_body row_ rowNum (set_angleOffset a s)
  = lift (calcRowDims_body row_ rowNum s).
Proof.
  unfold calcRowDims_body. cbv zeta.
  match goal with
  | |- fold_left _ _ (?s0, false) = lift (fold_left _ _ (?s1, false)) =>
      change (s0, false) with (lift (s1, false))
  end.
  apply (fold_left_commute lift). intros p r.
  apply (fold_left_commute lift). intros q ch. apply visitChild_angleOffset.
Qed.

Lemma calcRowDims_angleOffset row_ rowNum s :
  calcRowDims row_ rowNum (set_angleOffset a s)
  = set_angleOffset a (calcRowDims row_ rowNum s).
Proof.
  pattern row_, rowNum, s, (calcRowDims row_ rowNum s).
  apply calcRowDims_induction; clear row_ rowNum s.
  - intros rowNum s. now rewrite calcRowDims_step.
  - intros row_ rowNum s s' Hne E. rewrite calcRowDims_step.
    destruct row_; [congruence |].
    rewrite calcRowDims_body_angleOffset, E. reflexivity.
  - intros row_ rowNum s s' Hne E IH. rewrite calcRowDims_step.
    destruct row_ as [| r rs]; [congruence |].
    rewrite calcRowDims_body_angleOffset, E. cbn [on_state fst snd].
    pose proof (calcRowDims_body_row (r :: rs) rowNum s) as Hrow.
    rewrite E in Hrow. cbn [fst] in Hrow.
    cbn [row set_angleOffset]. rewrite Hrow. exact IH.
Qed.

Lemma steepestGradients_angleOffset s :
  steepestGradients (set_angleOffset a s) = steepestGradients s.
Proof. reflexivity. Qed.

Lemma assignTheta_angleOffset l r s :
  assignTheta l r (set_angleOffset a s) = set_angleOffset a (assignTheta l r s).
Proof.
  unfold assignTheta. cbn [row set_angleOffset].
  apply (fold_left_commute (set_angleOffset a)). intros s' i.
  cbn [row set_angleOffset].
  apply (fold_left_commute (set_angleOffset a)). reflexivity.
Qed.

Lemma reconcileNode_angleOffset i s j :
  reconcileNode i (set_angleOffset a s) j = set_angleOffset a (reconcileNode i s j).
Proof.
  unfold reconcileNode. cbn [row set_angleOffset].
  destruct (nth_error (row_get (row s) i) j) as [n |]; [| reflexivity].
  change (childrenTheta (set_angleOffset a s) n) with (childrenTheta s n).
  destruct (childrenTheta s n) as [totalTheta counter].
  cbn [theta set_angleOffset].
  repeat match goal with |- context [if ?c then _ else _] => destruct c end;
    reflexivity.
Qed.

Lemma reconcile_angleOffset s :
  reconcile (set_angleOffset a s) = set_angleOffset a (reconcile s).
Proof.
  unfold reconcile. cbn [row set_angleOffset].
  apply (fold_left_commute (set_angleOffset a)). intros s' i.
  unfold reconcileRow. cbn [row set_angleOffset].
  apply (fold_left_commute (set_angleOffset a)). intros s'' j.
  apply reconcileNode_angleOffset.
Qed.

Lemma setLocations_angleOffset s :
  setLocations (set_angleOffset a s) = set_angleOffset a (setLocations s).
Proof.
  unfold setLocations. cbn [row set_angleOffset].
  apply (fold_left_commute (set_angleOffset a)). intros s' i.
  cbn [row set_angleOffset].
  apply (fold_left_commute (set_angleOffset a)). reflexivity.
Qed.

Lemma execute_radial_angleOffset s :
  execute_radial (set_angleOffset a s) = set_angleOffset a (execute_radial s).
Proof.
  unfold execute_radial. cbv zeta.
  change (execute_center (set_angleOffset a s))
    with (set_angleOffset a (execute_center s)).
  change (node (set_angleOffset a (execute_center s))) with (node (execute_center s)).
  rewrite calcRowDims_angleOffset, steepestGradients_angleOffset.
  destruct (steepestGradients _) as [l r].
  now rewrite assignTheta_angleOffset, reconcile_angleOffset, setLocations_angleOffset.
Qed.

Lemma execute_angleOffset compact parent_ root_ s :
  execute compact parent_ root_ (set_angleOffset a s)
  = set_angleOffset a (execute compact parent_ root_ s).
Proof.
  unfold execute. cbv zeta.
  change (super_execute compact parent_ root_ (execute_prologue parent_ (set_angleOffset a s)))
    with (set_angleOffset a (super_execute compact parent_ root_ (execute_prologue parent_ s))).
  apply execute_radial_angleOffset.
Qed.

End AngleOffset.

(** C8: for every graph and every two values of angleOffset, execute yields
    the same vertex bounds and the same angles: the option is never read. *)
Theorem angleOffset_noninterference compact parent_ root_ s a1 a2 :
  let s1 := execute compact parent_ root_ (set_angleOffset a1 s) in
  let s2 := execute compact parent_ root_ (set_angleOffset a2 s) in
  geometry s1 = geometry s2 /\ theta s1 = theta s2 /\
  s1 = set_angleOffset a1 (execute compact parent_ root_ s).
Proof.
  cbv zeta. rewrite !execute_angleOffset.
  generalize (execute compact parent_ root_ s). intros s'.
  split; [reflexivity | split; reflexivity].
Qed.

(** C9: whatever the caller stored in useBoundingBox and edgeRouting, the
    instance that execute hands to the base compact tree layout has both set
    to false, and the whole run does not depend on the stored values. *)
Theorem execute_discards_useBoundingBox_edgeRouting compact parent_ root_ s u e :
  useBoundingBox (execute_prologue parent_ s) = false /\
  edgeRouting (execute_prologue parent_ s) = false /\
  execute compact parent_ root_ s
  = execute_radial (super_execute compact parent_ root_ (execute_prologue parent_ s)) /\
  execute_prologue parent_ (set_useBoundingBox u (set_edgeRouting e s))
  = execute_prologue parent_ s /\
  execute compact parent_ root_ (set_useBoundingBox u (set_edgeRouting e s))
  = execute compact parent_ root_ s.
Proof.
  assert (Hp : execute_prologue parent_ (set_useBoundingBox u (set_edgeRouting e s))
               = execute_prologue parent_ s) by reflexivity.
  split; [reflexivity |]. split; [reflexivity |].
  split; [unfold execute; reflexivity |]. split; [exact Hp |].
  unfold execute. cbv zeta. now rewrite Hp.
Qed.

(** ** Reconciliation: what it may change *)

Lemma fold_left_invariant {S T} (P : S -> Prop) (f : S -> T -> S) l s :
  (forall s t, In t l -> P s -> P (f s t)) -> P s -> P (fold_left f l s).
Proof.
  revert s. induction l as [| t l IH]; intros s H H0; cbn [fold_left].
  - exact H0.
  - apply IH.
    + intros s' t' Hin. apply H. now right.
    + apply H; [now left | exact H0].
Qed.

Lemma childrenTheta_counter s n :
  snd (childrenTheta s n) = length (chain (child n)).
Proof.
  unfold childrenTheta.
  enough (H : forall l t c,
             snd (fold_left
                    (fun '(totalTheta, counter) ch =>
                       (totalTheta + theta s (id ch), S counter)) l (t, c))
             = (c + length l)%nat) by (rewrite H; reflexivity).
  induction l as [| ch l IH]; intros t c; cbn [fold_left length].
  - cbn. lia.
  - rewrite IH. lia.
Qed.

Lemma chain_nonempty_child (n : TreeNode) :
  (0 < length (chain (child n)))%nat -> child n <> None.
Proof. destruct (child n); [discriminate | cbn; lia]. Qed.

(** One step of the inner loop either leaves the instance alone or writes
    the angle of [row[j]], and it writes only when that node has a child. *)
Lemma reconcileNode_cases i s j :
  reconcileNode i s j = s \/
  exists n v, nth_error (row_get (row s) i) j = Some n /\ child n <> None /\
              reconcileNode i s j = setTheta n v s.
Proof.
  unfold reconcileNode.
  destruct (nth_error (row_get (row s) i) j) as [n |] eqn:En; [| now left].
  pose proof (childrenTheta_counter s n) as Hc.
  destruct (childrenTheta s n) as [totalTheta counter]. cbn [snd] in Hc.
  destruct (0 <? counter)%nat eqn:Hpos; [| now left].
  apply Nat.ltb_lt in Hpos. rewrite Hc in Hpos. apply chain_nonempty_child in Hpos.
  destruct (_ && _)%bool; [right; eauto |].
  destruct (_ && _)%bool; [right; eauto | now left].
Qed.

Lemma reconcileNode_row i s j : row (reconcileNode i s j) = row s.
Proof.
  destruct (reconcileNode_cases i s j) as [-> | (n & v & _ & _ & ->)]; reflexivity.
Qed.

Lemma reconcileRow_row s i : row (reconcileRow s i) = row s.
Proof.
  unfold reconcileRow.
  apply (fold_left_invariant (fun s' => row s' = row s)); [| reflexivity].
  intros s' j _ H. now rewrite reconcileNode_row.
Qed.

Lemma reconcile_row s : row (reconcile s) = row s.
Proof.
  unfold reconcile.
  apply (fold_left_invariant (fun s' => row s' = row s)); [| reflexivity].
  intros s' j _ H. now rewrite reconcileRow_row.
Qed.

Lemma reconcile_changes s k :
  theta (reconcile s) k <> theta s k -> reconcilable s k.
Proof.
  set (P := fun s' : Layout =>
              row s' = row s /\ (theta s' k <> theta s k -> reconcilable s k)).
  enough (HP : P (reconcile s)) by apply HP.
  unfold reconcile. apply fold_left_invariant; [| split; [reflexivity | congruence]].
  intros s1 i Hi [Hrow1 Hth1]. unfold reconcileRow.
  apply fold_left_invariant; [| now split].
  intros s2 j _ [Hrow2 Hth2].
  destruct (reconcileNode_cases i s2 j) as [-> | (n & v & En & Hch & ->)]; [now split |].
  split; [exact Hrow2 |]. cbn [theta setTheta set_theta].
  destruct (Nat.eqb k (id n)) eqn:Ek; [| exact Hth2].
  intros _. apply Nat.eqb_eq in Ek. exists i, n.
  rewrite <- in_rev, in_seq in Hi. rewrite Hrow2 in En.
  repeat split; [lia | eapply nth_error_In; eauto | congruence | exact Hch].
Qed.

Lemma NoDup_app_disjoint {A} (l1 l2 : list A) a :
  NoDup (l1 ++ l2) -> In a l1 -> In a l2 -> False.
Proof.
  induction l1 as [| b l1 IH]; cbn; intros H H1 H2; [contradiction |].
  inversion H as [| ? ? Hnotin Hnd]; subst. destruct H1 as [-> | H1].
  - apply Hnotin, in_or_app. now right.
  - now apply IH.
Qed.

Lemma distinct_same_row (ls : list (list TreeNode)) i i' n n' :
  NoDup (map id (concat ls)) ->
  In n (nth i ls []) -> In n' (nth i' ls []) -> id n = id n' -> i = i'.
Proof.
  revert i i'. induction ls as [| l ls IH]; intros i i' Hnd Hn Hn' E.
  - destruct i; contradiction.
  - cbn [concat] in Hnd. rewrite map_app in Hnd.
    assert (Hin : forall k m, In m (nth k ls []) -> In (id m) (map id (concat ls))).
    { intros k m Hm. apply in_map, in_concat. exists (nth k ls []). split; [| exact Hm].
      destruct (Nat.lt_ge_cases k (length ls)) as [Hk | Hk]; [now apply nth_In |].
      rewrite nth_overflow in Hm by exact Hk. contradiction. }
    destruct i as [| i], i' as [| i']; cbn [nth] in Hn, Hn'.
    + reflexivity.
    + exfalso. apply (NoDup_app_disjoint _ _ (id n) Hnd); [now apply in_map |].
      rewrite E. eapply Hin; eauto.
    + exfalso. apply (NoDup_app_disjoint _ _ (id n') Hnd); [now apply in_map |].
      rewrite <- E. eapply Hin; eauto.
    + f_equal. apply IH; auto. eapply NoDup_app_remove_l; eauto.
Qed.

Lemma distinct_same_node (l : list TreeNode) n n' :
  NoDup (map id l) -> In n l -> In n' l -> id n = id n' -> n = n'.
Proof.
  induction l as [| m l IH]; cbn; intros Hnd Hn Hn' E; [contradiction |].
  inversion Hnd as [| ? ? Hnotin Hnd']; subst.
  destruct Hn as [-> | Hn], Hn' as [-> | Hn'].
  - reflexivity.
  - exfalso. apply Hnotin. rewrite E. now apply in_map.
  - exfalso. apply Hnotin. rewrite <- E. now apply in_map.
  - now apply IH.
Qed.

Lemma row_get_concat (ls : list (list TreeNode)) i n :
  In n (row_get ls i) -> In n (concat ls).
Proof.
  unfold row_get. intros Hn. apply in_concat. exists (nth i ls []). split; [| exact Hn].
  destruct (Nat.lt_ge_cases i (length ls)) as [Hk | Hk]; [now apply nth_In |].
  rewrite nth_overflow in Hn by exact Hk. contradiction.
Qed.

(** A leaf, and a node of the outermost row, keeps its angle. *)
Lemma reconcile_unchanged s i n :
  distinctNodes s ->
  In n (row_get (row s) i) ->
  child n = None \/ (length (row s) <= i + 1)%nat ->
  theta (reconcile s) (id n) = theta s (id n).
Proof.
  intros Hnd Hn Hleaf.
  destruct (Req_dec (theta (reconcile s) (id n)) (theta s (id n))) as [E | Hneq];
    [exact E | exfalso].
  apply reconcile_changes in Hneq. destruct Hneq as (i' & n' & Hi' & Hn' & Eid & Hch).
  assert (i' = i) as ->
      by (eapply (distinct_same_row (row s)); [exact Hnd | exact Hn' | exact Hn | exact Eid]).
  assert (n' = n) as ->.
  { eapply distinct_same_node; [exact Hnd | | | exact Eid];
      eapply row_get_concat; eauto. }
  destruct Hleaf as [Hnone | Hlast]; [congruence | lia].
Qed.

(** ** Row dimensions: what one invocation of calcRowDims computes *)

Lemma arr_set_twice {A} (d : A) i v w (l : list A) :
  arr_set d i v (arr_set d i w l) = arr_set d i v l.
Proof.
  assert (Hsplit : exists P, length P = i /\
            forall u, arr_set d i u l = P ++ u :: skipn (S i) l).
  { exists (firstn i l ++ repeat d (i - length l)). split.
    - rewrite length_app, repeat_length, length_firstn. lia.
    - intros u. unfold arr_set. now rewrite <- app_assoc. }
  destruct Hsplit as (P & HP & Hset). rewrite (Hset w), (Hset v).
  unfold arr_set.
  rewrite firstn_app, skipn_app, length_app, HP. cbn [length].
  rewrite (@firstn_all2 _ i P) by lia.
  rewrite (@skipn_all2 _ (S i) P) by lia.
  replace (i - i)%nat with 0%nat by lia.
  replace (S i - i)%nat with 1%nat by lia.
  replace (i - (i + S (length (skipn (S i) l))))%nat with 0%nat by lia.
  cbn [firstn skipn repeat app]. now rewrite app_nil_r.
Qed.

Ltac layout_fields :=
  cbn [parent useBoundingBox edgeRouting root node angleOffset nodeDistance centerX
       centerY rowMinX rowMaxX rowMinCenX rowMaxCenX rowRadi row geometry theta
       set_parent set_useBoundingBox set_edgeRouting set_root set_node
       set_angleOffset set_centerX set_centerY set_rowMinX set_rowMaxX
       set_rowMinCenX set_rowMaxCenX set_rowRadi set_row set_geometry set_theta
       getVertexBounds fst snd] in *.

Lemma visitChild_fold_closed rowNum l :
  forall s b c1 c2 c3 c4 r a1 a2 a3 a4 rw,
    rowMinX s = num_set rowNum c1 a1 ->
    rowMaxX s = num_set rowNum c2 a2 ->
    rowMinCenX s = num_set rowNum c3 a3 ->
    rowMaxCenX s = num_set rowNum c4 a4 ->
    row s = row_set rowNum r rw ->
    fst (fold_left (visitChild rowNum) l (s, b)) =
    mkLayout (parent s) (useBoundingBox s) (edgeRouting s) (root s) (node s)
      (angleOffset s) (nodeDistance s) (centerX s) (centerY s)
      (num_set rowNum (rowMin x (geometry s) c1 l) a1)
      (num_set rowNum (rowMax rightEdge (geometry s) c2 l) a2)
      (num_set rowNum (rowMin centreX (geometry s) c3 l) a3)
      (num_set rowNum (rowMax centreX (geometry s) c4 l) a4)
      (radiFold rowNum (geometry s) (root s) l (rowRadi s))
      (row_set rowNum (r ++ l) rw) (geometry s) (theta s).
Proof.
  induction l as [| ch l IH]; intros s b c1 c2 c3 c4 r a1 a2 a3 a4 rw H1 H2 H3 H4 Hr.
  - cbn [fold_left fst rowMin rowMax radiFold]. rewrite app_nil_r.
    destruct s. layout_fields. now subst.
  - cbn [fold_left]. unfold visitChild at 2. cbv beta iota zeta.
    set (vb := geometry s (cell ch)).
    rewrite (IH _ _ (Rmin (x vb) c1) (Rmax (rightEdge vb) c2) (Rmin (centreX vb) c3)
               (Rmax (centreX vb) c4) (r ++ [ch]) a1 a2 a3 a4 rw);
      subst vb; layout_fields.
    + unfold rowMin, rowMax, radiFold, rightEdge, centreX. cbn [fold_left].
      rewrite <- app_assoc. reflexivity.
    + rewrite H1. unfold num_set. rewrite arr_set_twice. f_equal.
      unfold num_get, num_set. now rewrite nth_arr_set_eq.
    + rewrite H2. unfold num_set. rewrite arr_set_twice. f_equal.
      unfold num_get, num_set. now rewrite nth_arr_set_eq.
    + rewrite H3. unfold num_set. rewrite arr_set_twice. f_equal.
      unfold num_get, num_set. now rewrite nth_arr_set_eq.
    + rewrite H4. unfold num_set. rewrite arr_set_twice. f_equal.
      unfold num_get, num_set. now rewrite nth_arr_set_eq.
    + rewrite Hr. unfold row_set. rewrite arr_set_twice. f_equal.
      unfold row_get. now rewrite nth_arr_set_eq.
Qed.

(** The instance after one invocation of calcRowDims on a non-empty row. *)
Lemma calcRowDims_body_closed row_ rowNum s :
  fst (calcRowDims_body row_ rowNum s) =
  mkLayout (parent s) (useBoundingBox s) (edgeRouting s) (root s) (node s)
    (angleOffset s) (nodeDistance s) (centerX s) (centerY s)
    (num_set rowNum (rowMin x (geometry s) (centerX s) (childrenOf row_)) (rowMinX s))
    (num_set rowNum (rowMax rightEdge (geometry s) (centerX s) (childrenOf row_))
       (rowMaxX s))
    (num_set rowNum (rowMin centreX (geometry s) (centerX s) (childrenOf row_))
       (rowMinCenX s))
    (num_set rowNum (rowMax centreX (geometry s) (centerX s) (childrenOf row_))
       (rowMaxCenX s))
    (radiFold rowNum (geometry s) (root s) (childrenOf row_) (rowRadi s))
    (row_set rowNum (childrenOf row_) (row s)) (geometry s) (theta s).
Proof.
  unfold calcRowDims_body. cbv zeta. rewrite fold_left_children.
  rewrite (visitChild_fold_closed rowNum (childrenOf row_) _ false
             (centerX s) (centerX s) (centerX s) (centerX s) []
             (rowMinX s) (rowMaxX s) (rowMinCenX s) (rowMaxCenX s) (row s));
    layout_fields; reflexivity.
Qed.

(** ** The rows of a tree *)

Lemma levels_pos n : (1 <= levels n)%nat.
Proof. destruct n. cbn [levels]. lia. Qed.

Lemma olevels_chain o :
  olevels o = list_max (map (fun m => S (olevels (child m))) (chain o)).
Proof.
  destruct o as [n |]; [| reflexivity]. cbn [olevels chain].
  induction n as [i c ch nx _ IHnx] using TreeNode_induction.
  cbn [levels siblings map list_max child].
  destruct nx as [k |]; [rewrite (IHnx k eq_refl) | cbn]; reflexivity.
Qed.

Lemma rows_below_childrenOf row_ :
  rows_below row_ = list_max (map (fun m => S (olevels (child m))) (childrenOf row_)).
Proof.
  unfold rows_below, childrenOf.
  induction row_ as [| r rs IH]; [reflexivity |].
  cbn [map concat list_max]. rewrite map_app, list_max_app, <- IH.
  now rewrite olevels_chain.
Qed.

Lemma list_max_map_S {A} (f : A -> nat) (l : list A) :
  l <> [] -> list_max (map (fun m => S (f m)) l) = S (list_max (map f l)).
Proof.
  induction l as [| a l IH]; [congruence |]. intros _.
  cbn [map]. change (list_max (?h :: ?t)) with (Nat.max h (list_max t)).
  destruct l as [| b l]; [cbn; lia |].
  rewrite IH by discriminate. lia.
Qed.

Lemma rows_below_succ row_ :
  childrenOf row_ <> [] ->
  rows_below row_ = S (rows_below (map Some (childrenOf row_))).
Proof.
  intros Hne. rewrite rows_below_childrenOf, list_max_map_S by exact Hne.
  unfold rows_below. now rewrite map_map.
Qed.

Lemma rows_below_leaves row_ :
  childrenOf row_ = [] -> rows_below row_ = 0%nat.
Proof. intros E. now rewrite rows_below_childrenOf, E. Qed.

Lemma existsb_hasChild_rows (l : list TreeNode) :
  existsb hasChild l = true <-> (1 <= rows_below (map Some l))%nat.
Proof.
  unfold rows_below. rewrite map_map. cbn [childOf].
  induction l as [| m l IH]; cbn [existsb map].
  - cbn. split; [discriminate | lia].
  - change (list_max (?h :: ?t)) with (Nat.max h (list_max t)).
    rewrite orb_true_iff, IH. unfold hasChild.
    destruct (child m) as [k |]; cbn [olevels].
    + pose proof (levels_pos k). split; [lia | now left].
    + split; [intros [H | H]; [discriminate | lia] | intros H; right; lia].
Qed.

(** When an invocation recurses, one more row than below is written. *)
Lemma rowCount_recurse row_ :
  existsb hasChild (childrenOf row_) = true ->
  row_ <> [] /\ childrenOf row_ <> [] /\
  rowCount row_ = S (rowCount (map Some (childrenOf row_))).
Proof.
  intros H. assert (Hne : childrenOf row_ <> []) by (intros E; now rewrite E in H).
  apply existsb_hasChild_rows in H.
  assert (Hrow : row_ <> []) by (intros ->; now apply Hne).
  split; [exact Hrow |]. split; [exact Hne |].
  unfold rowCount. destruct row_ as [| r rs]; [congruence |].
  rewrite (rows_below_succ _ Hne).
  destruct (childrenOf (r :: rs)) as [| m l]; [congruence |].
  cbn [map] in *. cbv beta iota. lia.
Qed.

(** When an invocation does not recurse, it is the only one. *)
Lemma rowCount_stop row_ :
  row_ <> [] -> existsb hasChild (childrenOf row_) = false -> rowCount row_ = 1%nat.
Proof.
  intros Hrow H. unfold rowCount. destruct row_ as [| r rs]; [congruence |].
  destruct (Nat.le_gt_cases (rows_below (r :: rs)) 1) as [Hle | Hgt]; [lia |].
  exfalso. destruct (childrenOf (r :: rs)) as [| m l] eqn:E.
  - rewrite (rows_below_leaves _ E) in Hgt. lia.
  - assert (Hne : childrenOf (r :: rs) <> []) by congruence.
    rewrite (rows_below_succ _ Hne) in Hgt.
    assert (Hex : existsb hasChild (childrenOf (r :: rs)) = true)
      by (apply existsb_hasChild_rows; lia).
    rewrite E in Hex. congruence.
Qed.

(** ** Row dimensions: what calcRowDims computes *)

Lemma sameButRows_refl s : sameButRows s s.
Proof. now destruct s. Qed.

Lemma sameButRows_trans s1 s2 s3 :
  sameButRows s1 s2 -> sameButRows s2 s3 -> sameButRows s1 s3.
Proof.
  unfold sameButRows. intros H12 H23. rewrite H23. rewrite H12 at 1 2 3 4 5 6 7 8 9 10 11.
  reflexivity.
Qed.

Lemma radiFold_get j g rc l a :
  num_get (radiFold j g rc l a) j = lastRadius g rc l (num_get a j).
Proof.
  unfold radiFold, lastRadius. revert a.
  induction l as [| ch l IH]; intros a; cbn [fold_left]; [reflexivity |].
  now rewrite IH, num_get_set_eq.
Qed.

Lemma radiFold_get_neq j i g rc l a :
  j <> i -> num_get (radiFold j g rc l a) i = num_get a i.
Proof.
  intros Hji. unfold radiFold. revert a.
  induction l as [| ch l IH]; intros a; cbn [fold_left]; [reflexivity |].
  now rewrite IH, num_get_set_neq.
Qed.

Lemma calcRowDims_body_frame row_ rowNum s :
  sameButRows s (fst (calcRowDims_body row_ rowNum s)).
Proof. unfold sameButRows. rewrite calcRowDims_body_closed. reflexivity. Qed.

Lemma calcRowDims_body_dims row_ rowNum s :
  dims (fst (calcRowDims_body row_ rowNum s)) rowNum
  = dimsOf s (childrenOf row_) (num_get (rowRadi s) rowNum).
Proof.
  rewrite calcRowDims_body_closed. unfold dims, dimsOf. layout_fields.
  now rewrite !num_get_set_eq, radiFold_get.
Qed.

Lemma calcRowDims_body_other row_ rowNum s j :
  rowNum <> j ->
  dims (fst (calcRowDims_body row_ rowNum s)) j = dims s j /\
  row_get (row (fst (calcRowDims_body row_ rowNum s))) j = row_get (row s) j.
Proof.
  intros Hj. rewrite calcRowDims_body_closed. unfold dims. layout_fields.
  now rewrite !num_get_set_neq, radiFold_get_neq, row_get_set_neq by exact Hj.
Qed.

Lemma calcRowDims_body_length row_ rowNum s :
  length (row (fst (calcRowDims_body row_ rowNum s)))
  = Nat.max (length (row s)) (S rowNum).
Proof.
  rewrite calcRowDims_body_closed. layout_fields. apply length_arr_set.
Qed.

Lemma sameButRows_dimsOf s f l r : sameButRows s f -> dimsOf f l r = dimsOf s l r.
Proof. unfold sameButRows, dimsOf. intros ->. reflexivity. Qed.

Lemma calcRowDims_spec row_ rowNum s :
  RowsWritten row_ rowNum s (calcRowDims row_ rowNum s).
Proof.
  apply calcRowDims_induction; clear row_ rowNum s.
  - intros rowNum s. split; cbn [rowCount].
    + apply sameButRows_refl.
    + reflexivity.
    + now split.
    + intros k Hk. lia.
  - intros row_ rowNum s s' Hne E.
    pose proof (calcRowDims_body_flag row_ rowNum s) as Hflag.
    rewrite E in Hflag. cbn [snd] in Hflag. symmetry in Hflag.
    pose proof (rowCount_stop _ Hne Hflag) as Hcount.
    replace s' with (fst (calcRowDims_body row_ rowNum s)) by now rewrite E.
    split; rewrite ?Hcount.
    + apply calcRowDims_body_frame.
    + rewrite calcRowDims_body_length. f_equal. lia.
    + intros j Hj. apply calcRowDims_body_other. lia.
    + intros k Hk. assert (k = 0%nat) as -> by lia. rewrite Nat.add_0_r.
      split; [apply calcRowDims_body_row | apply calcRowDims_body_dims].
  - intros row_ rowNum s s' Hne E IH.
    pose proof (calcRowDims_body_flag row_ rowNum s) as Hflag.
    rewrite E in Hflag. cbn [snd] in Hflag. symmetry in Hflag.
    destruct (rowCount_recurse _ Hflag) as (_ & Hch & Hcount).
    assert (Hs' : s' = fst (calcRowDims_body row_ rowNum s)) by now rewrite E.
    assert (Hpos : (1 <= rowCount (map Some (childrenOf row_)))%nat).
    { unfold rowCount. destruct (childrenOf row_); [congruence | cbn [map]; lia]. }
    destruct IH as [IHf IHl IHo IHi].
    pose proof (calcRowDims_body_frame row_ rowNum s) as Hframe. rewrite <- Hs' in Hframe.
    split; rewrite ?Hcount.
    + eapply sameButRows_trans; eauto.
    + rewrite IHl. destruct (rowCount (map Some (childrenOf row_))) as [| c]; [lia |].
      rewrite Hs', calcRowDims_body_length. lia.
    + intros j Hj.
      destruct (IHo j) as [Hd Hr]; [lia |]. rewrite Hd, Hr, Hs'.
      apply calcRowDims_body_other. lia.
    + intros k Hk. destruct k as [| k].
      * rewrite Nat.add_0_r. destruct (IHo rowNum) as [Hd Hr]; [lia |].
        rewrite Hd, Hr, Hs'.
        split; [apply calcRowDims_body_row | apply calcRowDims_body_dims].
      * replace (rowNum + S k)%nat with (S rowNum + k)%nat by lia.
        destruct (IHi k) as [Hr Hd]; [lia |]. split; [exact Hr |].
        rewrite Hd. cbn [rowAt]. rewrite (sameButRows_dimsOf _ _ _ _ Hframe). f_equal.
        rewrite Hs'.
        destruct (@calcRowDims_body_other row_ rowNum s (S rowNum + k)%nat)
          as [Hd' _]; [lia |].
        unfold dims in Hd'. now injection Hd'.
Qed.

(** ** Stores: the angles of the nodes and the geometry of the cells *)

Lemma writes_notin {V} (ws : list (nat * V)) st k :
  ~ In k (map fst ws) -> writes ws st k = st k.
Proof.
  unfold writes. revert st. induction ws as [| [k' v] ws IH]; intros st Hk; cbn [fold_left].
  - reflexivity.
  - cbn [map fst] in Hk. rewrite IH by (intros H; apply Hk; now right).
    unfold upd. cbn [fst snd].
    destruct (Nat.eqb_spec k k'); [exfalso; apply Hk; now left | reflexivity].
Qed.

Lemma writes_in {V} (ws : list (nat * V)) st k v :
  NoDup (map fst ws) -> In (k, v) ws -> writes ws st k = v.
Proof.
  unfold writes. revert st. induction ws as [| [k' v'] ws IH]; intros st Hnd Hin.
  - contradiction.
  - cbn [map fst] in Hnd. inversion Hnd as [| ? ? Hnotin Hnd']; subst.
    cbn [fold_left fst snd]. destruct Hin as [E | Hin].
    + injection E as -> ->. fold (writes ws (upd st k v) k).
      rewrite writes_notin by exact Hnotin. unfold upd. now rewrite Nat.eqb_refl.
    + now apply IH.
Qed.

Lemma writes_app {V} (ws1 ws2 : list (nat * V)) st :
  writes (ws1 ++ ws2) st = writes ws2 (writes ws1 st).
Proof. apply fold_left_app. Qed.

Lemma sameButTheta_refl s : sameButTheta s s.
Proof. now destruct s. Qed.

Lemma sameButTheta_trans s1 s2 s3 :
  sameButTheta s1 s2 -> sameButTheta s2 s3 -> sameButTheta s1 s3.
Proof. unfold sameButTheta. intros H12 H23. rewrite H23, H12. reflexivity. Qed.

Lemma sameButTheta_setTheta s s' n v :
  sameButTheta s s' -> sameButTheta s (setTheta n v s').
Proof. unfold sameButTheta. intros H. rewrite H. reflexivity. Qed.

Lemma sameButPositions_refl s : sameButPositions s s.
Proof. split; [now destruct s | now split]. Qed.

Lemma sameButPositions_set s s' c nx ny :
  sameButPositions s s' -> sameButPositions s (setVertexLocation c nx ny s').
Proof.
  intros [H Hsize]. split.
  - rewrite H. reflexivity.
  - intros c'. unfold setVertexLocation. layout_fields.
    destruct (Nat.eqb_spec c' c) as [-> | _]; [cbn [width height] |]; apply Hsize.
Qed.

(** *** Polar angle assignment *)

Lemma polarAngle_frame l r s s' i n :
  sameButTheta s s' -> polarAngle l r s' i n = polarAngle l r s i n.
Proof. unfold sameButTheta. intros ->. reflexivity. Qed.

Lemma assignTheta_closed l r s :
  assignTheta l r s = set_theta (writes (thetaWrites l r s) (theta s)) s.
Proof.
  unfold assignTheta, thetaWrites.
  enough (H : forall is_ s',
             sameButTheta s s' ->
             fold_left
               (fun s0 i =>
                  fold_left (fun s1 n => setTheta n (polarAngle l r s1 i n) s1)
                    (row_get (row s0) i) s0) is_ s'
             = set_theta
                 (writes
                    (flat_map
                       (fun i => map (fun n => (id n, polarAngle l r s i n))
                                     (row_get (row s) i)) is_) (theta s')) s).
  { apply H, sameButTheta_refl. }
  induction is_ as [| i is_ IH]; intros s' Hs'.
  - cbn. exact Hs'.
  - cbn [fold_left flat_map]. rewrite writes_app.
    assert (Hin : forall ns s1,
               sameButTheta s s1 ->
               fold_left (fun s2 n => setTheta n (polarAngle l r s2 i n) s2) ns s1
               = set_theta
                   (writes (map (fun n => (id n, polarAngle l r s i n)) ns) (theta s1))
                   s).
    { induction ns as [| n ns IHn]; intros s1 Hs1.
      - cbn. exact Hs1.
      - cbn [fold_left map]. rewrite IHn by now apply sameButTheta_setTheta.
        rewrite (polarAngle_frame _ _ _ _ _ _ Hs1). reflexivity. }
    replace (row s') with (row s) by (rewrite Hs'; reflexivity).
    rewrite Hin by exact Hs'. rewrite IH.
    + reflexivity.
    + unfold sameButTheta. reflexivity.
Qed.

(** *** Emission *)

Lemma emitNode_upd i s n :
  emitNode i s n = set_geometry (upd (geometry s) (cell n) (emitted s i n)) s.
Proof. reflexivity. Qed.

Lemma emitted_frame s s' i n :
  sameButPositions s s' -> emitted s' i n = emitted s i n.
Proof.
  intros [H Hsize]. unfold emitted. cbv zeta.
  destruct (Hsize (cell n)) as [-> ->]. rewrite H. reflexivity.
Qed.

Lemma setLocations_closed s :
  setLocations s = set_geometry (writes (locationWrites s) (geometry s)) s.
Proof.
  unfold setLocations, locationWrites.
  enough (H : forall is_ s',
             sameButPositions s s' ->
             fold_left (fun s0 i => fold_left (emitNode i) (row_get (row s0) i) s0) is_ s'
             = set_geometry
                 (writes
                    (flat_map
                       (fun i => map (fun n => (cell n, emitted s i n))
                                     (row_get (row s) i)) is_) (geometry s')) s
             ).
  { apply H, sameButPositions_refl. }
  assert (Hin : forall i ns s1,
             sameButPositions s s1 ->
             fold_left (emitNode i) ns s1
             = set_geometry
                 (writes (map (fun n => (cell n, emitted s i n)) ns) (geometry s1)) s
             /\ sameButPositions s (fold_left (emitNode i) ns s1)).
  { intros i. induction ns as [| n ns IHn]; intros s1 Hs1.
    - cbn. split; [apply Hs1 | exact Hs1].
    - cbn [fold_left map].
      assert (Hs2 : sameButPositions s (emitNode i s1 n))
        by now apply sameButPositions_set.
      destruct (IHn _ Hs2) as [E Hs3]. split; [| exact Hs3].
      rewrite E, emitNode_upd, (emitted_frame _ _ _ _ Hs1). reflexivity. }
  induction is_ as [| i is_ IH]; intros s' Hs'.
  - cbn. apply Hs'.
  - cbn [fold_left flat_map]. rewrite writes_app.
    replace (row s') with (row s) by (rewrite (proj1 Hs'); reflexivity).
    destruct (Hin i (row_get (row s) i) s' Hs') as [E Hs''].
    rewrite IH by exact Hs''. rewrite E. reflexivity.
Qed.

Lemma concat_flat_map_nth {A} (l : list (list A)) :
  flat_map (fun i => nth i l []) (seq 0 (length l)) = concat l.
Proof.
  induction l as [| a l IH]; [reflexivity |].
  cbn [length seq flat_map concat nth]. f_equal.
  rewrite <- seq_shift, flat_map_concat_map, map_map, <- flat_map_concat_map.
  exact IH.
Qed.

Lemma locationWrites_keys s : map fst (locationWrites s) = map cell (concat (row s)).
Proof.
  unfold locationWrites. rewrite <- concat_flat_map_nth.
  rewrite !flat_map_concat_map, !concat_map, !map_map. f_equal.
  apply map_ext. intros i. rewrite map_map. reflexivity.
Qed.

Lemma row_get_in_range (l : list (list TreeNode)) i n :
  In n (row_get l i) -> (i < length l)%nat.
Proof.
  unfold row_get. intros Hn. destruct (Nat.lt_ge_cases i (length l)) as [H | H]; [exact H |].
  rewrite nth_overflow in Hn by exact H. contradiction.
Qed.

Lemma locationWrites_in s i n :
  In n (row_get (row s) i) -> In (cell n, emitted s i n) (locationWrites s).
Proof.
  intros Hn. unfold locationWrites. apply in_flat_map. exists i. split.
  - apply in_seq. pose proof (row_get_in_range _ _ _ Hn). lia.
  - apply in_map_iff. now exists n.
Qed.

(** The bound of a vertex after the last phase. *)
Lemma setLocations_node s i n :
  NoDup (map cell (concat (row s))) -> In n (row_get (row s) i) ->
  geometry (setLocations s) (cell n) = emitted s i n.
Proof.
  intros Hnd Hn. rewrite setLocations_closed. layout_fields.
  apply writes_in; [now rewrite locationWrites_keys | now apply locationWrites_in].
Qed.

(** A vertex outside the rows keeps its bound. *)
Lemma setLocations_other s c :
  ~ In c (map cell (concat (row s))) -> geometry (setLocations s) c = geometry s c.
Proof.
  intros Hc. rewrite setLocations_closed. layout_fields.
  apply writes_notin. now rewrite locationWrites_keys.
Qed.

(** The radial invariant, for the last phase on any instance. *)
Lemma setLocations_radial s f i n b radius :
  f = setLocations s ->
  b = geometry f (cell n) ->
  radius = num_get (rowRadi f) i ->
  NoDup (map cell (concat (row f))) ->
  In n (row_get (row f) i) ->
  x b + width b / 2 = centerX f + radius * cos (theta f (id n)) /\
  y b + height b / 2 = centerY f + radius * sin (theta f (id n)) /\
  (0 <= radius ->
   sqrt ((x b + width b / 2 - centerX f) ^ 2 + (y b + height b / 2 - centerY f) ^ 2)
   = radius).
Proof.
  intros -> -> ->.
  assert (Hf : setLocations s = set_geometry (geometry (setLocations s)) s)
    by (rewrite setLocations_closed; reflexivity).
  intros Hnd Hn. rewrite Hf in Hnd, Hn. layout_fields.
  rewrite (setLocations_node _ _ _ Hnd Hn). rewrite Hf. layout_fields.
  unfold emitted. cbn [x y width height].
  set (rad := num_get (rowRadi s) i). set (th := theta s (id n)).
  split; [lra |]. split; [lra |]. intros Hrad.
  replace ((_ - _) ^ 2 + (_ - _) ^ 2) with (rad ^ 2 * ((sin th) ^ 2 + (cos th) ^ 2)) by ring.
  replace ((sin th) ^ 2 + (cos th) ^ 2) with 1
    by (rewrite <- (sin2_cos2 th); unfold Rsqr; ring).
  rewrite Rmult_1_r. replace (rad ^ 2) with (Rsqr rad) by (unfold Rsqr; ring).
  now apply sqrt_Rsqr.
Qed.

Lemma execute_radial_phases s :
  execute_radial s = setLocations (reconcile (execute_angles s)).
Proof.
  unfold execute_radial, execute_angles, execute_rows. cbv zeta.
  generalize (calcRowDims [node (execute_center s)] 0 (execute_center s)).
  intros s'. now destruct (steepestGradients s').
Qed.

Lemma execute_phases compact parent_ root_ s :
  execute compact parent_ root_ s
  = setLocations
      (reconcile
         (execute_angles (super_execute compact parent_ root_ (execute_prologue parent_ s)))).
Proof. unfold execute. cbv zeta. apply execute_radial_phases. Qed.

(** ** Extents: minimum and maximum over the center and the nodes of a row *)

Lemma rowMin_spec f g c l :
  rowMin f g c l <= c /\
  (forall n, In n l -> rowMin f g c l <= f (g (cell n))) /\
  (rowMin f g c l = c \/ exists n, In n l /\ rowMin f g c l = f (g (cell n))).
Proof.
  unfold rowMin. revert c. induction l as [| a l IH]; intros c; cbn [fold_left].
  - split; [lra |]. split; [contradiction | now left].
  - destruct (IH (Rmin (f (g (cell a))) c)) as (Hc & Hall & Hex).
    pose proof (Rmin_l (f (g (cell a))) c). pose proof (Rmin_r (f (g (cell a))) c).
    split; [lra |]. split.
    + intros n [<- | Hn]; [lra | now apply Hall].
    + destruct Hex as [E | (n & Hn & E)].
      * revert E. apply Rmin_case; intros E.
        -- right. exists a. split; [now left | exact E].
        -- now left.
      * right. exists n. split; [now right | exact E].
Qed.

Lemma rowMax_spec f g c l :
  c <= rowMax f g c l /\
  (forall n, In n l -> f (g (cell n)) <= rowMax f g c l) /\
  (rowMax f g c l = c \/ exists n, In n l /\ rowMax f g c l = f (g (cell n))).
Proof.
  unfold rowMax. revert c. induction l as [| a l IH]; intros c; cbn [fold_left].
  - split; [lra |]. split; [contradiction | now left].
  - destruct (IH (Rmax (f (g (cell a))) c)) as (Hc & Hall & Hex).
    pose proof (Rmax_l (f (g (cell a))) c). pose proof (Rmax_r (f (g (cell a))) c).
    split; [lra |]. split.
    + intros n [<- | Hn]; [lra | now apply Hall].
    + destruct Hex as [E | (n & Hn & E)].
      * revert E. apply Rmax_case; intros E.
        -- right. exists a. split; [now left | exact E].
        -- now left.
      * right. exists n. split; [now right | exact E].
Qed.

Lemma lastRadius_last g rc l n old :
  lastRadius g rc (l ++ [n]) old = y (g (cell n)) - y (g rc).
Proof. unfold lastRadius. now rewrite fold_left_app. Qed.

(** ** The rows that execute computes *)

Lemma rowCount_root o : rowCount [o] = Nat.max 1 (depth o).
Proof. reflexivity. Qed.

Lemma execute_rows_spec s :
  RowsWritten [node s] 0 (execute_center s) (execute_rows s).
Proof. apply (calcRowDims_spec [node (execute_center s)] 0 (execute_center s)). Qed.

(** The rows, their extents and their radius after [calcRowDims], for the
    rows of the tree. *)
Lemma execute_rows_dims s i :
  (i < Nat.max 1 (depth (node s)))%nat ->
  row_get (row (execute_rows s)) i = rowAt [node s] i /\
  dims (execute_rows s) i
  = dimsOf (execute_center s) (rowAt [node s] i) (num_get (rowRadi s) i).
Proof.
  intros Hi. destruct (execute_rows_spec s) as [_ _ _ Hin].
  apply (Hin i). rewrite rowCount_root. exact Hi.
Qed.

Lemma sameButRows_fields s f :
  sameButRows s f ->
  geometry f = geometry s /\ theta f = theta s /\ root f = root s /\
  node f = node s /\ centerX f = centerX s /\ centerY f = centerY s /\
  nodeDistance f = nodeDistance s.
Proof. unfold sameButRows. intros ->. repeat split. Qed.

Lemma execute_rows_fields s :
  geometry (execute_rows s) = geometry s /\ theta (execute_rows s) = theta s /\
  root (execute_rows s) = root s /\ node (execute_rows s) = node s /\
  centerX (execute_rows s) = x (geometry s (root s)) + width (geometry s (root s)) / 2 /\
  centerY (execute_rows s) = y (geometry s (root s)) + height (geometry s (root s)) / 2 /\
  nodeDistance (execute_rows s) = nodeDistance s.
Proof.
  destruct (execute_rows_spec s) as [Hf _ _ _].
  apply sameButRows_fields in Hf. exact Hf.
Qed.

(** ** C4: row dimensions *)

(** What holds of the extents and the radius of a populated row of the
    tree. *)
Lemma execute_rows_extents s f i l n :
  f = execute_rows s ->
  (i < Nat.max 1 (depth (node s)))%nat ->
  row_get (row f) i = l ++ [n] ->
  num_get (rowMinX f) i = rowMin x (geometry f) (centerX f) (l ++ [n]) /\
  num_get (rowMaxX f) i = rowMax rightEdge (geometry f) (centerX f) (l ++ [n]) /\
  num_get (rowRadi f) i = y (geometry f (cell n)) - y (geometry f (root f)).
Proof.
  intros -> Hi Hrow. destruct (execute_rows_dims s i Hi) as [Hr Hd].
  destruct (execute_rows_fields s) as (Hg & _ & Hroot & _ & Hcx & _).
  revert Hrow Hr Hd Hg Hroot Hcx. generalize (execute_rows s).
  intros f Hrow Hr Hd Hg Hroot Hcx.
  rewrite Hrow in Hr. rewrite <- Hr in Hd.
  unfold dims, dimsOf in Hd. injection Hd as H1 H2 _ _ H5.
  rewrite lastRadius_last in H5. rewrite H1, H2, H5, Hg, Hroot, Hcx.
  repeat split.
Qed.

(** C4 (amended): for every populated row of the tree, rowMinX is the minimum
    of centerX and of bound.x over the nodes of the row, rowMaxX is the
    maximum of centerX and of bound.x + bound.width over them, and rowRadi is
    the y-distance from the root's bound of the node visited last. *)
Theorem calcRowDims_row_dims s f i l n :
  f = execute_rows s ->
  (i < Nat.max 1 (depth (node s)))%nat ->
  row_get (row f) i = l ++ [n] ->
  (num_get (rowMinX f) i <= centerX f /\
   (forall m, In m (l ++ [n]) -> num_get (rowMinX f) i <= x (geometry f (cell m))) /\
   (num_get (rowMinX f) i = centerX f \/
    exists m, In m (l ++ [n]) /\ num_get (rowMinX f) i = x (geometry f (cell m)))) /\
  (centerX f <= num_get (rowMaxX f) i /\
   (forall m, In m (l ++ [n]) ->
              x (geometry f (cell m)) + width (geometry f (cell m))
              <= num_get (rowMaxX f) i) /\
   (num_get (rowMaxX f) i = centerX f \/
    exists m, In m (l ++ [n]) /\
              num_get (rowMaxX f) i
              = x (geometry f (cell m)) + width (geometry f (cell m)))) /\
  num_get (rowRadi f) i = y (geometry f (cell n)) - y (geometry f (root f)).
Proof.
  intros Hf Hi Hrow.
  destruct (execute_rows_extents s f i l n Hf Hi Hrow) as (-> & -> & ->).
  split; [apply rowMin_spec |]. split; [apply (rowMax_spec rightEdge) | reflexivity].
Qed.

Lemma sampleStart_depth : (1 < Nat.max 1 (depth (node sampleStart)))%nat.
Proof. vm_compute. lia. Qed.

Lemma sampleStart_row1 : row_get (row (execute_rows sampleStart)) 1 = [] ++ [nodeC].
Proof. exact (proj1 (execute_rows_dims sampleStart 1 sampleStart_depth)). Qed.

Lemma calcRowDims_row_dims_witness :
  num_get (rowRadi (execute_rows sampleStart)) 1
  = y (geometry (execute_rows sampleStart) (cell nodeC))
    - y (geometry (execute_rows sampleStart) (root (execute_rows sampleStart))).
Proof.
  exact (proj2 (proj2 (calcRowDims_row_dims sampleStart (execute_rows sampleStart) 1 []
                         nodeC eq_refl sampleStart_depth sampleStart_row1))).
Defined.

(** C4 as stated fails on the sample: row 1 holds the single node C, whose
    bound starts at x = 120, yet rowMinX[1] is the center, 110. *)
Lemma rowMinX_is_not_the_row_minimum :
  row_get (row (execute_rows sampleStart)) 1 = [nodeC] /\
  num_get (rowMinX (execute_rows sampleStart)) 1
  <> x (geometry (execute_rows sampleStart) (cell nodeC)).
Proof.
  destruct (execute_rows_extents sampleStart (execute_rows sampleStart) 1 [] nodeC
              eq_refl sampleStart_depth sampleStart_row1) as (H1 & _).
  destruct (execute_rows_fields sampleStart) as (Hg & _ & _ & _ & Hcx & _).
  pose proof sampleStart_row1 as Hr.
  revert H1 Hg Hcx Hr. generalize (execute_rows sampleStart). intros f H1 Hg Hcx Hr.
  split; [exact Hr |]. rewrite H1, Hg, Hcx. cbn.
  rewrite Rmin_right by lra. lra.
Qed.

(** ** Frames of the later phases *)

Lemma reconcile_sameButTheta s : sameButTheta s (reconcile s).
Proof.
  unfold reconcile. apply fold_left_invariant; [| apply sameButTheta_refl].
  intros s1 i _ H1. unfold reconcileRow.
  apply fold_left_invariant; [| exact H1].
  intros s2 j _ H2.
  destruct (reconcileNode_cases i s2 j) as [-> | (n & v & _ & _ & ->)];
    [exact H2 | now apply sameButTheta_setTheta].
Qed.

Lemma sameButTheta_fields s f :
  sameButTheta s f ->
  geometry f = geometry s /\ row f = row s /\ rowRadi f = rowRadi s /\
  rowMinX f = rowMinX s /\ rowMaxX f = rowMaxX s /\
  centerX f = centerX s /\ centerY f = centerY s /\ root f = root s /\
  nodeDistance f = nodeDistance s.
Proof. unfold sameButTheta. intros ->. repeat split. Qed.

Lemma execute_angles_sameButTheta s : sameButTheta (execute_rows s) (execute_angles s).
Proof. unfold execute_angles. rewrite assignTheta_closed. reflexivity. Qed.

(** ** C5: a root without children *)

Lemma one_empty_row (l : list (list TreeNode)) :
  length l = 1%nat -> row_get l 0 = [] -> l = [[]].
Proof.
  destruct l as [| r0 [| r1 l]]; cbn; intros Hlen Hr; try discriminate.
  now subst.
Qed.

Lemma locationWrites_one_empty_row s : row s = [[]] -> locationWrites s = [].
Proof. unfold locationWrites. intros ->. reflexivity. Qed.

(** What the phases after the compact tree layout do when the root has no
    child and no row beyond the first is left from an earlier run. *)
Lemma execute_radial_single s f :
  f = execute_radial s ->
  childOf (node s) = None -> (length (row s) <= 1)%nat ->
  row f = [[]] /\ geometry f = geometry s /\ root f = root s.
Proof.
  intros Hf Hleaf Hlen. rewrite execute_radial_phases in Hf.
  assert (Hdepth : Nat.max 1 (depth (node s)) = 1%nat).
  { unfold depth, rows_below. cbn [map list_max]. rewrite Hleaf. reflexivity. }
  assert (Hrows : row (execute_rows s) = [[]]).
  { destruct (execute_rows_spec s) as [_ Hl _ Hin]. rewrite rowCount_root, Hdepth in *.
    apply one_empty_row.
    - rewrite Hl. cbn [execute_center row set_centerX set_centerY]. lia.
    - destruct (Hin 0%nat) as [Hr _]; [lia |]. cbn [Nat.add] in Hr. rewrite Hr.
      cbn [rowAt childrenOf map concat]. rewrite Hleaf. reflexivity. }
  destruct (execute_rows_fields s) as (Hg & _ & Hroot & _).
  destruct (sameButTheta_fields _ _ (execute_angles_sameButTheta s)) as (Hg1 & Hr1 & _ & _ & _ & _ & _ & Hroot1 & _).
  destruct (sameButTheta_fields _ _ (reconcile_sameButTheta (execute_angles s)))
    as (Hg2 & Hr2 & _ & _ & _ & _ & _ & Hroot2 & _).
  revert Hf Hg2 Hr2 Hroot2. generalize (reconcile (execute_angles s)). intros s4 Hf Hg2 Hr2 Hroot2.
  rewrite setLocations_closed, locationWrites_one_empty_row in Hf by congruence.
  subst f. layout_fields. unfold writes. cbn [fold_left].
  repeat split; congruence.
Qed.

Lemma execute_single compact parent_ root_ s f :
  f = execute compact parent_ root_ s ->
  childOf (c_node (compact parent_ root_)) = None -> (length (row s) <= 1)%nat ->
  row f = [[]] /\
  geometry f = geometry (super_execute compact parent_ root_ (execute_prologue parent_ s)) /\
  root f = c_root (compact parent_ root_).
Proof.
  intros Hf Hleaf Hlen. unfold execute in Hf. cbv zeta in Hf.
  apply execute_radial_single in Hf; [exact Hf | exact Hleaf | exact Hlen].
Qed.

(** C5 (amended): when the root has no children, and the instance holds no
    rows beyond the first from an earlier run, execute leaves every bound as
    the compact tree layout set it, the root's among them, and it produces
    one row, of length zero. *)
Theorem execute_single_vertex compact parent_ root_ s f :
  f = execute compact parent_ root_ s ->
  childOf (c_node (compact parent_ root_)) = None ->
  (length (row s) <= 1)%nat ->
  row f = [[]] /\
  geometry f = geometry (super_execute compact parent_ root_ (execute_prologue parent_ s)) /\
  (c_bounds (compact parent_ root_) (root f) = None ->
   geometry f (root f) = geometry s (root f)).
Proof.
  intros Hf Hleaf Hlen.
  destruct (execute_single compact parent_ root_ s f Hf Hleaf Hlen) as (Hr & Hg & Hroot).
  split; [exact Hr |]. split; [exact Hg |].
  intros Hkeep. rewrite Hg. unfold super_execute. cbv zeta. layout_fields.
  now rewrite Hkeep.
Qed.

Lemma execute_single_vertex_witness :
  childOf (c_node (singleCompact 0%nat None)) = None /\
  (length (row (newLayout sampleBounds)) <= 1)%nat /\
  row (execute singleCompact 0%nat None (newLayout sampleBounds)) = [[]].
Proof.
  split; [reflexivity |]. split; [cbn; lia |].
  apply (execute_single_vertex singleCompact 0%nat None (newLayout sampleBounds) _ eq_refl);
    [reflexivity | cbn; lia].
Defined.

(** C5 as stated fails: on a new layout and a single vertex, execute does
    produce a row, the empty row 0. *)
Lemma single_vertex_produces_a_row :
  length (row (execute singleCompact 0%nat None (newLayout sampleBounds))) <> 0%nat.
Proof.
  destruct (execute_single singleCompact 0%nat None (newLayout sampleBounds) _ eq_refl)
    as (Hr & _); [reflexivity | cbn; lia |].
  rewrite Hr. discriminate.
Qed.

(** ** C6: termination and the rows that are written *)

(** The invocations of calcRowDims on a non-empty row are exactly as many as
    the rows it writes. *)
Lemma calcRowDims_calls_exact row_ rowNum s :
  row_ <> [] ->
  forall budget,
    calcRowDims_calls budget row_ rowNum s
    = if (rowCount row_ <=? budget)%nat then Some (calcRowDims row_ rowNum s) else None.
Proof.
  pattern row_, rowNum, s, (calcRowDims row_ rowNum s).
  apply calcRowDims_induction; clear row_ rowNum s.
  - intros rowNum s Hne. congruence.
  - intros row_ rowNum s s' Hne E _ budget.
    pose proof (calcRowDims_body_flag row_ rowNum s) as Hflag.
    rewrite E in Hflag. cbn [snd] in Hflag. symmetry in Hflag.
    rewrite (rowCount_stop _ Hne Hflag).
    destruct budget as [| budget]; [reflexivity |]. cbn [calcRowDims_calls].
    destruct row_ as [| r rs]; [congruence |]. rewrite E. reflexivity.
  - intros row_ rowNum s s' Hne E IH _ budget.
    pose proof (calcRowDims_body_flag row_ rowNum s) as Hflag.
    rewrite E in Hflag. cbn [snd] in Hflag. symmetry in Hflag.
    destruct (rowCount_recurse _ Hflag) as (_ & Hch & ->).
    pose proof (calcRowDims_body_row row_ rowNum s) as Hrow.
    rewrite E in Hrow. cbn [fst] in Hrow.
    destruct budget as [| budget]; [reflexivity |]. cbn [calcRowDims_calls].
    destruct row_ as [| r rs]; [congruence |]. rewrite E, Hrow.
    rewrite IH.
    + reflexivity.
    + destruct (childrenOf (r :: rs)); [congruence | discriminate].
Qed.

(** The recursion of lines 315-317: calcRowDims goes on to the next row
    exactly when a node of the row it has just filled has a child. *)
Lemma calcRowDims_recursion row_ rowNum s :
  row_ <> [] ->
  calcRowDims row_ rowNum s =
  if existsb hasChild (row_get (row (fst (calcRowDims_body row_ rowNum s))) rowNum)
  then calcRowDims (map Some (row_get (row (fst (calcRowDims_body row_ rowNum s))) rowNum))
         (S rowNum) (fst (calcRowDims_body row_ rowNum s))
  else fst (calcRowDims_body row_ rowNum s).
Proof.
  intros Hne. rewrite calcRowDims_step. destruct row_ as [| r rs]; [congruence |].
  assert (Hflag : existsb hasChild
                    (row_get (row (fst (calcRowDims_body (r :: rs) rowNum s))) rowNum)
                  = snd (calcRowDims_body (r :: rs) rowNum s))
    by now rewrite calcRowDims_body_row, calcRowDims_body_flag.
  rewrite Hflag.
  now destruct (calcRowDims_body (r :: rs) rowNum s) as [s' [|]].
Qed.

Lemma calcRowDims_root_rows o s :
  length (row (calcRowDims [o] 0 s)) = Nat.max (length (row s)) (Nat.max 1 (depth o)) /\
  (forall j, (Nat.max 1 (depth o) <= j)%nat ->
             row_get (row (calcRowDims [o] 0 s)) j = row_get (row s) j /\
             dims (calcRowDims [o] 0 s) j = dims s j) /\
  (forall k, (k < Nat.max 1 (depth o))%nat ->
             row_get (row (calcRowDims [o] 0 s)) k = rowAt [o] k).
Proof.
  destruct (calcRowDims_spec [o] 0 s) as [_ Hl Hout Hin]. rewrite rowCount_root in *.
  split; [| split].
  - rewrite Hl. destruct (Nat.max 1 (depth o)) eqn:E; [lia | reflexivity].
  - intros j Hj. destruct (Hout j) as [Hd Hr]; [right; lia | now split].
  - intros k Hk. now destruct (Hin k Hk) as [Hr _].
Qed.

(** C6 (amended): calcRowDims terminates; on the tree rooted at [o] it makes
    max(1, depth) nested invocations, so at most depth recursive calls; it
    goes on to the next row only when a node of the current row has a child;
    it writes the rows 0 .. max(1, depth) - 1, row [k] holding the nodes at
    depth [k + 1], and no entry at or beyond index max(1, depth).  Row 0 is
    always written, also for a root without children. *)
Theorem calcRowDims_terminates_within_depth o s :
  calcRowDims_calls (Nat.max 1 (depth o)) [o] 0 s = Some (calcRowDims [o] 0 s) /\
  (forall budget, (budget < Nat.max 1 (depth o))%nat ->
                  calcRowDims_calls budget [o] 0 s = None) /\
  (Nat.max 1 (depth o) - 1 <= depth o)%nat /\
  length (row (calcRowDims [o] 0 s)) = Nat.max (length (row s)) (Nat.max 1 (depth o)) /\
  (forall j, (Nat.max 1 (depth o) <= j)%nat ->
             row_get (row (calcRowDims [o] 0 s)) j = row_get (row s) j /\
             dims (calcRowDims [o] 0 s) j = dims s j) /\
  (forall k, (k < Nat.max 1 (depth o))%nat ->
             row_get (row (calcRowDims [o] 0 s)) k = rowAt [o] k) /\
  (forall row_ rowNum s',
      row_ <> [] ->
      calcRowDims row_ rowNum s' =
      if existsb hasChild (row_get (row (fst (calcRowDims_body row_ rowNum s'))) rowNum)
      then calcRowDims
             (map Some (row_get (row (fst (calcRowDims_body row_ rowNum s'))) rowNum))
             (S rowNum) (fst (calcRowDims_body row_ rowNum s'))
      else fst (calcRowDims_body row_ rowNum s')).
Proof.
  assert (Hne : [o] <> []) by discriminate.
  split.
  { rewrite (calcRowDims_calls_exact [o] 0%nat s Hne), rowCount_root, Nat.leb_refl. reflexivity. }
  split.
  { intros budget Hb. rewrite (calcRowDims_calls_exact [o] 0%nat s Hne), rowCount_root.
    destruct (Nat.leb_spec (Nat.max 1 (depth o)) budget); [lia | reflexivity]. }
  split; [lia |].
  destruct (calcRowDims_root_rows o s) as (Hl & Hout & Hin).
  repeat split; try assumption; try apply Hout; try assumption.
  intros row_ rowNum s'. apply calcRowDims_recursion.
Qed.

Lemma calcRowDims_terminates_within_depth_witness :
  calcRowDims_calls 2 [Some nodeR] 0 sampleStart
  = Some (calcRowDims [Some nodeR] 0 sampleStart).
Proof.
  exact (proj1 (calcRowDims_terminates_within_depth (Some nodeR) sampleStart)).
Defined.

(** C6 as stated fails on a root without children: its depth is 0, yet the
    entry at index 0 of the row array is written. *)
Lemma leaf_root_writes_row_0 :
  depth (Some (Node 10 0%nat None None)) = 0%nat /\
  ~ (length (row (calcRowDims [Some (Node 10 0%nat None None)] 0 (newLayout sampleBounds)))
     <= depth (Some (Node 10 0%nat None None)))%nat.
Proof.
  split; [reflexivity |].
  destruct (calcRowDims_root_rows (Some (Node 10 0%nat None None)) (newLayout sampleBounds))
    as (Hl & _).
  rewrite Hl. cbn. lia.
Qed.

(** ** The rows of an instance that holds no rows of an earlier, deeper run *)

Lemma execute_rows_fresh s :
  (length (row s) <= Nat.max 1 (depth (node s)))%nat ->
  row (execute_rows s) = treeRows (node s).
Proof.
  intros Hlen.
  destruct (calcRowDims_root_rows (node (execute_center s)) (execute_center s))
    as (Hl & _ & Hin).
  change (calcRowDims _ _ _) with (execute_rows s) in Hl, Hin.
  change (node (execute_center s)) with (node s) in Hl, Hin.
  change (row (execute_center s)) with (row s) in Hl.
  unfold treeRows. apply (nth_ext _ _ [] []).
  - rewrite length_map, length_seq, Hl. lia.
  - intros i Hi. rewrite Hl in Hi.
    assert (Hi' : (i < Nat.max 1 (depth (node s)))%nat) by lia.
    change (nth i (row (execute_rows s)) []) with (row_get (row (execute_rows s)) i).
    rewrite (Hin i Hi').
    rewrite (nth_indep _ [] (rowAt [node s] 0)) by (rewrite length_map, length_seq; exact Hi').
    rewrite (map_nth (rowAt [node s])), seq_nth by exact Hi'. reflexivity.
Qed.

Lemma setLocations_fields s :
  row (setLocations s) = row s /\ theta (setLocations s) = theta s /\
  rowRadi (setLocations s) = rowRadi s /\ centerX (setLocations s) = centerX s /\
  centerY (setLocations s) = centerY s /\ root (setLocations s) = root s.
Proof. rewrite setLocations_closed. repeat split. Qed.

(** The rows, the radii and the center that execute leaves are those that
    calcRowDims computed. *)
Lemma execute_fields compact parent_ root_ s f s1 :
  f = execute compact parent_ root_ s ->
  s1 = super_execute compact parent_ root_ (execute_prologue parent_ s) ->
  row f = row (execute_rows s1) /\ rowRadi f = rowRadi (execute_rows s1) /\
  centerX f = centerX (execute_rows s1) /\ centerY f = centerY (execute_rows s1) /\
  root f = root (execute_rows s1) /\
  theta f = theta (reconcile (execute_angles s1)).
Proof.
  intros Hf ->. rewrite execute_phases in Hf.
  set (s1 := super_execute _ _ _ _) in *.
  destruct (sameButTheta_fields _ _ (execute_angles_sameButTheta s1))
    as (_ & Hr1 & Hrad1 & _ & _ & Hcx1 & Hcy1 & Hroot1 & _).
  destruct (sameButTheta_fields _ _ (reconcile_sameButTheta (execute_angles s1)))
    as (_ & Hr2 & Hrad2 & _ & _ & Hcx2 & Hcy2 & Hroot2 & _).
  destruct (setLocations_fields (reconcile (execute_angles s1)))
    as (Hr3 & Hth3 & Hrad3 & Hcx3 & Hcy3 & Hroot3).
  subst f. repeat split; congruence.
Qed.


(** ** C2: polar angle assignment *)

Lemma steepestGradients_bounds s :
  0 <= fst (steepestGradients s) /\ 0 <= snd (steepestGradients s) /\
  forall i, (i < length (row s))%nat ->
            leftGrad s i <= fst (steepestGradients s) /\
            rightGrad s i <= snd (steepestGradients s).
Proof.
  unfold steepestGradients.
  enough (H : forall l a b,
             let p := fold_left
                        (fun '(maxLeftGrad, maxRightGrad) i =>
                           (Rmax maxLeftGrad (leftGrad s i), Rmax maxRightGrad (rightGrad s i)))
                        l (a, b) in
             a <= fst p /\ b <= snd p /\
             forall i, In i l -> leftGrad s i <= fst p /\ rightGrad s i <= snd p).
  { destruct (H (seq 0 (length (row s))) 0 0) as (Ha & Hb & Hall).
    split; [exact Ha |]. split; [exact Hb |].
    intros i Hi. apply Hall, in_seq. lia. }
  induction l as [| i l IH]; intros a b; cbn [fold_left].
  - cbn. split; [lra |]. split; [lra | contradiction].
  - destruct (IH (Rmax a (leftGrad s i)) (Rmax b (rightGrad s i))) as (Ha & Hb & Hall).
    pose proof (Rmax_l a (leftGrad s i)). pose proof (Rmax_r a (leftGrad s i)).
    pose proof (Rmax_l b (rightGrad s i)). pose proof (Rmax_r b (rightGrad s i)).
    cbv zeta. split; [lra |]. split; [lra |].
    intros j [<- | Hj]; [split; lra | now apply Hall].
Qed.

(** A row whose extents cover its nodes and whose radius is positive lies
    between its virtual limits. *)
Lemma limits_cover_row s i b :
  0 < num_get (rowRadi s) i -> (i < length (row s))%nat ->
  num_get (rowMinX s) i <= x b -> x b + width b <= num_get (rowMaxX s) i ->
  xLeftLimit (fst (steepestGradients s)) s i <= x b /\
  x b + width b <= xRightLimit (snd (steepestGradients s)) s i.
Proof.
  intros Hrad Hi Hmin Hmax.
  destruct (steepestGradients_bounds s) as (_ & _ & Hall).
  destruct (Hall i Hi) as [Hl Hr]. unfold xLeftLimit, xRightLimit.
  set (rad := num_get (rowRadi s) i) in *.
  assert (El : leftGrad s i * rad = centerX s - num_get (rowMinX s) i - nodeDistance s)
    by (unfold leftGrad; fold rad; field; lra).
  assert (Er : rightGrad s i * rad = num_get (rowMaxX s) i - centerX s - nodeDistance s)
    by (unfold rightGrad; fold rad; field; lra).
  assert (leftGrad s i * rad <= fst (steepestGradients s) * rad)
    by (apply Rmult_le_compat_r; lra).
  assert (rightGrad s i * rad <= snd (steepestGradients s) * rad)
    by (apply Rmult_le_compat_r; lra).
  split; lra.
Qed.

(** The angle of a vertex whose bound lies between the limits of its row is
    in [0, 2 PI], and it is less than 2 PI when the bound has positive
    width. *)
Lemma polarAngle_range l r s i n :
  xLeftLimit l s i <= x (geometry s (cell n)) ->
  x (geometry s (cell n)) + width (geometry s (cell n)) <= xRightLimit r s i ->
  0 <= width (geometry s (cell n)) ->
  0 < xRightLimit r s i - xLeftLimit l s i ->
  0 <= polarAngle l r s i n <= 2 * PI /\
  (0 < width (geometry s (cell n)) -> polarAngle l r s i n < 2 * PI).
Proof.
  intros Hl Hr Hw Hfw. unfold polarAngle. cbv zeta. unfold getVertexBounds.
  set (b := geometry s (cell n)) in *.
  set (xl := xLeftLimit l s i) in *. set (xr := xRightLimit r s i) in *.
  set (q := (x b + width b / 2 - xl) / (xr - xl)).
  assert (Hq0 : 0 <= q).
  { apply Rmult_le_pos; [lra |]. left. now apply Rinv_0_lt_compat. }
  assert (Hq1 : q <= 1).
  { apply (Rmult_le_reg_r (xr - xl)); [exact Hfw |].
    unfold q, Rdiv. rewrite Rmult_assoc, Rinv_l by lra. lra. }
  assert (Hq2 : 0 < width b -> q < 1).
  { intros H. apply (Rmult_lt_reg_r (xr - xl)); [exact Hfw |].
    unfold q, Rdiv. rewrite Rmult_assoc, Rinv_l by lra. lra. }
  pose proof PI_RGT_0. split; [split; nra |]. intros H'. specialize (Hq2 H'). nra.
Qed.

Lemma polarAngle_monotone l r s i n m :
  0 < xRightLimit r s i - xLeftLimit l s i ->
  centreX (geometry s (cell n)) < centreX (geometry s (cell m)) ->
  polarAngle l r s i n < polarAngle l r s i m.
Proof.
  intros Hfw Hc. unfold polarAngle. cbv zeta. unfold getVertexBounds, centreX in *.
  set (xl := xLeftLimit l s i) in *. set (xr := xRightLimit r s i) in *.
  pose proof PI_RGT_0.
  apply Rmult_lt_compat_l; [lra |].
  apply Rmult_lt_compat_r; [now apply Rinv_0_lt_compat | lra].
Qed.

Lemma thetaWrites_keys l r s : map fst (thetaWrites l r s) = map id (concat (row s)).
Proof.
  unfold thetaWrites. rewrite <- concat_flat_map_nth.
  rewrite !flat_map_concat_map, !concat_map, !map_map. f_equal.
  apply map_ext. intros i. rewrite map_map. reflexivity.
Qed.

Lemma thetaWrites_in l r s i n :
  In n (row_get (row s) i) -> In (id n, polarAngle l r s i n) (thetaWrites l r s).
Proof.
  intros Hn. unfold thetaWrites. apply in_flat_map. exists i. split.
  - apply in_seq. pose proof (row_get_in_range _ _ _ Hn). lia.
  - apply in_map_iff. now exists n.
Qed.

(** The angle a node of row [i] holds after the assignment phase. *)
Lemma assignTheta_node l r s i n :
  distinctNodes s -> In n (row_get (row s) i) ->
  theta (assignTheta l r s) (id n) = polarAngle l r s i n.
Proof.
  intros Hnd Hn. rewrite assignTheta_closed. layout_fields.
  apply writes_in; [now rewrite thetaWrites_keys | now apply thetaWrites_in].
Qed.

(** The extents that calcRowDims leaves for a row that it wrote cover the
    nodes of that row. *)
Lemma execute_rows_cover s i n :
  (i < Nat.max 1 (depth (node s)))%nat ->
  In n (row_get (row (execute_rows s)) i) ->
  (i < length (row (execute_rows s)))%nat /\
  num_get (rowMinX (execute_rows s)) i <= x (geometry s (cell n)) /\
  x (geometry s (cell n)) + width (geometry s (cell n))
  <= num_get (rowMaxX (execute_rows s)) i /\
  exists k, In k (row_get (row (execute_rows s)) i) /\
            num_get (rowRadi (execute_rows s)) i
            = y (geometry s (cell k)) - y (geometry s (root s)).
Proof.
  intros Hi' Hn. pose proof (row_get_in_range _ _ _ Hn) as Hi.
  split; [exact Hi |].
  destruct (exists_last (l := row_get (row (execute_rows s)) i)) as (l & k & Hrow).
  { intros E. rewrite E in Hn. contradiction. }
  destruct (execute_rows_extents s _ i l k eq_refl Hi' Hrow) as (Hmin & Hmax & Hrad).
  destruct (execute_rows_fields s) as (Hg & _ & Hroot & _).
  rewrite Hg, Hroot in *. rewrite Hrow in Hn.
  split; [rewrite Hmin; now apply rowMin_spec |].
  split; [rewrite Hmax; now apply (rowMax_spec rightEdge) |].
  exists k. split; [rewrite Hrow; apply in_or_app; right; now left | exact Hrad].
Qed.

(** On an instance that holds no row of an earlier, deeper run every row is
    one that calcRowDims wrote. *)
Lemma execute_rows_written s i n :
  (length (row s) <= Nat.max 1 (depth (node s)))%nat ->
  In n (row_get (row (execute_rows s)) i) ->
  (i < Nat.max 1 (depth (node s)))%nat.
Proof.
  intros Hlen Hn. pose proof (row_get_in_range _ _ _ Hn) as Hi.
  rewrite (execute_rows_fresh s Hlen) in Hi. unfold treeRows in Hi.
  now rewrite length_map, length_seq in Hi.
Qed.

Lemma steepestGradients_frame s f :
  sameButTheta s f -> steepestGradients f = steepestGradients s.
Proof. unfold sameButTheta. intros ->. reflexivity. Qed.

Lemma limits_frame s f l r i :
  sameButTheta s f ->
  xLeftLimit l f i = xLeftLimit l s i /\ xRightLimit r f i = xRightLimit r s i.
Proof. unfold sameButTheta. intros ->. split; reflexivity. Qed.

(** C2 (amended): after the assignment phase of execute the angle of every
    node of row [i] is 2 PI times its fractional position between the
    virtual limits of the row.  When row [i] is a row that this run wrote,
    which every row is on an instance that holds no row of an earlier,
    deeper run, and its vertices have a width of at least 0 and lie below
    the root: the angle lies in [0, 2 PI) when the vertex has positive
    width, and in [0, 2 PI] when the node distance is positive; and within
    the row a smaller center x gets a smaller angle.  The assignment phase
    is the phase of execute after which the reconciliation and the emission
    run. *)
Theorem polar_angle_assignment compact parent_ root_ s s1 a i n m :
  s1 = super_execute compact parent_ root_ (execute_prologue parent_ s) ->
  a = execute_angles s1 ->
  distinctNodes a ->
  In n (row_get (row a) i) -> In m (row_get (row a) i) ->
  execute compact parent_ root_ s = setLocations (reconcile a) /\
  theta a (id n)
  = 2 * PI *
    ((x (geometry a (cell n)) + width (geometry a (cell n)) / 2
      - xLeftLimit (fst (steepestGradients a)) a i)
     / (xRightLimit (snd (steepestGradients a)) a i
        - xLeftLimit (fst (steepestGradients a)) a i)) /\
  ((length (row s) <= Nat.max 1 (depth (node s1)))%nat ->
   (i < Nat.max 1 (depth (node s1)))%nat) /\
  ((i < Nat.max 1 (depth (node s1)))%nat ->
   (forall k, In k (row_get (row a) i) ->
              0 <= width (geometry a (cell k)) /\
              y (geometry a (root a)) < y (geometry a (cell k))) ->
   (0 < width (geometry a (cell n)) -> 0 <= theta a (id n) < 2 * PI) /\
   (0 < nodeDistance a -> 0 <= theta a (id n) <= 2 * PI) /\
   (x (geometry a (cell n)) + width (geometry a (cell n)) / 2
    < x (geometry a (cell m)) + width (geometry a (cell m)) / 2 ->
    theta a (id n) < theta a (id m))).
Proof.
  intros Hs1 Ha Hnd Hn Hm.
  split; [rewrite Ha, Hs1; apply execute_phases |].
  pose proof (execute_angles_sameButTheta s1) as Hframe. rewrite <- Ha in Hframe.
  destruct (sameButTheta_fields _ _ Hframe)
    as (Hg & Hrow & Hrad & Hmin & Hmax & Hcx & _ & Hroot & Hdist).
  destruct (execute_rows_fields s1) as (Hg1 & _ & Hroot1 & _).
  rewrite (steepestGradients_frame _ _ Hframe).
  destruct (limits_frame _ _ (fst (steepestGradients (execute_rows s1)))
              (snd (steepestGradients (execute_rows s1))) i Hframe) as [-> ->].
  assert (Hth : forall k, In k (row_get (row a) i) ->
                theta a (id k)
                = polarAngle (fst (steepestGradients (execute_rows s1)))
                    (snd (steepestGradients (execute_rows s1))) (execute_rows s1) i k).
  { intros k Hk. rewrite Ha. unfold execute_angles. apply assignTheta_node.
    - unfold distinctNodes in *. now rewrite <- Hrow.
    - now rewrite <- Hrow. }
  rewrite (Hth n Hn), (Hth m Hm). rewrite Hg, Hdist.
  split; [reflexivity |]. split.
  { intros Hlen. apply (execute_rows_written s1 i n).
    - rewrite Hs1 at 1. exact Hlen.
    - now rewrite <- Hrow. }
  intros Hi Hpos.
  assert (Hcover : forall k, In k (row_get (row a) i) ->
             xLeftLimit (fst (steepestGradients (execute_rows s1))) (execute_rows s1) i
             <= x (geometry (execute_rows s1) (cell k)) /\
             x (geometry (execute_rows s1) (cell k))
             + width (geometry (execute_rows s1) (cell k))
             <= xRightLimit (snd (steepestGradients (execute_rows s1))) (execute_rows s1) i /\
             0 <= width (geometry (execute_rows s1) (cell k)) /\
             0 < num_get (rowRadi (execute_rows s1)) i).
  { intros k Hk. destruct (Hpos k Hk) as [Hw _].
    rewrite Hrow in Hk.
    destruct (execute_rows_cover s1 i k Hi Hk) as (Hi' & Hlo & Hhi & last & Hlast & Hr).
    rewrite <- Hrow in Hlast. destruct (Hpos last Hlast) as [_ Hy].
    rewrite Hroot, Hg1, Hroot1 in Hy. rewrite Hg1.
    destruct (limits_cover_row (execute_rows s1) i (geometry s1 (cell k)))
      as [Hl Hrr]; try assumption; [rewrite Hr; lra |].
    rewrite Hg1 in Hw. repeat split; try assumption. rewrite Hr. lra. }
  destruct (Hcover n Hn) as (Hln & Hrn & Hwn & Hradius).
  destruct (Hcover m Hm) as (Hlm & Hrm & Hwm & _).
  split; [| split].
  - intros Hw. destruct (polarAngle_range _ _ _ i n Hln Hrn Hwn) as [[H0 _] H1]; [lra |].
    split; [exact H0 | now apply H1].
  - intros Hdistance. apply polarAngle_range; try assumption.
    destruct (steepestGradients_bounds (execute_rows s1)) as (Hleft & Hright & _).
    unfold xLeftLimit, xRightLimit.
    pose proof (Rmult_le_pos _ _ Hleft (Rlt_le _ _ Hradius)).
    pose proof (Rmult_le_pos _ _ Hright (Rlt_le _ _ Hradius)). lra.
  - intros Hc. apply polarAngle_monotone; [lra | exact Hc].
Qed.

Lemma sample_angles_fields :
  row (execute_angles sampleStart) = [[nodeA; nodeB]; [nodeC]] /\
  geometry (execute_angles sampleStart) = geometry sampleStart /\
  root (execute_angles sampleStart) = 0%nat.
Proof.
  destruct (sameButTheta_fields _ _ (execute_angles_sameButTheta sampleStart))
    as (Hg & Hrow & _ & _ & _ & _ & _ & Hroot & _).
  destruct (execute_rows_fields sampleStart) as (Hg1 & _ & Hroot1 & _).
  rewrite Hrow, Hg, Hroot, Hg1, Hroot1.
  rewrite execute_rows_fresh by (cbn; lia). repeat split.
Qed.

Lemma polar_angle_assignment_witness :
  0 <= theta (execute_angles sampleStart) (id nodeA) < 2 * PI /\
  theta (execute_angles sampleStart) (id nodeA)
  < theta (execute_angles sampleStart) (id nodeB).
Proof.
  destruct sample_angles_fields as (Hrow & Hg & Hroot).
  assert (Hlen : (length (row (newLayout sampleBounds))
                  <= Nat.max 1 (depth (node sampleStart)))%nat) by (cbn; lia).
  assert (Hnd : distinctNodes (execute_angles sampleStart)).
  { unfold distinctNodes. rewrite Hrow. cbn. repeat constructor; cbn; intuition discriminate. }
  assert (Hpos : forall k,
             In k (row_get (row (execute_angles sampleStart)) 0) ->
             0 <= width (geometry (execute_angles sampleStart) (cell k)) /\
             y (geometry (execute_angles sampleStart) (root (execute_angles sampleStart)))
             < y (geometry (execute_angles sampleStart) (cell k))).
  { intros k. rewrite Hrow, Hg, Hroot. cbn.
    intros [<- | [<- | []]]; cbn; lra. }
  assert (HA : In nodeA (row_get (row (execute_angles sampleStart)) 0))
    by (rewrite Hrow; cbn; now left).
  assert (HB : In nodeB (row_get (row (execute_angles sampleStart)) 0))
    by (rewrite Hrow; cbn; right; now left).
  destruct (polar_angle_assignment sampleCompact 0%nat None (newLayout sampleBounds)
              sampleStart (execute_angles sampleStart) 0%nat nodeA nodeB
              eq_refl eq_refl Hnd HA HB) as (_ & _ & Hwritten & Hangles).
  destruct (Hangles (Hwritten Hlen) Hpos) as (Hrange & _ & Hmono).
  split; [apply Hrange; rewrite Hg; cbn; lra |]. apply Hmono. rewrite Hg. cbn. lra.
Defined.

(** ** C3: reconciliation of parents with their children *)

(** What one step of the inner loop writes: nothing; or, for a node that is
    not the last of its row and lies below the average of its children, the
    minimum of the average and of the next sibling's angle less PI / 10; or,
    for a node that is not the first and lies above the average, the
    maximum of the average and of the previous sibling's angle plus PI / 10. *)
Lemma reconcileNode_write i s j :
  reconcileNode i s j = s \/
  exists n, nth_error (row_get (row s) i) j = Some n /\ child n <> None /\
    ((exists m, nth_error (row_get (row s) i) (S j) = Some m /\
                theta s (id n) < averTheta s n /\
                reconcileNode i s j
                = setTheta n (Rmin (averTheta s n) (theta s (id m) - PI / 10)) s) \/
     (exists j' m, j = S j' /\ nth_error (row_get (row s) i) j' = Some m /\
                   averTheta s n < theta s (id n) /\
                   reconcileNode i s j
                   = setTheta n (Rmax (averTheta s n) (theta s (id m) + PI / 10)) s)).
Proof.
  unfold reconcileNode, averTheta.
  destruct (nth_error (row_get (row s) i) j) as [n |] eqn:En; [| now left].
  pose proof (childrenTheta_counter s n) as Hc.
  destruct (childrenTheta s n) as [totalTheta counter] eqn:Ect. cbn [fst snd] in *.
  destruct (0 <? counter)%nat eqn:Hpos; [| now left].
  apply Nat.ltb_lt in Hpos. rewrite Hc in Hpos. apply chain_nonempty_child in Hpos.
  assert (Hj : (j < length (row_get (row s) i))%nat)
    by (apply nth_error_Some; congruence).
  destruct (Rgtb (totalTheta / INR counter) (theta s (id n))
            && (j <? length (row_get (row s) i) - 1)%nat)%bool eqn:Hup.
  - right. exists n. rewrite Ect. cbn [fst snd].
    split; [reflexivity |]. split; [exact Hpos |]. left.
    apply andb_true_iff in Hup. destruct Hup as [Hgt Hlt].
    apply Nat.ltb_lt in Hlt. unfold Rgtb in Hgt.
    destruct (Rgt_dec _ _) as [Hgt' |]; [| discriminate].
    exists (nth (j + 1) (row_get (row s) i) n). split; [| split; [exact Hgt' | reflexivity]].
    replace (S j) with (j + 1)%nat by lia. apply nth_error_nth'. lia.
  - destruct (Rltb (totalTheta / INR counter) (theta s (id n)) && (0 <? j)%nat)%bool
      eqn:Hdown; [| now left].
    right. exists n. rewrite Ect. cbn [fst snd].
    split; [reflexivity |]. split; [exact Hpos |]. right.
    apply andb_true_iff in Hdown. destruct Hdown as [Hlt Hj0].
    apply Nat.ltb_lt in Hj0. unfold Rltb in Hlt.
    destruct (Rlt_dec _ _) as [Hlt' |]; [| discriminate].
    destruct j as [| j']; [lia |].
    exists j', (nth (S j' - 1) (row_get (row s) i) n).
    split; [reflexivity |]. split; [| split; [exact Hlt' | reflexivity]].
    replace (S j' - 1)%nat with j' by lia. apply nth_error_nth'. lia.
Qed.

Lemma nth_error_row_in (l : list (list TreeNode)) i j n :
  nth_error (row_get l i) j = Some n -> In n (row_get l i).
Proof. apply nth_error_In. Qed.

Lemma distinct_same_position (l : list TreeNode) j j' n n' :
  NoDup (map id l) -> nth_error l j = Some n -> nth_error l j' = Some n' ->
  id n = id n' -> j = j'.
Proof.
  intros Hnd Hn Hn' E.
  apply (proj1 (NoDup_nth_error (map id l)) Hnd).
  - rewrite length_map. apply nth_error_Some. congruence.
  - rewrite !nth_error_map, Hn, Hn'. cbn. now rewrite E.
Qed.

Lemma distinct_row (ls : list (list TreeNode)) i :
  NoDup (map id (concat ls)) -> NoDup (map id (row_get ls i)).
Proof.
  unfold row_get. revert i. induction ls as [| l ls IH]; intros i Hnd.
  - destruct i; constructor.
  - cbn [concat] in Hnd. rewrite map_app in Hnd. destruct i as [| i]; cbn [nth].
    + eapply NoDup_app_remove_r; eauto.
    + apply IH. eapply NoDup_app_remove_l; eauto.
Qed.

(** One step of the inner loop keeps a separated row separated, whatever the
    other rows hold. *)
Lemma reconcileNode_separated i s j i0 :
  distinctNodes s -> separated s i0 -> separated (reconcileNode i s j) i0.
Proof.
  intros Hnd Hsep.
  destruct (reconcileNode_write i s j) as [-> | (n & Hn & _ & Hw)]; [exact Hsep |].
  assert (Hother : forall i' k p, nth_error (row_get (row s) i') k = Some p ->
                                  (i', k) <> (i, j) -> Nat.eqb (id p) (id n) = false).
  { intros i' k p Hp Hneq. apply Nat.eqb_neq. intros E. apply Hneq.
    assert (i' = i) as ->.
    { eapply (distinct_same_row (row s)); [exact Hnd | | | exact E];
        eapply nth_error_row_in; eauto. }
    f_equal. eapply distinct_same_position; [| exact Hp | exact Hn | exact E].
    now apply distinct_row. }
  pose proof PI_RGT_0 as Hpi.
  destruct Hw as [(m & Hm & Hlt & ->) | (j' & m & -> & Hm & Hlt & ->)].
  - (* raised towards the next sibling *)
    intros k p q Hp Hq. cbn [row theta setTheta set_theta] in *.
    destruct (Nat.eq_dec i0 i) as [-> | Hi].
    + destruct (Nat.eq_dec k j) as [-> | Hk].
      * rewrite Hn in Hp. injection Hp as <-. rewrite Hm in Hq. injection Hq as <-.
        rewrite Nat.eqb_refl, (Hother i (S j) m Hm) by (intros E; injection E; lia).
        pose proof (Rmin_r (averTheta s n) (theta s (id m) - PI / 10)). lra.
      * rewrite (Hother i k p Hp) by (intros E; injection E; lia).
        destruct (Nat.eq_dec (S k) j) as [<- | Hk'].
        -- rewrite Hn in Hq. injection Hq as <-. rewrite Nat.eqb_refl.
           pose proof (Hsep k p n Hp Hn). pose proof (Hsep (S k) n m Hn Hm).
           apply Rle_trans with (theta s (id n)); [lra |].
           apply Rmin_glb; lra.
        -- rewrite (Hother i (S k) q Hq) by (intros E; injection E; lia).
           now apply (Hsep k).
    + rewrite (Hother i0 k p Hp), (Hother i0 (S k) q Hq)
        by (intros E; injection E; intros; contradiction).
      now apply (Hsep k).
  - (* lowered towards the previous sibling *)
    intros k p q Hp Hq. cbn [row theta setTheta set_theta] in *.
    destruct (Nat.eq_dec i0 i) as [-> | Hi].
    + destruct (Nat.eq_dec k j') as [-> | Hk].
      * rewrite Hm in Hp. injection Hp as <-. rewrite Hn in Hq. injection Hq as <-.
        rewrite Nat.eqb_refl, (Hother i j' m Hm) by (intros E; injection E; lia).
        pose proof (Rmax_r (averTheta s n) (theta s (id m) + PI / 10)). lra.
      * rewrite (Hother i (S k) q Hq) by (intros E; injection E; lia).
        destruct (Nat.eq_dec k (S j')) as [-> | Hk'].
        -- rewrite Hn in Hp. injection Hp as <-. rewrite Nat.eqb_refl.
           pose proof (Hsep j' m n Hm Hn). pose proof (Hsep (S j') n q Hn Hq).
           apply Rle_trans with (theta s (id n) + PI / 10); [| lra].
           apply Rplus_le_compat_r. apply Rmax_lub; lra.
        -- rewrite (Hother i k p Hp) by (intros E; injection E; lia).
           now apply (Hsep k).
    + rewrite (Hother i0 k p Hp), (Hother i0 (S k) q Hq)
        by (intros E; injection E; intros; contradiction).
      now apply (Hsep k).
Qed.

Lemma reconcile_separated s i0 :
  distinctNodes s -> separated s i0 -> separated (reconcile s) i0.
Proof.
  intros Hnd Hsep.
  set (Inv := fun s' : Layout => row s' = row s /\ separated s' i0).
  enough (H : Inv (reconcile s)) by apply H.
  unfold reconcile. apply fold_left_invariant; [| now split].
  intros s1 i _ H1. unfold reconcileRow. apply fold_left_invariant; [| exact H1].
  intros s2 j _ [Hrow2 Hsep2]. split.
  - now rewrite reconcileNode_row.
  - apply reconcileNode_separated; [| exact Hsep2].
    unfold distinctNodes in *. now rewrite Hrow2.
Qed.

(** What one step writes, case by case. *)
Lemma reconcileNode_leaf i s j n :
  nth_error (row_get (row s) i) j = Some n -> child n = None -> reconcileNode i s j = s.
Proof.
  intros Hn Hleaf.
  destruct (reconcileNode_cases i s j) as [E | (n' & v & Hn' & Hch & _)]; [exact E |].
  congruence.
Qed.

Lemma reconcileNode_raise i s j n m :
  nth_error (row_get (row s) i) j = Some n ->
  nth_error (row_get (row s) i) (S j) = Some m ->
  child n <> None ->
  theta s (id n) < averTheta s n ->
  reconcileNode i s j = setTheta n (Rmin (averTheta s n) (theta s (id m) - PI / 10)) s.
Proof.
  intros Hn Hm Hch Hlt. unfold reconcileNode. rewrite Hn.
  pose proof (childrenTheta_counter s n) as Hc. unfold averTheta in *.
  destruct (childrenTheta s n) as [t c]. cbn [fst snd] in *.
  assert (Hpos : (0 <? c)%nat = true).
  { apply Nat.ltb_lt. rewrite Hc. destruct (child n) as [k |]; [| congruence].
    destruct k. cbn. lia. }
  assert (Hj : (j <? length (row_get (row s) i) - 1)%nat = true).
  { apply Nat.ltb_lt. assert (S j < length (row_get (row s) i))%nat; [| lia].
    apply nth_error_Some. congruence. }
  rewrite Hpos, Hj. unfold Rgtb.
  destruct (Rgt_dec (t / INR c) (theta s (id n))) as [_ | Hn0]; [| now elim Hn0].
  cbn [andb]. replace (S j) with (j + 1)%nat in Hm by lia.
  now rewrite (nth_error_nth _ _ n Hm).
Qed.

Lemma reconcileNode_lower i s j n m :
  nth_error (row_get (row s) i) (S j) = Some n ->
  nth_error (row_get (row s) i) j = Some m ->
  child n <> None ->
  averTheta s n < theta s (id n) ->
  reconcileNode i s (S j) = setTheta n (Rmax (averTheta s n) (theta s (id m) + PI / 10)) s.
Proof.
  intros Hn Hm Hch Hlt. unfold reconcileNode. rewrite Hn.
  pose proof (childrenTheta_counter s n) as Hc. unfold averTheta in *.
  destruct (childrenTheta s n) as [t c]. cbn [fst snd] in *.
  assert (Hpos : (0 <? c)%nat = true).
  { apply Nat.ltb_lt. rewrite Hc. destruct (child n) as [k |]; [| congruence].
    destruct k. cbn. lia. }
  rewrite Hpos. unfold Rgtb, Rltb.
  destruct (Rgt_dec (t / INR c) (theta s (id n))) as [Hgt | _]; [lra |].
  destruct (Rlt_dec (t / INR c) (theta s (id n))) as [_ | Hn0]; [| now elim Hn0].
  cbn [andb Nat.ltb Nat.leb]. replace (S j - 1)%nat with j by lia.
  now rewrite (nth_error_nth _ _ n Hm).
Qed.

Lemma reconcileNode_stays i s j n :
  nth_error (row_get (row s) i) j = Some n ->
  averTheta s n = theta s (id n) \/
  (theta s (id n) < averTheta s n /\ nth_error (row_get (row s) i) (S j) = None) \/
  (averTheta s n < theta s (id n) /\ j = 0%nat) ->
  reconcileNode i s j = s.
Proof.
  intros Hn H.
  destruct (reconcileNode_write i s j) as [E | (n' & Hn' & _ & Hw)]; [exact E |].
  rewrite Hn in Hn'. injection Hn' as <-.
  destruct Hw as [(m & Hm & Hlt & _) | (j' & m & -> & _ & Hlt & _)];
    destruct H as [H | [[H H'] | [H H']]]; try lra; congruence.
Qed.

(** C3 (amended): a step of the reconciliation at a node with children sets
    the angle of the node to the minimum of the children's average and the
    next sibling's angle less PI / 10 when the node lies below the average
    and is not last in its row, to the maximum of the average and the
    previous sibling's angle plus PI / 10 when it lies above the average and
    is not first, and leaves it alone in every other case; a step at a node
    without children writes nothing.  When the adjacent siblings of a row
    are at least PI / 10 apart before the pass, those of that row are at
    least PI / 10 apart, in the same order, after it, whatever the other rows
    hold. *)
Theorem reconcile_keeps_separation s i0 :
  distinctNodes s -> separated s i0 ->
  separated (reconcile s) i0 /\
  row (reconcile s) = row s /\
  (forall i s' j n,
      nth_error (row_get (row s') i) j = Some n ->
      (child n = None -> reconcileNode i s' j = s') /\
      (child n <> None ->
       (forall m, nth_error (row_get (row s') i) (S j) = Some m ->
                  theta s' (id n) < averTheta s' n ->
                  reconcileNode i s' j
                  = setTheta n (Rmin (averTheta s' n) (theta s' (id m) - PI / 10)) s') /\
       (forall j' m, j = S j' -> nth_error (row_get (row s') i) j' = Some m ->
                     averTheta s' n < theta s' (id n) ->
                     reconcileNode i s' j
                     = setTheta n (Rmax (averTheta s' n) (theta s' (id m) + PI / 10)) s') /\
       (averTheta s' n = theta s' (id n) \/
        (theta s' (id n) < averTheta s' n /\
         nth_error (row_get (row s') i) (S j) = None) \/
        (averTheta s' n < theta s' (id n) /\ j = 0%nat) ->
        reconcileNode i s' j = s'))).
Proof.
  intros Hnd Hsep. split; [now apply reconcile_separated |].
  split; [apply reconcile_row |].
  intros i s' j n Hn. split; [now apply reconcileNode_leaf |].
  intros Hch. split; [| split].
  - intros m Hm Hlt. now apply reconcileNode_raise.
  - intros j' m -> Hm Hlt. now apply reconcileNode_lower.
  - now apply reconcileNode_stays.
Qed.

Lemma reconcile_keeps_separation_witness :
  distinctNodes sampleSeparated /\ separated sampleSeparated 0 /\
  separated (reconcile sampleSeparated) 0.
Proof.
  assert (Hnd : distinctNodes sampleSeparated).
  { unfold distinctNodes. cbn. repeat constructor; cbn; intuition discriminate. }
  assert (Hsep : separated sampleSeparated 0).
  { intros j n m Hn Hm. pose proof PI_4.
    destruct j as [| [| j]]; cbn in Hn, Hm; try discriminate.
    injection Hn as <-. injection Hm as <-. cbn. lra. }
  split; [exact Hnd |]. split; [exact Hsep |].
  exact (proj1 (reconcile_keeps_separation sampleSeparated 0%nat Hnd Hsep)).
Defined.

Ltac rminmax :=
  repeat match goal with
    | |- context [Rmin ?a ?b] =>
        first [rewrite (Rmin_left a b) by lra | rewrite (Rmin_right a b) by lra]
    | |- context [Rmax ?a ?b] =>
        first [rewrite (Rmax_left a b) by lra | rewrite (Rmax_right a b) by lra]
    end.

(** *** The run of execute on the second sample, phase by phase *)

Lemma wide_rows : row (execute_rows wideStart) = [[nodeP0; nodeP1; nodeP2; nodeP3]; [nodeW]].
Proof. rewrite execute_rows_fresh by (cbn; lia). reflexivity. Qed.

Lemma wide_dims :
  dims (execute_rows wideStart) 0 = (-55, 55, -45, 45, 50) /\
  dims (execute_rows wideStart) 1 = (-1505, 1475, -15, 0, 100).
Proof.
  assert (H0 : (0 < Nat.max 1 (depth (node wideStart)))%nat) by (vm_compute; lia).
  assert (H1 : (1 < Nat.max 1 (depth (node wideStart)))%nat) by (vm_compute; lia).
  destruct (execute_rows_dims wideStart 0 H0) as [_ E0].
  destruct (execute_rows_dims wideStart 1 H1) as [_ E1].
  rewrite E0, E1. clear.
  unfold dimsOf. cbn. unfold rightEdge, centreX. cbn [x width].
  rminmax. split; repeat f_equal; lra.
Qed.

Lemma wide_fields :
  centerX (execute_rows wideStart) = 0 /\ centerY (execute_rows wideStart) = 10 /\
  nodeDistance (execute_rows wideStart) = 10 /\
  geometry (execute_rows wideStart) = geometry wideStart.
Proof.
  destruct (execute_rows_fields wideStart) as (Hg & _ & _ & _ & Hcx & Hcy & Hnd).
  rewrite Hcx, Hcy, Hnd, Hg. cbn. repeat split; lra.
Qed.

Lemma wide_gradients :
  steepestGradients (execute_rows wideStart) = (299 / 20, 293 / 20).
Proof.
  destruct wide_dims as [D0 D1]. destruct wide_fields as (Hcx & _ & Hnd & _).
  pose proof wide_rows as Hrow.
  revert D0 D1 Hcx Hnd Hrow. generalize (execute_rows wideStart). intros r D0 D1 Hcx Hnd Hrow.
  unfold dims in D0, D1. injection D0 as A0 B0 _ _ R0. injection D1 as A1 B1 _ _ R1.
  unfold steepestGradients. rewrite Hrow. cbn [length seq fold_left].
  rewrite A0, B0, R0, A1, B1, R1, Hcx, Hnd.
  rminmax. f_equal; lra.
Qed.

Lemma wide_distinct : distinctNodes (execute_rows wideStart).
Proof.
  unfold distinctNodes. rewrite wide_rows. cbn.
  repeat constructor; cbn; intuition discriminate.
Qed.

Lemma wide_angle i n q :
  In n (row_get (row (execute_rows wideStart)) i) ->
  (x (wideBounds (cell n)) + width (wideBounds (cell n)) / 2
   - (0 - 10 - 299 / 20 * num_get (rowRadi (execute_rows wideStart)) i))
  / (0 + 10 + 293 / 20 * num_get (rowRadi (execute_rows wideStart)) i
     - (0 - 10 - 299 / 20 * num_get (rowRadi (execute_rows wideStart)) i)) = q ->
  (cell n <= 5)%nat ->
  theta (execute_angles wideStart) (id n) = 2 * PI * q.
Proof.
  intros Hn Hq Hc. unfold execute_angles. rewrite wide_gradients. cbn [fst snd].
  rewrite (assignTheta_node _ _ _ i n wide_distinct Hn).
  destruct wide_fields as (Hcx & _ & Hnd & Hg).
  unfold polarAngle, xLeftLimit, xRightLimit, getVertexBounds. cbv zeta.
  rewrite Hcx, Hnd, Hg. 
  replace (geometry wideStart (cell n)) with (wideBounds (cell n)).
  - now rewrite Hq.
  - unfold wideStart, super_execute. cbv zeta. cbn [geometry set_geometry wideCompact c_bounds].
    apply Nat.leb_le in Hc. now rewrite Hc.
Qed.

Lemma wide_radii :
  num_get (rowRadi (execute_rows wideStart)) 0 = 50 /\
  num_get (rowRadi (execute_rows wideStart)) 1 = 100.
Proof.
  destruct wide_dims as [D0 D1]. revert D0 D1. generalize (execute_rows wideStart).
  intros r D0 D1. unfold dims in D0, D1.
  injection D0 as _ _ _ _ R0. injection D1 as _ _ _ _ R1. now split.
Qed.

Lemma wide_angles :
  theta (execute_angles wideStart) (id nodeP0) = 2 * PI * (19 / 40) /\
  theta (execute_angles wideStart) (id nodeP1) = 2 * PI * (99 / 200) /\
  theta (execute_angles wideStart) (id nodeP2) = 2 * PI * (103 / 200) /\
  theta (execute_angles wideStart) (id nodeW) = 2 * PI * (1 / 2).
Proof.
  destruct wide_radii as [R0 R1].
  repeat split.
  - apply (wide_angle 0); [rewrite wide_rows; cbn; tauto | rewrite R0; cbn; lra | cbn; lia].
  - apply (wide_angle 0); [rewrite wide_rows; cbn; tauto | rewrite R0; cbn; lra | cbn; lia].
  - apply (wide_angle 0); [rewrite wide_rows; cbn; tauto | rewrite R0; cbn; lra | cbn; lia].
  - apply (wide_angle 1); [rewrite wide_rows; cbn; tauto | rewrite R1; cbn; lra | cbn; lia].
Qed.

Lemma wide_reconciled :
  theta (reconcile (execute_angles wideStart)) (id nodeP0) = 2 * PI * (19 / 40) /\
  theta (reconcile (execute_angles wideStart)) (id nodeP1)
  = Rmin (2 * PI * (1 / 2)) (2 * PI * (103 / 200) - PI / 10).
Proof.
  destruct wide_angles as (T0 & T1 & T2 & TW).
  assert (Hrow : row (execute_angles wideStart) = [[nodeP0; nodeP1; nodeP2; nodeP3]; [nodeW]]).
  { destruct (sameButTheta_fields _ _ (execute_angles_sameButTheta wideStart)) as (_ & -> & _).
    apply wide_rows. }
  revert T0 T1 T2 TW Hrow. generalize (execute_angles wideStart). intros a T0 T1 T2 TW Hrow.
  unfold reconcile. rewrite Hrow. cbn [length Nat.sub seq rev app fold_left].
  unfold reconcileRow. rewrite Hrow. cbn [row_get nth length seq fold_left].
  rewrite (reconcileNode_leaf 0 a 0 nodeP0) by (rewrite ?Hrow; reflexivity).
  assert (Haver : averTheta a nodeP1 = 2 * PI * (1 / 2)).
  { unfold averTheta, childrenTheta. cbn. cbn in TW. rewrite TW. lra. }
  pose proof PI_RGT_0.
  rewrite (reconcileNode_raise 0 a 1 nodeP1 nodeP2);
    [| rewrite Hrow; reflexivity | rewrite Hrow; reflexivity | discriminate | rewrite Haver, T1; lra].
  rewrite Haver, T2.
  rewrite (reconcileNode_leaf 0 _ 2 nodeP2) by (cbn [row setTheta set_theta]; rewrite ?Hrow; reflexivity).
  rewrite (reconcileNode_leaf 0 _ 3 nodeP3) by (cbn [row setTheta set_theta]; rewrite ?Hrow; reflexivity).
  cbn [theta setTheta set_theta]. cbn [id nodeP0 nodeP1 Nat.eqb]. split; [exact T0 | reflexivity].
Qed.

(** C3 as stated fails on the second sample.  The siblings P0 and P1 are
    assigned angles less than PI / 10 apart; the pass clamps P1 against its
    next sibling P2, which puts P1 below P0: the order of P0 and P1 is
    inverted, and they are not PI / 10 apart although P1 was clamped. *)
Lemma reconciliation_inverts_close_siblings :
  exists f,
    f = execute wideCompact 0%nat None (newLayout wideBounds) /\
    nth_error (row_get (row f) 0) 0 = Some nodeP0 /\
    nth_error (row_get (row f) 0) 1 = Some nodeP1 /\
    theta (execute_angles wideStart) (id nodeP0)
    < theta (execute_angles wideStart) (id nodeP1) /\
    theta f (id nodeP1) <> theta (execute_angles wideStart) (id nodeP1) /\
    theta f (id nodeP1) < theta f (id nodeP0).
Proof.
  exists (execute wideCompact 0%nat None (newLayout wideBounds)).
  split; [reflexivity |].
  destruct (execute_fields wideCompact 0%nat None (newLayout wideBounds) _ _
              eq_refl eq_refl) as (Hrow & _ & _ & _ & _ & Hth).
  fold wideStart in Hrow, Hth. rewrite wide_rows in Hrow.
  destruct wide_angles as (T0 & T1 & _ & _). destruct wide_reconciled as (F0 & F1).
  rewrite <- Hth in F0, F1. revert Hrow F0 F1.
  generalize (execute wideCompact 0%nat None (newLayout wideBounds)). intros f Hrow F0 F1.
  rewrite Hrow, F0, F1, T0, T1. pose proof PI_RGT_0.
  pose proof (Rmin_r (2 * PI * (1 / 2)) (2 * PI * (103 / 200) - PI / 10)).
  repeat split; lra.
Qed.

(** ** C7: a layout instance that is used again *)

Lemma two_rows (l : list (list TreeNode)) a b :
  length l = 2%nat -> row_get l 0 = a -> row_get l 1 = b -> l = [a; b].
Proof.
  destruct l as [| r0 [| r1 [| r2 l]]]; cbn; intros Hlen Ha Hb; try discriminate.
  now subst.
Qed.

(** The rows after calcRowDims in a run on the tree B, on an instance that
    still holds the row of A2. *)
Lemma runB_rows s r0 d :
  row s = [r0; [nodeA2]] -> dims s 1 = d -> nodeDistance s = 10 ->
  row (execute_rows (startB s)) = [[nodeB1]; [nodeA2]] /\
  dims (execute_rows (startB s)) 0 = (10, 30, 20, 20, 20) /\
  dims (execute_rows (startB s)) 1 = d /\
  centerX (execute_rows (startB s)) = 20 /\
  centerY (execute_rows (startB s)) = 105 /\
  nodeDistance (execute_rows (startB s)) = 10 /\
  geometry (execute_rows (startB s)) = geometry (startB s).
Proof.
  intros Hrow Hd Hnd.
  destruct (execute_rows_spec (startB s)) as [_ Hl Hout Hin].
  destruct (execute_rows_fields (startB s)) as (Hg & _ & _ & _ & Hcx & Hcy & Hnd').
  change (rowCount [node (startB s)]) with 1%nat in *.
  change (row (execute_center (startB s))) with (row s) in *.
  change (dims (execute_center (startB s))) with (dims s) in *.
  destruct (Hin 0%nat) as [Hr0 Hd0]; [lia |]. destruct (Hout 1%nat) as [Hd1 Hr1]; [lia |].
  cbn [Nat.add] in *. rewrite Hrow in Hl, Hr1. cbn in Hl, Hr1.
  revert Hl Hr0 Hd0 Hd1 Hr1 Hg Hcx Hcy Hnd'. generalize (execute_rows (startB s)).
  intros r Hl Hr0 Hd0 Hd1 Hr1 Hg Hcx Hcy Hnd'.
  split; [apply two_rows; assumption |].
  split.
  { rewrite Hd0. unfold dimsOf. cbn. unfold rightEdge, centreX. cbn [x width].
    rminmax. repeat f_equal; lra. }
  split; [now rewrite Hd1 |].
  rewrite Hcx, Hcy, Hnd', Hg. cbn. repeat split; lra.
Qed.

Lemma runB_gradients s r0 c3 c4 :
  row s = [r0; [nodeA2]] -> dims s 1 = (-10, 10, c3, c4, 40) -> nodeDistance s = 10 ->
  steepestGradients (execute_rows (startB s)) = (1 / 2, 0).
Proof.
  intros Hrow Hd Hnd.
  destruct (runB_rows s r0 _ Hrow Hd Hnd) as (Hr & D0 & D1 & Hcx & _ & Hnd' & _).
  revert Hr D0 D1 Hcx Hnd'. generalize (execute_rows (startB s)). intros r Hr D0 D1 Hcx Hnd'.
  unfold dims in D0, D1. injection D0 as A0 B0 _ _ R0. injection D1 as A1 B1 _ _ R1.
  unfold steepestGradients. rewrite Hr. cbn [length seq fold_left].
  rewrite A0, B0, R0, A1, B1, R1, Hcx, Hnd'.
  rminmax. f_equal; lra.
Qed.

Lemma sameButTheta_dims s f j : sameButTheta s f -> dims f j = dims s j.
Proof. unfold sameButTheta. intros ->. reflexivity. Qed.

Lemma setLocations_dims s j : dims (setLocations s) j = dims s j.
Proof. rewrite setLocations_closed. reflexivity. Qed.

(** The bound of A2 after a run on the tree B. *)
Lemma runB_moves_A2 s r0 c3 c4 px py :
  row s = [r0; [nodeA2]] -> dims s 1 = (-10, 10, c3, c4, 40) -> nodeDistance s = 10 ->
  geometry s 2%nat = Rect px py 20 10 ->
  row (runB s) = [[nodeB1]; [nodeA2]] /\
  dims (runB s) 1 = (-10, 10, c3, c4, 40) /\
  nodeDistance (runB s) = 10 /\
  geometry (runB s) 2%nat
  = Rect (10 + 40 * cos (2 * PI * ((px + 20) / 40)))
         (100 + 40 * sin (2 * PI * ((px + 20) / 40))) 20 10.
Proof.
  intros Hrow Hd Hnd Hgeo.
  destruct (runB_rows s r0 _ Hrow Hd Hnd) as (Hr & _ & D1 & Hcx & Hcy & Hnd' & Hg).
  pose proof (runB_gradients s r0 c3 c4 Hrow Hd Hnd) as Hgrad.
  assert (Hdist : distinctNodes (execute_rows (startB s))).
  { unfold distinctNodes. rewrite Hr. cbn. repeat constructor; cbn; intuition discriminate. }
  assert (HinA2 : In nodeA2 (row_get (row (execute_rows (startB s))) 1))
    by (rewrite Hr; cbn; now left).
  (* the angle of A2 *)
  assert (Hth : theta (execute_angles (startB s)) (id nodeA2) = 2 * PI * ((px + 20) / 40)).
  { unfold execute_angles. rewrite Hgrad. cbn [fst snd].
    rewrite (assignTheta_node _ _ _ 1 nodeA2 Hdist HinA2).
    unfold polarAngle, xLeftLimit, xRightLimit, getVertexBounds. cbv zeta.
    assert (R1 : num_get (rowRadi (execute_rows (startB s))) 1 = 40).
    { revert D1. generalize (execute_rows (startB s)). intros r D1.
      unfold dims in D1. now injection D1. }
    rewrite Hcx, Hnd', Hg, R1.
    replace (geometry (startB s) (cell nodeA2)) with (Rect px py 20 10)
      by (rewrite <- Hgeo; reflexivity).
    cbn [x width]. f_equal. lra. }
  (* the frames of the later phases *)
  pose proof (execute_angles_sameButTheta (startB s)) as Hf1.
  pose proof (reconcile_sameButTheta (execute_angles (startB s))) as Hf2.
  destruct (sameButTheta_fields _ _ Hf1) as (Hg1 & Hr1 & Hrad1 & Hmin1 & Hmax1 & Hcx1 & Hcy1 & _ & Hnd1).
  destruct (sameButTheta_fields _ _ Hf2) as (Hg2 & Hr2 & Hrad2 & Hmin2 & Hmax2 & Hcx2 & Hcy2 & _ & Hnd2).
  assert (Hth2 : theta (reconcile (execute_angles (startB s))) (id nodeA2)
                 = 2 * PI * ((px + 20) / 40)).
  { rewrite <- Hth. apply (reconcile_unchanged _ 1).
    - unfold distinctNodes in *. now rewrite Hr1.
    - now rewrite Hr1.
    - now left. }
  assert (Hd4 : dims (reconcile (execute_angles (startB s))) 1 = (-10, 10, c3, c4, 40)).
  { rewrite <- D1. rewrite (sameButTheta_dims _ _ 1 Hf2). apply (sameButTheta_dims _ _ 1 Hf1). }
  assert (Hrun : runB s = setLocations (reconcile (execute_angles (startB s))))
    by (unfold runB, startB; apply execute_phases).
  revert Hg2 Hr2 Hcx2 Hcy2 Hnd2 Hth2 Hd4 Hrun.
  generalize (reconcile (execute_angles (startB s))).
  intros s4 Hg2 Hr2 Hcx2 Hcy2 Hnd2 Hth2 Hd4 Hrun.
  assert (Hrow4 : row s4 = [[nodeB1]; [nodeA2]]) by congruence.
  assert (Hgeo4 : geometry s4 2%nat = Rect px py 20 10).
  { rewrite Hg2, Hg1, Hg, <- Hgeo. reflexivity. }
  rewrite Hrun. destruct (setLocations_fields s4) as (Hr5 & _ & _ & _ & _ & _).
  split; [congruence |].
  split; [rewrite setLocations_dims; exact Hd4 |].
  split; [rewrite setLocations_closed; cbn [nodeDistance set_geometry]; congruence |].
  change 2%nat with (cell nodeA2) at 1.
  rewrite (setLocations_node s4 1 nodeA2);
    [| rewrite Hrow4; cbn; repeat constructor; cbn; intuition discriminate
     | rewrite Hrow4; cbn; now left].
  unfold emitted. cbv zeta. change (cell nodeA2) with 2%nat. rewrite Hgeo4, Hth2.
  cbn [width height].
  assert (R1 : num_get (rowRadi s4) 1 = 40) by (unfold dims in Hd4; now injection Hd4).
  rewrite R1. replace (centerX s4) with 20 by congruence.
  replace (centerY s4) with 105 by congruence.
  f_equal; lra.
Qed.

Lemma runA_rows :
  row (execute_rows startA) = [[nodeA1]; [nodeA2]] /\
  dims (execute_rows startA) 0 = (-10, 10, 0, 0, 20) /\
  dims (execute_rows startA) 1 = (-10, 10, 0, 0, 40) /\
  centerX (execute_rows startA) = 0 /\ centerY (execute_rows startA) = 5 /\
  nodeDistance (execute_rows startA) = 10 /\
  geometry (execute_rows startA) = geometry startA.
Proof.
  assert (H0 : (0 < Nat.max 1 (depth (node startA)))%nat) by (vm_compute; lia).
  assert (H1 : (1 < Nat.max 1 (depth (node startA)))%nat) by (vm_compute; lia).
  destruct (execute_rows_dims startA 0 H0) as [_ E0].
  destruct (execute_rows_dims startA 1 H1) as [_ E1].
  destruct (execute_rows_fields startA) as (Hg & _ & _ & _ & Hcx & Hcy & Hnd).
  split; [rewrite execute_rows_fresh by (cbn; lia); reflexivity |].
  rewrite E0, E1, Hcx, Hcy, Hnd, Hg. clear.
  unfold dimsOf. cbn. unfold rightEdge, centreX. cbn [x width].
  rminmax. repeat split; repeat f_equal; lra.
Qed.

Lemma runA_gradients : steepestGradients (execute_rows startA) = (0, 0).
Proof.
  destruct runA_rows as (Hr & D0 & D1 & Hcx & _ & Hnd & _).
  revert Hr D0 D1 Hcx Hnd. generalize (execute_rows startA). intros r Hr D0 D1 Hcx Hnd.
  unfold dims in D0, D1. injection D0 as A0 B0 _ _ R0. injection D1 as A1 B1 _ _ R1.
  unfold steepestGradients. rewrite Hr. cbn [length seq fold_left].
  rewrite A0, B0, R0, A1, B1, R1, Hcx, Hnd.
  rminmax. f_equal; lra.
Qed.

(** The instance after the run on the tree A. *)
Lemma runA_result :
  row runA = [[nodeA1]; [nodeA2]] /\
  dims runA 1 = (-10, 10, 0, 0, 40) /\
  nodeDistance runA = 10 /\
  geometry runA 2%nat = Rect (-50) 0 20 10.
Proof.
  destruct runA_rows as (Hr & _ & D1 & Hcx & Hcy & Hnd & Hg).
  pose proof runA_gradients as Hgrad.
  assert (Hdist : distinctNodes (execute_rows startA)).
  { unfold distinctNodes. rewrite Hr. cbn. repeat constructor; cbn; intuition discriminate. }
  assert (HinA2 : In nodeA2 (row_get (row (execute_rows startA)) 1))
    by (rewrite Hr; cbn; now left).
  assert (R1 : num_get (rowRadi (execute_rows startA)) 1 = 40).
  { revert D1. generalize (execute_rows startA). intros r D1.
    unfold dims in D1. now injection D1. }
  assert (Hth : theta (execute_angles startA) (id nodeA2) = PI).
  { unfold execute_angles. rewrite Hgrad. cbn [fst snd].
    rewrite (assignTheta_node _ _ _ 1 nodeA2 Hdist HinA2).
    unfold polarAngle, xLeftLimit, xRightLimit, getVertexBounds. cbv zeta.
    rewrite Hcx, Hnd, Hg, R1.
    replace (geometry startA (cell nodeA2)) with (Rect (-10) 40 20 10) by reflexivity.
    cbn [x width]. lra. }
  pose proof (execute_angles_sameButTheta startA) as Hf1.
  pose proof (reconcile_sameButTheta (execute_angles startA)) as Hf2.
  destruct (sameButTheta_fields _ _ Hf1) as (Hg1 & Hr1 & _ & _ & _ & Hcx1 & Hcy1 & _ & Hnd1).
  destruct (sameButTheta_fields _ _ Hf2) as (Hg2 & Hr2 & _ & _ & _ & Hcx2 & Hcy2 & _ & Hnd2).
  assert (Hth2 : theta (reconcile (execute_angles startA)) (id nodeA2) = PI).
  { rewrite <- Hth. apply (reconcile_unchanged _ 1).
    - unfold distinctNodes in *. now rewrite Hr1.
    - now rewrite Hr1.
    - now left. }
  assert (Hd4 : dims (reconcile (execute_angles startA)) 1 = (-10, 10, 0, 0, 40)).
  { rewrite <- D1. rewrite (sameButTheta_dims _ _ 1 Hf2). apply (sameButTheta_dims _ _ 1 Hf1). }
  assert (Hrun : runA = setLocations (reconcile (execute_angles startA)))
    by (unfold runA, startA; apply execute_phases).
  assert (Hgeo : geometry (reconcile (execute_angles startA)) 2%nat = Rect (-10) 40 20 10).
  { rewrite Hg2, Hg1, Hg. reflexivity. }
  revert Hg2 Hr2 Hcx2 Hcy2 Hnd2 Hth2 Hd4 Hrun Hgeo.
  generalize (reconcile (execute_angles startA)).
  intros s4 Hg2 Hr2 Hcx2 Hcy2 Hnd2 Hth2 Hd4 Hrun Hgeo4.
  assert (Hrow4 : row s4 = [[nodeA1]; [nodeA2]]) by congruence.
  rewrite Hrun. destruct (setLocations_fields s4) as (Hr5 & _ & _ & _ & _ & _).
  split; [congruence |].
  split; [rewrite setLocations_dims; exact Hd4 |].
  split; [rewrite setLocations_closed; cbn [nodeDistance set_geometry]; congruence |].
  change 2%nat with (cell nodeA2) at 1.
  rewrite (setLocations_node s4 1 nodeA2);
    [| rewrite Hrow4; cbn; repeat constructor; cbn; intuition discriminate
     | rewrite Hrow4; cbn; now left].
  unfold emitted. cbv zeta. change (cell nodeA2) with 2%nat. rewrite Hgeo4, Hth2.
  cbn [width height].
  assert (R4 : num_get (rowRadi s4) 1 = 40) by (unfold dims in Hd4; now injection Hd4).
  rewrite R4, cos_PI, sin_PI. replace (centerX s4) with 0 by congruence.
  replace (centerY s4) with 5 by congruence.
  f_equal; lra.
Qed.

Lemma quarter_turns :
  cos (2 * PI * ((-50 + 20) / 40)) = 0 /\ sin (2 * PI * ((-50 + 20) / 40)) = 1 /\
  cos (2 * PI * ((10 + 20) / 40)) = 0 /\ sin (2 * PI * ((10 + 20) / 40)) = -1.
Proof.
  replace (2 * PI * ((-50 + 20) / 40)) with (- (3 * (PI / 2))) by lra.
  replace (2 * PI * ((10 + 20) / 40)) with (3 * (PI / 2)) by lra.
  rewrite cos_neg, sin_neg, cos_3PI2, sin_3PI2. repeat split; lra.
Qed.

(** C7 fails on an instance that was used before on a deeper tree: the row of
    A2 stays in [this.row], so every later run on the tree B moves the vertex
    A2 again, from the position the run before gave it.  The second of two
    successive runs of [execute(parent, B0)] puts A2 at y = 60, the first at
    y = 140. *)
Theorem execute_twice_on_reused_instance :
  geometry (runB runA) 2%nat = Rect 10 140 20 10 /\
  geometry (runB (runB runA)) 2%nat = Rect 10 60 20 10 /\
  y (geometry (runB (runB runA)) 2%nat) <> y (geometry (runB runA) 2%nat).
Proof.
  destruct runA_result as (Hr & Hd & Hnd & Hg).
  destruct (runB_moves_A2 runA _ _ _ _ _ Hr Hd Hnd Hg) as (Hr2 & Hd2 & Hnd2 & Hg2).
  destruct quarter_turns as (C1 & S1 & C2 & S2).
  rewrite C1, S1 in Hg2.
  replace (10 + 40 * 0) with 10 in Hg2 by lra.
  replace (100 + 40 * 1) with 140 in Hg2 by lra.
  destruct (runB_moves_A2 (runB runA) _ _ _ _ _ Hr2 Hd2 Hnd2 Hg2) as (_ & _ & _ & Hg3).
  rewrite C2, S2 in Hg3.
  replace (10 + 40 * 0) with 10 in Hg3 by lra.
  replace (100 + 40 * -1) with 60 in Hg3 by lra.
  split; [exact Hg2 |]. split; [exact Hg3 |].
  rewrite Hg2, Hg3. cbn [y]. lra.
Qed.

(** ** A second run on an instance without rows of an earlier, deeper run *)

Lemma fold_left_ext_in {S T} (f g : S -> T -> S) l a :
  (forall a x, In x l -> f a x = g a x) -> fold_left f l a = fold_left g l a.
Proof.
  revert a. induction l as [| x l IH]; intros a H; cbn [fold_left]; [reflexivity |].
  rewrite H by now left. apply IH. intros a' x' Hx. apply H. now right.
Qed.

Lemma dims_fields X Y j :
  dims X j = dims Y j ->
  num_get (rowMinX X) j = num_get (rowMinX Y) j /\
  num_get (rowMaxX X) j = num_get (rowMaxX Y) j /\
  num_get (rowRadi X) j = num_get (rowRadi Y) j.
Proof. unfold dims. intros H. injection H as H1 H2 _ _ H5. now repeat split. Qed.

Lemma steepestGradients_agree X Y :
  AgreeRows X Y -> steepestGradients X = steepestGradients Y.
Proof.
  intros [Hrow Hdims _ Hcx _ Hnd]. unfold steepestGradients. rewrite <- Hrow.
  apply fold_left_ext_in. intros [l r] i Hi. apply in_seq in Hi.
  destruct (dims_fields X Y i) as (-> & -> & ->); [apply Hdims; lia |].
  now rewrite Hcx, Hnd.
Qed.

Lemma polarAngle_agree l r X Y i n :
  AgreeRows X Y -> (i < length (row X))%nat ->
  polarAngle l r X i n = polarAngle l r Y i n.
Proof.
  intros [Hrow Hdims Hg Hcx _ Hnd] Hi.
  destruct (dims_fields X Y i) as (_ & _ & Hrad); [now apply Hdims |].
  unfold polarAngle, xLeftLimit, xRightLimit, getVertexBounds. cbv zeta.
  now rewrite Hrad, Hg, Hcx, Hnd.
Qed.

Lemma flat_map_ext_in {A B} (f g : A -> list B) l :
  (forall a, In a l -> f a = g a) -> flat_map f l = flat_map g l.
Proof.
  induction l as [| a l IH]; intros H; cbn [flat_map]; [reflexivity |].
  rewrite H by now left. f_equal. apply IH. intros b Hb. apply H. now right.
Qed.

Lemma thetaWrites_agree l r X Y :
  AgreeRows X Y -> thetaWrites l r X = thetaWrites l r Y.
Proof.
  intros H. unfold thetaWrites. rewrite <- (ag_row _ _ H).
  apply flat_map_ext_in. intros i Hi. apply in_seq in Hi.
  apply map_ext. intros n. f_equal. apply polarAngle_agree; [exact H | lia].
Qed.

Lemma writes_same_keys {V} (ws : list (nat * V)) st st' k :
  In k (map fst ws) -> writes ws st k = writes ws st' k.
Proof.
  unfold writes. revert st st'. induction ws as [| [k' v] ws IH]; intros st st' Hk.
  - contradiction.
  - cbn [fold_left fst snd]. destruct (in_dec Nat.eq_dec k (map fst ws)) as [Hin | Hnotin].
    + now apply IH.
    + fold (writes ws (upd st k' v) k). fold (writes ws (upd st' k' v) k).
      rewrite !writes_notin by exact Hnotin.
      destruct Hk as [E | Hk]; [| contradiction]. cbn [fst] in E. subst k'.
      unfold upd. now rewrite Nat.eqb_refl.
Qed.

Lemma AgreeRows_sameButTheta X Y X' Y' :
  AgreeRows X Y -> sameButTheta X X' -> sameButTheta Y Y' -> AgreeRows X' Y'.
Proof.
  unfold sameButTheta. intros [Hrow Hdims Hg Hcx Hcy Hnd] -> ->.
  split; cbn [row geometry centerX centerY nodeDistance set_theta];
    try assumption.
Qed.

Lemma assignTheta_agree l r X Y :
  AgreeRows X Y ->
  AgreeRows (assignTheta l r X) (assignTheta l r Y) /\
  AgreeTheta (assignTheta l r X) (assignTheta l r Y).
Proof.
  intros H. split.
  - apply (AgreeRows_sameButTheta X Y); [exact H | |]; rewrite assignTheta_closed; reflexivity.
  - intros n Hn. rewrite !assignTheta_closed in *. cbn [theta row set_theta] in *.
    rewrite (thetaWrites_agree l r X Y H).
    apply writes_same_keys. rewrite thetaWrites_keys, <- (ag_row _ _ H).
    now apply in_map.
Qed.

Lemma childrenTheta_agree X Y n :
  (forall m, In m (chain (child n)) -> theta X (id m) = theta Y (id m)) ->
  childrenTheta X n = childrenTheta Y n.
Proof.
  intros H. unfold childrenTheta. apply fold_left_ext_in.
  intros [t c] m Hm. now rewrite H.
Qed.

Lemma setTheta_agree n v X Y :
  AgreeRows X Y -> AgreeTheta X Y ->
  AgreeRows (setTheta n v X) (setTheta n v Y) /\
  AgreeTheta (setTheta n v X) (setTheta n v Y).
Proof.
  intros HR HT. split.
  - apply (AgreeRows_sameButTheta X Y); [exact HR | reflexivity | reflexivity].
  - intros m Hm. cbn [setTheta theta set_theta row] in *.
    destruct (Nat.eqb _ _); [reflexivity | now apply HT].
Qed.

Lemma reconcileNode_agree i X Y j :
  AgreeRows X Y -> AgreeTheta X Y -> childrenInRows X ->
  (S i < length (row X))%nat ->
  AgreeRows (reconcileNode i X j) (reconcileNode i Y j) /\
  AgreeTheta (reconcileNode i X j) (reconcileNode i Y j).
Proof.
  intros HR HT HC Hi. unfold reconcileNode. cbv zeta. rewrite <- (ag_row _ _ HR).
  destruct (nth_error (row_get (row X) i) j) as [n |] eqn:En; [| now split].
  assert (Hn : In n (row_get (row X) i)) by (eapply nth_error_In; eassumption).
  assert (Hj : (j < length (row_get (row X) i))%nat)
    by (apply nth_error_Some; congruence).
  rewrite <- (childrenTheta_agree X Y n)
    by (intros m Hm; apply HT; exact (HC i n m Hi Hn Hm)).
  destruct (childrenTheta X n) as [totalTheta counter].
  destruct (0 <? counter)%nat; [| now split].
  rewrite <- (HT n) by exact (row_get_concat _ _ _ Hn).
  destruct (Rgtb _ _ && (j <? _)%nat)%bool eqn:Eup.
  - apply andb_prop in Eup as [_ Hlt]. apply Nat.ltb_lt in Hlt.
    rewrite <- (HT (nth (j + 1) (row_get (row X) i) n))
      by (apply (row_get_concat _ i), nth_In; lia).
    now apply setTheta_agree.
  - destruct (Rltb _ _ && (0 <? j)%nat)%bool; [| now split].
    rewrite <- (HT (nth (j - 1) (row_get (row X) i) n))
      by (apply (row_get_concat _ i), nth_In; lia).
    now apply setTheta_agree.
Qed.

Lemma childrenInRows_row X X' : row X' = row X -> childrenInRows X -> childrenInRows X'.
Proof. unfold childrenInRows. intros ->. auto. Qed.

(** An invariant of two folds that run side by side. *)
Lemma fold_left_related {S T} (P : S -> S -> Prop) (f : S -> T -> S) l :
  forall a b,
  (forall a b x, In x l -> P a b -> P (f a x) (f b x)) ->
  P a b -> P (fold_left f l a) (fold_left f l b).
Proof.
  induction l as [| x l IH]; intros a b H Hab; cbn [fold_left]; [exact Hab |].
  apply IH.
  - intros a' b' x' Hx'. apply H. now right.
  - apply H; [now left | exact Hab].
Qed.

Lemma reconcileRow_agree i X Y :
  Agree X Y -> (S i < length (row X))%nat ->
  Agree (reconcileRow X i) (reconcileRow Y i).
Proof.
  intros H Hi. unfold reconcileRow. rewrite <- (ag_row _ _ (proj1 H)).
  apply (fold_left_related (fun a b => Agree a b /\ row a = row X));
    [| split; [exact H | reflexivity]].
  intros a b j _ [(HR & HT & HC) Hrow].
  destruct (reconcileNode_agree i a b j HR HT HC) as [HR' HT']; [now rewrite Hrow |].
  pose proof (reconcileNode_row i a j) as Hrow'.
  split; [| congruence]. split; [exact HR' |]. split; [exact HT' |].
  exact (childrenInRows_row _ _ Hrow' HC).
Qed.

Lemma reconcile_agree X Y : Agree X Y -> Agree (reconcile X) (reconcile Y).
Proof.
  intros H. unfold reconcile. rewrite <- (ag_row _ _ (proj1 H)).
  apply (fold_left_related (fun a b => Agree a b /\ row a = row X));
    [| split; [exact H | reflexivity]].
  intros a b i Hi [Hab Hrow]. apply in_rev, in_seq in Hi.
  split.
  - apply reconcileRow_agree; [exact Hab | rewrite Hrow; lia].
  - now rewrite reconcileRow_row.
Qed.

Lemma emitted_agree X Y i n :
  AgreeRows X Y -> AgreeTheta X Y -> In n (row_get (row X) i) ->
  emitted X i n = emitted Y i n.
Proof.
  intros [Hrow Hdims Hg Hcx Hcy _] HT Hn.
  destruct (dims_fields X Y i) as (_ & _ & Hrad);
    [apply Hdims; exact (row_get_in_range _ _ _ Hn) |].
  unfold emitted. cbv zeta.
  rewrite Hg, Hcx, Hcy, Hrad, (HT n) by exact (row_get_concat _ _ _ Hn). reflexivity.
Qed.

(** The last phase gives instances that agree the same bounds. *)
Lemma setLocations_agree X Y :
  AgreeRows X Y -> AgreeTheta X Y ->
  geometry (setLocations X) = geometry (setLocations Y).
Proof.
  intros HR HT. rewrite !setLocations_closed. cbn [geometry set_geometry].
  rewrite <- (ag_geometry _ _ HR). f_equal.
  unfold locationWrites. rewrite <- (ag_row _ _ HR).
  apply flat_map_ext_in. intros i _. apply map_ext_in. intros n Hn.
  f_equal. now apply emitted_agree.
Qed.

(** From rows that agree to bounds that agree: the phases after calcRowDims. *)
Lemma phases_agree X Y :
  AgreeRows X Y -> childrenInRows X ->
  geometry
    (setLocations (reconcile (assignTheta (fst (steepestGradients X))
                                (snd (steepestGradients X)) X)))
  = geometry
      (setLocations (reconcile (assignTheta (fst (steepestGradients Y))
                                  (snd (steepestGradients Y)) Y))).
Proof.
  intros HR HC. rewrite <- (steepestGradients_agree X Y HR).
  destruct (steepestGradients X) as [l r]. cbn [fst snd].
  destruct (assignTheta_agree l r X Y HR) as [HR1 HT1].
  assert (HC1 : childrenInRows (assignTheta l r X)).
  { apply (childrenInRows_row X); [| exact HC]. rewrite assignTheta_closed. reflexivity. }
  destruct (reconcile_agree _ _ (conj HR1 (conj HT1 HC1))) as (HR2 & HT2 & _).
  now apply setLocations_agree.
Qed.

(** ** The rows of a tree hold the children of their nodes *)

Lemma rowAt_succ row_ k :
  rowAt row_ (S k) = childrenOf (map Some (rowAt row_ k)).
Proof.
  revert row_. induction k as [| k IH]; intros row_; [reflexivity |].
  change (rowAt row_ (S (S k))) with (rowAt (map Some (childrenOf row_)) (S k)).
  now rewrite IH.
Qed.

Lemma in_childrenOf l n m :
  In n l -> In m (chain (child n)) -> In m (childrenOf (map Some l)).
Proof.
  intros Hn Hm. unfold childrenOf. apply in_concat. exists (chain (child n)).
  split; [| exact Hm]. rewrite map_map. apply in_map_iff. now exists n.
Qed.

Lemma treeRows_length o : length (treeRows o) = Nat.max 1 (depth o).
Proof. unfold treeRows. now rewrite length_map, length_seq. Qed.

Lemma treeRows_get o i :
  (i < Nat.max 1 (depth o))%nat -> row_get (treeRows o) i = rowAt [o] i.
Proof.
  intros Hi. unfold row_get, treeRows.
  rewrite (nth_indep _ [] (rowAt [o] 0)) by (rewrite length_map, length_seq; exact Hi).
  now rewrite (map_nth (rowAt [o])), seq_nth.
Qed.

Lemma treeRows_children X o : row X = treeRows o -> childrenInRows X.
Proof.
  intros Hrow i n m Hi Hn Hm. rewrite Hrow in *. rewrite treeRows_length in Hi.
  rewrite treeRows_get in Hn by lia.
  apply (row_get_concat _ (S i)). rewrite treeRows_get, rowAt_succ by exact Hi.
  now apply (in_childrenOf _ n).
Qed.

Lemma lastRadius_twice g rc l old :
  lastRadius g rc l (lastRadius g rc l old) = lastRadius g rc l old.
Proof.
  destruct l as [| n l] using rev_ind; [reflexivity |].
  now rewrite !lastRadius_last.
Qed.

(** ** A second run on an instance without rows of a deeper run *)

(** The rows that a second run computes agree with those of the first.
    [f1] stands for the instance that the first run left. *)
Lemma rerun_rows_agree compact parent_ root_ s f1 s1 s1' :
  s1 = super_execute compact parent_ root_ (execute_prologue parent_ s) ->
  s1' = super_execute compact parent_ root_ (execute_prologue parent_ f1) ->
  (length (row s) <= Nat.max 1 (depth (c_node (compact parent_ root_))))%nat ->
  row f1 = row (execute_rows s1) ->
  rowRadi f1 = rowRadi (execute_rows s1) ->
  nodeDistance f1 = nodeDistance s ->
  (forall v, c_bounds (compact parent_ root_) v = None -> geometry f1 v = geometry s v) ->
  AgreeRows (execute_rows s1') (execute_rows s1) /\ childrenInRows (execute_rows s1').
Proof.
  intros Hs1 Hs1' Hlen Hrow Hrad Hnd Hgeo.
  set (c := compact parent_ root_) in *.
  assert (Hnode : node s1 = c_node c) by now subst s1.
  assert (Hnode' : node s1' = c_node c) by now subst s1'.
  assert (Hroot : root s1' = root s1) by now subst s1 s1'.
  assert (Hnd1 : nodeDistance s1' = nodeDistance s1) by (subst s1 s1'; exact Hnd).
  assert (Hrow1 : row s1 = row s) by now subst s1.
  assert (Hrow1' : row s1' = row f1) by now subst s1'.
  assert (Hrad1' : rowRadi s1' = rowRadi f1) by now subst s1'.
  assert (Hg : geometry s1' = geometry s1).
  { subst s1 s1'. apply functional_extensionality. intros v.
    unfold super_execute. cbn. fold c.
    destruct (c_bounds c v) eqn:Ev; [reflexivity | now apply Hgeo]. }
  clear Hs1 Hs1' Hgeo Hnd.
  assert (Hfresh : row (execute_rows s1) = treeRows (c_node c)).
  { rewrite <- Hnode. apply execute_rows_fresh. rewrite Hrow1, Hnode. exact Hlen. }
  assert (Hfresh' : row (execute_rows s1') = treeRows (c_node c)).
  { rewrite <- Hnode'. apply execute_rows_fresh.
    rewrite Hrow1', Hrow, Hfresh, treeRows_length, Hnode'. lia. }
  destruct (execute_rows_fields s1) as (Hg1 & _ & _ & _ & Hcx1 & Hcy1 & Hd1).
  destruct (execute_rows_fields s1') as (Hg1' & _ & _ & _ & Hcx1' & Hcy1' & Hd1').
  split; [| exact (treeRows_children _ _ Hfresh')].
  split.
  - congruence.
  - intros j Hj. rewrite Hfresh', treeRows_length in Hj.
    destruct (execute_rows_dims s1 j) as [_ E]; [now rewrite Hnode |].
    destruct (execute_rows_dims s1' j) as [_ E']; [now rewrite Hnode' |].
    rewrite E', E, Hnode, Hnode', Hrad1', Hrad.
    assert (Er : num_get (rowRadi (execute_rows s1)) j
                 = lastRadius (geometry s1) (root s1) (rowAt [c_node c] j)
                     (num_get (rowRadi s1) j)).
    { unfold dims, dimsOf in E. rewrite Hnode in E. injection E as _ _ _ _ E. exact E. }
    rewrite Er. unfold dimsOf, execute_center, getVertexBounds. cbn.
    rewrite Hg, Hroot, lastRadius_twice. reflexivity.
  - congruence.
  - rewrite Hcx1, Hcx1', Hg, Hroot. reflexivity.
  - rewrite Hcy1, Hcy1', Hg, Hroot. reflexivity.
  - congruence.
Qed.

(** What a run leaves of the configuration and of the vertices that are not
    in its rows. *)
Lemma execute_frame compact parent_ root_ s f s1 :
  f = execute compact parent_ root_ s ->
  s1 = super_execute compact parent_ root_ (execute_prologue parent_ s) ->
  nodeDistance f = nodeDistance s /\
  forall v, ~ In v (map cell (concat (row (execute_rows s1)))) ->
            geometry f v = geometry s1 v.
Proof.
  intros Hf Hs1. rewrite execute_phases in Hf. rewrite <- Hs1 in Hf.
  destruct (sameButTheta_fields _ _ (execute_angles_sameButTheta s1))
    as (Hg1 & Hr1 & _ & _ & _ & _ & _ & _ & Hd1).
  destruct (sameButTheta_fields _ _ (reconcile_sameButTheta (execute_angles s1)))
    as (Hg2 & Hr2 & _ & _ & _ & _ & _ & _ & Hd2).
  destruct (execute_rows_fields s1) as (Hg0 & _ & _ & _ & _ & _ & Hd0).
  assert (Hd3 : nodeDistance f = nodeDistance (reconcile (execute_angles s1)))
    by (rewrite Hf, setLocations_closed; reflexivity).
  split.
  - rewrite Hd3, Hd2, Hd1, Hd0, Hs1. reflexivity.
  - intros v Hv. rewrite Hf, setLocations_other by now rewrite Hr2, Hr1.
    now rewrite Hg2, Hg1, Hg0.
Qed.

(** X1: on an instance that holds no rows of an earlier, deeper run, and
    when the compact layout gives a bound to every vertex of the tree, a
    second run leaves every vertex where the first put it. *)
Lemma execute_twice_without_stale_rows compact parent_ root_ s :
  (length (row s) <= Nat.max 1 (depth (c_node (compact parent_ root_))))%nat ->
  (forall n, In n (concat (treeRows (c_node (compact parent_ root_)))) ->
             c_bounds (compact parent_ root_) (cell n) <> None) ->
  geometry (execute compact parent_ root_ (execute compact parent_ root_ s))
  = geometry (execute compact parent_ root_ s).
Proof.
  intros Hlen Hbounds.
  remember (execute compact parent_ root_ s) as f1 eqn:Hf1.
  remember (super_execute compact parent_ root_ (execute_prologue parent_ s))
    as s1 eqn:Hs1.
  remember (super_execute compact parent_ root_ (execute_prologue parent_ f1))
    as s1' eqn:Hs1'.
  destruct (execute_fields compact parent_ root_ s f1 s1 Hf1 Hs1)
    as (Hrow & Hrad & _).
  destruct (execute_frame compact parent_ root_ s f1 s1 Hf1 Hs1) as [Hnd Hgeo].
  assert (Hfresh : row (execute_rows s1) = treeRows (c_node (compact parent_ root_))).
  { replace (c_node (compact parent_ root_)) with (node s1) by now subst s1.
    apply execute_rows_fresh. subst s1. exact Hlen. }
  destruct (rerun_rows_agree compact parent_ root_ s f1 s1 s1' Hs1 Hs1' Hlen Hrow Hrad Hnd)
    as [HR HC].
  { intros v Hv. rewrite Hgeo.
    - subst s1. unfold super_execute. cbn. now rewrite Hv.
    - rewrite Hfresh. intros Hin. apply in_map_iff in Hin as (n & <- & Hn).
      now apply (Hbounds n). }
  rewrite execute_phases, <- Hs1'. rewrite Hf1, execute_phases, <- Hs1.
  exact (phases_agree _ _ HR HC).
Qed.

(** So two successive runs of [execute(parent, B0)] on a new layout agree. *)
Example execute_twice_on_new_instance :
  geometry (runB (runB (newLayout twoTreesBounds)))
  = geometry (runB (newLayout twoTreesBounds)).
Proof.
  unfold runB. apply execute_twice_without_stale_rows.
  - cbn. lia.
  - intros n Hn. cbv in Hn. destruct Hn as [<- | []]; cbn; discriminate.
Defined.

(** ** C10: what the reconciliation leaves alone *)

(** C10: within execute, the reconciliation pass changes the angle of a node
    only if the node has a child and lies in a row other than the outermost
    one; so a leaf, and a node of the outermost row, ends with exactly the
    angle it got in the assignment phase. *)
Theorem reconcile_frame compact parent_ root_ s s1 a f i n :
  s1 = super_execute compact parent_ root_ (execute_prologue parent_ s) ->
  a = execute_angles s1 ->
  f = execute compact parent_ root_ s ->
  distinctNodes a ->
  In n (row_get (row a) i) ->
  child n = None \/ (length (row a) <= i + 1)%nat ->
  theta f (id n) = theta a (id n) /\
  row f = row a /\
  forall k, theta f k <> theta a k -> reconcilable a k.
Proof.
  intros Hs1 Ha Hf Hnd Hn Hleaf.
  destruct (execute_fields compact parent_ root_ s f s1 Hf Hs1) as (Hrow & _ & _ & _ & _ & Hth).
  rewrite <- Ha in Hth. rewrite Hth.
  destruct (sameButTheta_fields _ _ (execute_angles_sameButTheta s1)) as (_ & Hrow1 & _).
  rewrite <- Ha in Hrow1.
  split; [now apply (reconcile_unchanged a i) |].
  split; [congruence | apply reconcile_changes].
Qed.

Lemma reconcile_frame_witness :
  distinctNodes (execute_angles sampleStart) /\
  In nodeA (row_get (row (execute_angles sampleStart)) 0) /\
  theta (execute sampleCompact 0%nat None (newLayout sampleBounds)) (id nodeA)
  = theta (execute_angles sampleStart) (id nodeA).
Proof.
  destruct sample_angles_fields as (Hrow & _).
  assert (Hnd : distinctNodes (execute_angles sampleStart)).
  { unfold distinctNodes. rewrite Hrow. cbn. repeat constructor; cbn; intuition discriminate. }
  assert (Hin : In nodeA (row_get (row (execute_angles sampleStart)) 0))
    by (rewrite Hrow; cbn; now left).
  split; [exact Hnd |]. split; [exact Hin |].
  exact (proj1 (reconcile_frame sampleCompact 0%nat None (newLayout sampleBounds)
                  sampleStart (execute_angles sampleStart) _ 0%nat nodeA
                  eq_refl eq_refl eq_refl Hnd Hin (or_introl eq_refl))).
Defined.

(** * The radial layout: what a run leaves alone *)

(** The last phase moves vertices and resizes none. *)
Lemma setLocations_sameButPositions s : sameButPositions s (setLocations s).
Proof.
  unfold setLocations.
  apply (fold_left_invariant (sameButPositions s)); [| apply sameButPositions_refl].
  intros s' i _ Hs'.
  apply (fold_left_invariant (sameButPositions s)); [| exact Hs'].
  intros s'' n _ Hs''. unfold emitNode. cbv zeta. now apply sameButPositions_set.
Qed.

(** ** The rows and the tree *)

Lemma reachable_siblings c :
  Permutation (reachable c)
    (siblings c ++ flat_map (fun m => below (Some m)) (siblings c)).
Proof.
  induction c as [i cl ch nx _ IHnx] using TreeNode_induction.
  cbn [reachable siblings flat_map app]. constructor.
  change (below (Some (Node i cl ch nx)))
    with (match ch with Some c => reachable c | None => [] end).
  destruct nx as [m |].
  - rewrite (IHnx m eq_refl). rewrite !app_assoc.
    apply Permutation_app_tail, Permutation_app_comm.
  - cbn [flat_map]. now rewrite !app_nil_r.
Qed.

Lemma flat_map_map_Some {B} (f : option TreeNode -> list B) l :
  flat_map f (map Some l) = flat_map (fun m => f (Some m)) l.
Proof. induction l as [| a l IH]; [reflexivity |]. cbn. now rewrite IH. Qed.

Lemma below_chain o :
  Permutation (below o)
    (chain (childOf o) ++ flat_map below (map Some (chain (childOf o)))).
Proof.
  unfold below. destruct (childOf o) as [c |]; [| constructor].
  cbn [chain]. now rewrite reachable_siblings, flat_map_map_Some.
Qed.

Lemma below_children row_ :
  Permutation (flat_map below row_)
    (childrenOf row_ ++ flat_map below (map Some (childrenOf row_))).
Proof.
  unfold childrenOf. induction row_ as [| r rs IH]; [constructor |].
  cbn [flat_map map concat]. rewrite below_chain, IH, map_app, flat_map_app.
  rewrite <- !app_assoc. apply Permutation_app_head.
  rewrite !app_assoc. apply Permutation_app_tail, Permutation_app_comm.
Qed.

Lemma below_leaves row_ : rows_below row_ = 0%nat -> flat_map below row_ = [].
Proof.
  unfold rows_below. induction row_ as [| r rs IH]; [reflexivity |].
  cbn [map flat_map].
  change (list_max (olevels (childOf r) :: map (fun o => olevels (childOf o)) rs))
    with (Nat.max (olevels (childOf r)) (list_max (map (fun o => olevels (childOf o)) rs))).
  intros H.
  assert (H0 : olevels (childOf r) = 0%nat) by lia.
  rewrite IH by lia. unfold below.
  destruct (childOf r) as [c |]; [| reflexivity].
  pose proof (levels_pos c). cbn [olevels] in H0. lia.
Qed.

(** The rows below [row_], taken together, are the nodes below [row_]. *)
Lemma rows_are_the_nodes_below n :
  forall row_,
  (rows_below row_ <= n)%nat ->
  Permutation (concat (map (rowAt row_) (seq 0 n))) (flat_map below row_).
Proof.
  induction n as [| n IH]; intros row_ Hn.
  - rewrite below_leaves by lia. constructor.
  - cbn [seq map concat]. rewrite <- seq_shift, map_map.
    change (fun k => rowAt row_ (S k)) with (rowAt (map Some (childrenOf row_))).
    change (rowAt row_ 0) with (childrenOf row_).
    rewrite below_children. apply Permutation_app_head, IH.
    destruct (childrenOf row_) as [| m l] eqn:E; [cbn; lia |].
    assert (Hne : childrenOf row_ <> []) by (rewrite E; discriminate).
    pose proof (rows_below_succ row_ Hne) as Hs. rewrite E in Hs. lia.
Qed.

Lemma treeRows_below o : Permutation (concat (treeRows o)) (below o).
Proof.
  unfold treeRows. rewrite rows_are_the_nodes_below.
  - cbn [flat_map]. now rewrite app_nil_r.
  - unfold depth. lia.
Qed.

(** The vertices of the rows that a run leaves on an instance that holds no
    rows of an earlier, deeper run are the vertices of the nodes below the
    root. *)
Lemma fresh_rows_below compact parent_ root_ s f :
  f = execute compact parent_ root_ s ->
  (length (row s) <= Nat.max 1 (depth (c_node (compact parent_ root_))))%nat ->
  Permutation (map cell (concat (row f)))
    (map cell (below (c_node (compact parent_ root_)))).
Proof.
  intros Hf Hlen. apply Permutation_map.
  remember (super_execute compact parent_ root_ (execute_prologue parent_ s)) as s1 eqn:Hs1.
  destruct (execute_fields compact parent_ root_ s f s1 Hf Hs1) as (-> & _).
  replace (c_node (compact parent_ root_)) with (node s1) by now subst s1.
  rewrite execute_rows_fresh by (subst s1; exact Hlen).
  apply treeRows_below.
Qed.

(** X20: on an instance that holds no rows of an earlier, deeper run, the
    rows that execute leaves hold the nodes below the root of the tree: every
    one of them, as often as the tree holds it, and no other node. *)
Theorem execute_rows_are_the_tree compact parent_ root_ s :
  (length (row s) <= Nat.max 1 (depth (c_node (compact parent_ root_))))%nat ->
  Permutation (concat (row (execute compact parent_ root_ s)))
    (below (c_node (compact parent_ root_))).
Proof.
  intros Hlen.
  remember (execute compact parent_ root_ s) as f eqn:Hf.
  remember (super_execute compact parent_ root_ (execute_prologue parent_ s)) as s1 eqn:Hs1.
  destruct (execute_fields compact parent_ root_ s f s1 Hf Hs1) as (-> & _).
  replace (c_node (compact parent_ root_)) with (node s1) by now subst s1.
  rewrite execute_rows_fresh by (subst s1; exact Hlen).
  apply treeRows_below.
Qed.

(** X21: on an instance that holds no rows of an earlier, deeper run, and
    when the nodes below the root have vertices of their own, execute puts
    the center of every vertex below the root on the circle of a row: the
    radial invariant holds of the whole tree, not only of what is found in
    [this.row]. *)
Theorem execute_places_every_node compact parent_ root_ s f n b :
  f = execute compact parent_ root_ s ->
  b = geometry f (cell n) ->
  (length (row s) <= Nat.max 1 (depth (c_node (compact parent_ root_))))%nat ->
  NoDup (map cell (below (c_node (compact parent_ root_)))) ->
  In n (below (c_node (compact parent_ root_))) ->
  exists i,
    In n (row_get (row f) i) /\
    x b + width b / 2 = centerX f + num_get (rowRadi f) i * cos (theta f (id n)) /\
    y b + height b / 2 = centerY f + num_get (rowRadi f) i * sin (theta f (id n)) /\
    (0 <= num_get (rowRadi f) i ->
     sqrt ((x b + width b / 2 - centerX f) ^ 2 + (y b + height b / 2 - centerY f) ^ 2)
     = num_get (rowRadi f) i).
Proof.
  intros Hf Hb Hlen Hnd Hn.
  assert (Hperm : Permutation (concat (row f)) (below (c_node (compact parent_ root_)))).
  { remember (super_execute compact parent_ root_ (execute_prologue parent_ s)) as s1 eqn:Hs1.
    destruct (execute_fields compact parent_ root_ s f s1 Hf Hs1) as (-> & _).
    replace (c_node (compact parent_ root_)) with (node s1) by now subst s1.
    rewrite execute_rows_fresh by (subst s1; exact Hlen).
    apply treeRows_below. }
  assert (Hin : In n (concat (row f)))
    by (apply (Permutation_in n (Permutation_sym Hperm)); exact Hn).
  apply in_concat in Hin. destruct Hin as (l & Hl & Hnl).
  destruct (In_nth _ _ [] Hl) as (i & _ & Hi).
  exists i. unfold row_get at 1. rewrite Hi. split; [exact Hnl |].
  rewrite execute_phases in Hf.
  apply (setLocations_radial _ f i n b _ Hf Hb eq_refl).
  - apply (Permutation_NoDup (Permutation_sym (Permutation_map cell Hperm))). exact Hnd.
  - unfold row_get. now rewrite Hi.
Qed.

Lemma execute_places_every_node_witness :
  exists i,
    In nodeC (row_get (row (execute sampleCompact 0%nat None (newLayout sampleBounds))) i) /\
    x (geometry (execute sampleCompact 0%nat None (newLayout sampleBounds)) (cell nodeC))
    + width (geometry (execute sampleCompact 0%nat None (newLayout sampleBounds))
               (cell nodeC)) / 2
    = centerX (execute sampleCompact 0%nat None (newLayout sampleBounds))
      + num_get (rowRadi (execute sampleCompact 0%nat None (newLayout sampleBounds))) i
        * cos (theta (execute sampleCompact 0%nat None (newLayout sampleBounds))
                 (id nodeC)).
Proof.
  destruct (execute_places_every_node sampleCompact 0%nat None (newLayout sampleBounds)
              _ nodeC _ eq_refl eq_refl) as (i & Hin & Hx & _).
  - cbn. lia.
  - cbn. repeat constructor; cbn; intuition discriminate.
  - cbn. right. right. now left.
  - exists i. split; [exact Hin | exact Hx].
Defined.

Lemma execute_rows_are_the_tree_witness :
  Permutation
    (concat (row (execute sampleCompact 0%nat None (newLayout sampleBounds))))
    [nodeA; nodeB; nodeC].
Proof.
  change [nodeA; nodeB; nodeC] with (below (c_node (sampleCompact 0%nat None))).
  apply (execute_rows_are_the_tree sampleCompact 0%nat None (newLayout sampleBounds)).
  cbn. lia.
Defined.

(** ** The vertices that a run moves *)

(** X2: execute resizes no vertex, and it moves only the vertices that are
    in the rows it leaves in [this.row].  On an instance that holds no rows
    of an earlier, deeper run these are vertices of nodes below the root:
    every other vertex, and so the root when no node below it has the root
    vertex, stays where the compact tree layout put it. *)
Theorem execute_moves_only_the_vertices_of_its_rows compact parent_ root_ s v :
  width (geometry (execute compact parent_ root_ s) v)
  = width (geometry (super_execute compact parent_ root_ (execute_prologue parent_ s)) v) /\
  height (geometry (execute compact parent_ root_ s) v)
  = height (geometry (super_execute compact parent_ root_ (execute_prologue parent_ s)) v) /\
  (~ In v (map cell (concat (row (execute compact parent_ root_ s)))) ->
   geometry (execute compact parent_ root_ s) v
   = geometry (super_execute compact parent_ root_ (execute_prologue parent_ s)) v) /\
  ((length (row s) <= Nat.max 1 (depth (c_node (compact parent_ root_))))%nat ->
   ~ In v (map cell (below (c_node (compact parent_ root_)))) ->
   geometry (execute compact parent_ root_ s) v
   = geometry (super_execute compact parent_ root_ (execute_prologue parent_ s)) v).
Proof.
  pose proof (fresh_rows_below compact parent_ root_ s _ eq_refl) as Hperm.
  remember (execute compact parent_ root_ s) as f eqn:Hf.
  remember (super_execute compact parent_ root_ (execute_prologue parent_ s)) as s1 eqn:Hs1.
  destruct (execute_fields compact parent_ root_ s f s1 Hf Hs1) as (Hrow & _).
  destruct (execute_frame compact parent_ root_ s f s1 Hf Hs1) as [_ Hgeo].
  assert (Hsize : width (geometry f v) = width (geometry s1 v) /\
                  height (geometry f v) = height (geometry s1 v)).
  { rewrite execute_phases, <- Hs1 in Hf.
    destruct (setLocations_sameButPositions (reconcile (execute_angles s1))) as [_ Hsz].
    destruct (sameButTheta_fields _ _ (execute_angles_sameButTheta s1)) as (Hg1 & _).
    destruct (sameButTheta_fields _ _ (reconcile_sameButTheta (execute_angles s1)))
      as (Hg2 & _).
    destruct (execute_rows_fields s1) as (Hg0 & _).
    rewrite Hf. destruct (Hsz v) as [-> ->]. now rewrite Hg2, Hg1, Hg0. }
  split; [apply Hsize |]. split; [apply Hsize |].
  assert (Hout : ~ In v (map cell (concat (row f))) -> geometry f v = geometry s1 v).
  { intros Hv. apply Hgeo. now rewrite <- Hrow. }
  split; [exact Hout |].
  intros Hlen Hv. apply Hout. intros Hin. apply Hv.
  exact (Permutation_in v (Hperm Hlen) Hin).
Qed.

Lemma execute_moves_only_the_vertices_of_its_rows_witness :
  geometry (execute sampleCompact 0%nat None (newLayout sampleBounds)) 0%nat
  = geometry (super_execute sampleCompact 0%nat None
                (execute_prologue 0%nat (newLayout sampleBounds))) 0%nat.
Proof.
  apply (proj2 (proj2 (proj2 (execute_moves_only_the_vertices_of_its_rows sampleCompact
                                0%nat None (newLayout sampleBounds) 0%nat)))).
  - cbn. lia.
  - cbn. intuition discriminate.
Defined.

(** ** C1: the radial invariant *)



(** *** A vertex in a new row and in a stale row *)



(** ** C2: angles outside the range *)

(** *** A child of width zero *)

Lemma narrow_rows : row (execute_rows narrowStart) = [[nodeZ1; nodeZ2]].
Proof. rewrite execute_rows_fresh by (cbn; lia). reflexivity. Qed.

Lemma narrow_dims : dims (execute_rows narrowStart) 0 = (-5, 25, 5, 25, 40).
Proof.
  assert (H0 : (0 < Nat.max 1 (depth (node narrowStart)))%nat) by (vm_compute; lia).
  destruct (execute_rows_dims narrowStart 0 H0) as [_ E0].
  rewrite E0. clear.
  unfold dimsOf. cbn. unfold rightEdge, centreX. cbn [x width].
  rminmax. repeat f_equal; lra.
Qed.

Lemma narrow_fields :
  centerX (execute_rows narrowStart) = 10 /\ nodeDistance (execute_rows narrowStart) = 10 /\
  geometry (execute_rows narrowStart) = geometry narrowStart.
Proof.
  destruct (execute_rows_fields narrowStart) as (Hg & _ & _ & _ & Hcx & _ & Hnd).
  rewrite Hcx, Hnd, Hg. cbn. repeat split; lra.
Qed.

Lemma narrow_gradients : steepestGradients (execute_rows narrowStart) = (1 / 8, 1 / 8).
Proof.
  pose proof narrow_dims as D0. destruct narrow_fields as (Hcx & Hnd & _).
  pose proof narrow_rows as Hrow.
  revert D0 Hcx Hnd Hrow. generalize (execute_rows narrowStart). intros r D0 Hcx Hnd Hrow.
  unfold dims in D0. injection D0 as A0 B0 _ _ R0.
  unfold steepestGradients. rewrite Hrow. cbn [length seq fold_left].
  rewrite A0, B0, R0, Hcx, Hnd.
  rminmax. f_equal; lra.
Qed.

Lemma narrow_angle :
  row (execute_angles narrowStart) = [[nodeZ1; nodeZ2]] /\
  geometry (execute_angles narrowStart) = geometry narrowStart /\
  theta (execute_angles narrowStart) (id nodeZ2) = 2 * PI.
Proof.
  destruct (sameButTheta_fields _ _ (execute_angles_sameButTheta narrowStart))
    as (Hg & Hrow & _).
  destruct narrow_fields as (Hcx & Hnd & Hg0).
  split; [rewrite Hrow; apply narrow_rows |]. split; [now rewrite Hg |].
  assert (Hdist : distinctNodes (execute_rows narrowStart)).
  { unfold distinctNodes. rewrite narrow_rows. cbn.
    repeat constructor; cbn; intuition discriminate. }
  assert (Hin : In nodeZ2 (row_get (row (execute_rows narrowStart)) 0))
    by (rewrite narrow_rows; cbn; tauto).
  assert (R0 : num_get (rowRadi (execute_rows narrowStart)) 0 = 40).
  { pose proof narrow_dims as D0. revert D0. generalize (execute_rows narrowStart).
    intros r D0. unfold dims in D0. now injection D0. }
  unfold execute_angles. rewrite narrow_gradients. cbn [fst snd].
  rewrite (assignTheta_node _ _ _ 0 nodeZ2 Hdist Hin).
  unfold polarAngle, xLeftLimit, xRightLimit, getVertexBounds. cbv zeta.
  rewrite Hcx, Hnd, Hg0, R0.
  replace (geometry narrowStart (cell nodeZ2)) with (Rect 25 40 0 20) by reflexivity.
  cbn [x width].
  replace ((25 + 0 / 2 - (10 - 10 - 1 / 8 * 40))
           / (10 + 10 + 1 / 8 * 40 - (10 - 10 - 1 / 8 * 40))) with 1 by lra.
  lra.
Qed.

(** *** The stale row of A2 in a run on the tree B *)

Lemma runB_angle_A2 s r0 c3 c4 px py :
  row s = [r0; [nodeA2]] -> dims s 1 = (-10, 10, c3, c4, 40) -> nodeDistance s = 10 ->
  geometry s 2%nat = Rect px py 20 10 ->
  row (execute_angles (startB s)) = [[nodeB1]; [nodeA2]] /\
  theta (execute_angles (startB s)) (id nodeA2) = 2 * PI * ((px + 20) / 40).
Proof.
  intros Hrow Hd Hnd Hgeo.
  destruct (runB_rows s r0 _ Hrow Hd Hnd) as (Hr & _ & D1 & Hcx & Hcy & Hnd' & Hg).
  pose proof (runB_gradients s r0 c3 c4 Hrow Hd Hnd) as Hgrad.
  destruct (sameButTheta_fields _ _ (execute_angles_sameButTheta (startB s)))
    as (_ & Hrow1 & _).
  split; [now rewrite Hrow1 |].
  assert (Hdist : distinctNodes (execute_rows (startB s))).
  { unfold distinctNodes. rewrite Hr. cbn. repeat constructor; cbn; intuition discriminate. }
  assert (HinA2 : In nodeA2 (row_get (row (execute_rows (startB s))) 1))
    by (rewrite Hr; cbn; now left).
  unfold execute_angles. rewrite Hgrad. cbn [fst snd].
  rewrite (assignTheta_node _ _ _ 1 nodeA2 Hdist HinA2).
  unfold polarAngle, xLeftLimit, xRightLimit, getVertexBounds. cbv zeta.
  assert (R1 : num_get (rowRadi (execute_rows (startB s))) 1 = 40).
  { revert D1. generalize (execute_rows (startB s)). intros r D1.
    unfold dims in D1. now injection D1. }
  rewrite Hcx, Hnd', Hg, R1.
  replace (geometry (startB s) (cell nodeA2)) with (Rect px py 20 10)
    by (rewrite <- Hgeo; reflexivity).
  cbn [x width]. f_equal. lra.
Qed.

Lemma startB_keeps_A2 s : geometry (startB s) 2%nat = geometry s 2%nat.
Proof. reflexivity. Qed.

(** C2 as stated fails in two ways.  A vertex of width 0 at the right end of
    its row is given the angle 2 PI, which is outside [0, 2 PI).  And on an
    instance that was used before on a deeper tree the node of a stale row is
    given an angle from the extents of the earlier run: in
    [execute(parent, B0)] after [execute(parent, A0)] the node A2 gets
    - 3 PI / 2. *)
Lemma polar_angle_leaves_the_range :
  (execute narrowCompact 0%nat None (newLayout narrowBounds)
   = setLocations (reconcile (execute_angles narrowStart)) /\
   In nodeZ2 (row_get (row (execute_angles narrowStart)) 0) /\
   width (geometry (execute_angles narrowStart) (cell nodeZ2)) = 0 /\
   theta (execute_angles narrowStart) (id nodeZ2) = 2 * PI) /\
  (runB runA = setLocations (reconcile (execute_angles (startB runA))) /\
   In nodeA2 (row_get (row (execute_angles (startB runA))) 1) /\
   0 < width (geometry (execute_angles (startB runA)) (cell nodeA2)) /\
   theta (execute_angles (startB runA)) (id nodeA2) = - (3 * (PI / 2)) /\
   theta (execute_angles (startB runA)) (id nodeA2) < 0).
Proof.
  split.
  - destruct narrow_angle as (Hrow & Hg & Hth).
    split; [apply execute_phases |].
    split; [rewrite Hrow; cbn; tauto |].
    split; [rewrite Hg; reflexivity | exact Hth].
  - destruct runA_result as (Hr & Hd & Hnd & Hg).
    destruct (runB_angle_A2 runA _ _ _ _ _ Hr Hd Hnd Hg) as (Hrow & Hth).
    split; [apply execute_phases |].
    split; [rewrite Hrow; cbn; tauto |].
    destruct (sameButTheta_fields _ _ (execute_angles_sameButTheta (startB runA)))
      as (Hg1 & _).
    destruct (execute_rows_fields (startB runA)) as (Hg0 & _).
    split.
    { rewrite Hg1, Hg0. change (cell nodeA2) with 2%nat.
      rewrite (startB_keeps_A2 runA), Hg. cbn. lra. }
    rewrite Hth. pose proof PI_RGT_0. split; lra.
Qed.

(** ** What a run depends on *)

Lemma rowAt_nonempty k :
  forall row_, (k < rows_below row_)%nat -> rowAt row_ k <> [].
Proof.
  induction k as [| k IH]; intros row_ Hk.
  - cbn [rowAt]. intros E. apply rows_below_leaves in E. lia.
  - cbn [rowAt].
    assert (Hne : childrenOf row_ <> [])
      by (intros E; apply rows_below_leaves in E; lia).
    apply IH. rewrite (rows_below_succ row_ Hne) in Hk. lia.
Qed.

Lemma lastRadius_nonempty g rc l old old' :
  l <> [] -> lastRadius g rc l old = lastRadius g rc l old'.
Proof.
  destruct l as [| n l] using rev_ind; [congruence |].
  intros _. now rewrite !lastRadius_last.
Qed.

(** X25: a run on an instance that holds no rows of an earlier, deeper run
    reads nothing of the instance but [nodeDistance] and the graph: two such
    instances with the same [nodeDistance], on graphs that agree on the
    vertices the compact layout does not place, get the same vertex bounds,
    whatever their row arrays, angles, center and options hold. *)
Theorem execute_reads_no_hidden_state compact parent_ root_ s s' :
  (length (row s) <= Nat.max 1 (depth (c_node (compact parent_ root_))))%nat ->
  (length (row s') <= Nat.max 1 (depth (c_node (compact parent_ root_))))%nat ->
  nodeDistance s = nodeDistance s' ->
  (forall v, c_bounds (compact parent_ root_) v = None -> geometry s v = geometry s' v) ->
  geometry (execute compact parent_ root_ s) = geometry (execute compact parent_ root_ s').
Proof.
  intros Hlen Hlen' Hnd Hgeo.
  remember (execute compact parent_ root_ s) as f eqn:Hf.
  remember (execute compact parent_ root_ s') as f' eqn:Hf'.
  remember (super_execute compact parent_ root_ (execute_prologue parent_ s)) as s1 eqn:Hs1.
  remember (super_execute compact parent_ root_ (execute_prologue parent_ s')) as s1' eqn:Hs1'.
  set (c := compact parent_ root_) in *.
  assert (Hnode : node s1 = c_node c) by now subst s1.
  assert (Hnode' : node s1' = c_node c) by now subst s1'.
  assert (Hroot : root s1 = root s1') by now subst s1 s1'.
  assert (Hnd1 : nodeDistance s1 = nodeDistance s1') by (subst s1 s1'; exact Hnd).
  assert (Hg : geometry s1 = geometry s1').
  { subst s1 s1'. apply functional_extensionality. intros v.
    unfold super_execute. cbn. fold c.
    destruct (c_bounds c v) eqn:Ev; [reflexivity | now apply Hgeo]. }
  assert (Hfresh : row (execute_rows s1) = treeRows (c_node c)).
  { rewrite <- Hnode. apply execute_rows_fresh. rewrite Hnode. subst s1. exact Hlen. }
  assert (Hfresh' : row (execute_rows s1') = treeRows (c_node c)).
  { rewrite <- Hnode'. apply execute_rows_fresh. rewrite Hnode'. subst s1'. exact Hlen'. }
  destruct (Nat.eq_dec (depth (c_node c)) 0) as [Hleaf | Hdeep].
  - (* a root without children: no vertex is moved *)
    assert (Hnone : concat (treeRows (c_node c)) = []).
    { apply Permutation_nil. symmetry. rewrite treeRows_below.
      pose proof (below_leaves [c_node c] Hleaf) as E. cbn [flat_map] in E.
      rewrite app_nil_r in E. now rewrite E. }
    destruct (execute_frame compact parent_ root_ s f s1 Hf Hs1) as [_ Hout].
    destruct (execute_frame compact parent_ root_ s' f' s1' Hf' Hs1') as [_ Hout'].
    apply functional_extensionality. intros v.
    rewrite Hout, Hout', Hg; [reflexivity | |]; rewrite ?Hfresh, ?Hfresh', Hnone; intros [].
  - assert (HR : AgreeRows (execute_rows s1) (execute_rows s1')).
    { destruct (execute_rows_fields s1) as (Hg1 & _ & _ & _ & Hcx1 & Hcy1 & Hd1).
      destruct (execute_rows_fields s1') as (Hg1' & _ & _ & _ & Hcx1' & Hcy1' & Hd1').
      split.
      - congruence.
      - intros j Hj. rewrite Hfresh, treeRows_length in Hj.
        destruct (execute_rows_dims s1 j) as [_ E]; [now rewrite Hnode |].
        destruct (execute_rows_dims s1' j) as [_ E']; [now rewrite Hnode' |].
        rewrite E, E', Hnode, Hnode'.
        unfold dimsOf, execute_center, getVertexBounds. cbn.
        rewrite Hg, Hroot.
        rewrite (lastRadius_nonempty _ _ _ (num_get (rowRadi s1) j)
                   (num_get (rowRadi s1') j)); [reflexivity |].
        apply rowAt_nonempty. unfold depth in *. lia.
      - congruence.
      - rewrite Hcx1, Hcx1', Hg, Hroot. reflexivity.
      - rewrite Hcy1, Hcy1', Hg, Hroot. reflexivity.
      - congruence. }
    rewrite Hf, Hf', !execute_phases, <- Hs1, <- Hs1'.
    exact (phases_agree _ _ HR (treeRows_children _ _ Hfresh)).
Qed.

Lemma execute_reads_no_hidden_state_witness :
  geometry (execute twoTreesCompact 0%nat (Some 3%nat) (newLayout twoTreesBounds))
  = geometry (execute twoTreesCompact 0%nat (Some 3%nat)
                (set_theta (fun _ => 1) (set_angleOffset 2 (newLayout twoTreesBounds)))).
Proof.
  apply execute_reads_no_hidden_state.
  - cbn. lia.
  - cbn. lia.
  - reflexivity.
  - reflexivity.
Defined.

(** ** A compact layout that is moved as a whole *)

Lemma Rmin_moved a b d : Rmin (a + d) (b + d) = Rmin a b + d.
Proof. unfold Rmin. destruct (Rle_dec a b), (Rle_dec (a + d) (b + d)); lra. Qed.

Lemma Rmax_moved a b d : Rmax (a + d) (b + d) = Rmax a b + d.
Proof. unfold Rmax. destruct (Rle_dec a b), (Rle_dec (a + d) (b + d)); lra. Qed.

Lemma rowMin_moved f g c l dx dy :
  (forall b, f (moved dx dy b) = f b + dx) ->
  rowMin f (fun v => moved dx dy (g v)) (c + dx) l = rowMin f g c l + dx.
Proof.
  intros Hf. unfold rowMin. revert c. induction l as [| n l IH]; intros c; [reflexivity |].
  cbn [fold_left]. rewrite Hf, Rmin_moved. apply IH.
Qed.

Lemma rowMax_moved f g c l dx dy :
  (forall b, f (moved dx dy b) = f b + dx) ->
  rowMax f (fun v => moved dx dy (g v)) (c + dx) l = rowMax f g c l + dx.
Proof.
  intros Hf. unfold rowMax. revert c. induction l as [| n l IH]; intros c; [reflexivity |].
  cbn [fold_left]. rewrite Hf, Rmax_moved. apply IH.
Qed.

Lemma lastRadius_moved g rc l old dx dy :
  lastRadius (fun v => moved dx dy (g v)) rc l old = lastRadius g rc l old.
Proof.
  unfold lastRadius. apply fold_left_ext_in. intros a n _. cbn [moved y]. lra.
Qed.

Lemma steepestGradients_moved dx dy X Y :
  Moved dx dy X Y -> steepestGradients Y = steepestGradients X.
Proof.
  intros H. unfold steepestGradients. rewrite <- (mv_row _ _ _ _ H).
  apply fold_left_ext_in. intros [l r] i Hi. apply in_seq in Hi.
  rewrite (mv_rowMinX _ _ _ _ H), (mv_rowMaxX _ _ _ _ H), (mv_rowRadi _ _ _ _ H),
    (mv_centerX _ _ _ _ H), (mv_nodeDistance _ _ _ _ H) by lia.
  f_equal; f_equal; f_equal; lra.
Qed.

Lemma polarAngle_moved dx dy l r X Y i n :
  Moved dx dy X Y -> (i < length (row X))%nat ->
  polarAngle l r Y i n = polarAngle l r X i n.
Proof.
  intros H Hi. unfold polarAngle, xLeftLimit, xRightLimit, getVertexBounds. cbv zeta.
  rewrite (mv_rowRadi _ _ _ _ H), (mv_centerX _ _ _ _ H), (mv_nodeDistance _ _ _ _ H),
    (mv_geometry _ _ _ _ H) by exact Hi.
  cbn [moved x width]. f_equal. f_equal; lra.
Qed.

Lemma thetaWrites_moved dx dy l r X Y :
  Moved dx dy X Y -> thetaWrites l r Y = thetaWrites l r X.
Proof.
  intros H. unfold thetaWrites. rewrite <- (mv_row _ _ _ _ H).
  apply flat_map_ext_in. intros i Hi. apply in_seq in Hi.
  apply map_ext. intros n. f_equal. apply (polarAngle_moved dx dy); [exact H | lia].
Qed.

Lemma Moved_theta dx dy X Y th :
  Moved dx dy X Y -> Moved dx dy (set_theta th X) (set_theta th Y).
Proof. intros [? ? ? ? ? ? ? ? ?]. split; assumption || reflexivity. Qed.

(** The reconciliation reads the rows and the angles only. *)
Lemma reconcileNode_reads i X Y j :
  row X = row Y -> theta X = theta Y ->
  row (reconcileNode i X j) = row (reconcileNode i Y j) /\
  theta (reconcileNode i X j) = theta (reconcileNode i Y j).
Proof.
  intros Hrow Hth. unfold reconcileNode, childrenTheta, setTheta. cbv zeta.
  rewrite <- Hrow, <- Hth.
  destruct (nth_error (row_get (row X) i) j) as [n |]; [| now split].
  destruct (fold_left _ _ _) as [totalTheta counter].
  destruct (0 <? counter)%nat; [| now split].
  destruct (_ && _)%bool; [now split |].
  destruct (_ && _)%bool; now split.
Qed.

Lemma reconcile_reads X Y :
  row X = row Y -> theta X = theta Y -> theta (reconcile X) = theta (reconcile Y).
Proof.
  intros Hrow Hth. unfold reconcile. rewrite <- Hrow.
  apply (fold_left_related (fun a b => row a = row b /\ theta a = theta b));
    [| now split].
  intros a b i _ [Hr Ht]. unfold reconcileRow. rewrite <- Hr.
  apply (fold_left_related (fun a b => row a = row b /\ theta a = theta b));
    [| now split].
  intros a' b' j _ [Hr' Ht']. now apply reconcileNode_reads.
Qed.

Lemma emitted_moved dx dy X Y i n :
  Moved dx dy X Y -> (i < length (row X))%nat ->
  emitted Y i n = moved dx dy (emitted X i n).
Proof.
  intros H Hi. unfold emitted. cbv zeta.
  rewrite (mv_rowRadi _ _ _ _ H), (mv_centerX _ _ _ _ H), (mv_centerY _ _ _ _ H),
    (mv_geometry _ _ _ _ H), <- (mv_theta _ _ _ _ H) by exact Hi.
  unfold moved. cbn [x y width height]. f_equal; ring.
Qed.

Lemma locationWrites_moved dx dy X Y :
  Moved dx dy X Y ->
  locationWrites Y = map (fun w => (fst w, moved dx dy (snd w))) (locationWrites X).
Proof.
  intros H. unfold locationWrites. rewrite <- (mv_row _ _ _ _ H).
  rewrite !flat_map_concat_map, concat_map, map_map. f_equal.
  apply map_ext_in. intros i Hi. apply in_seq in Hi.
  rewrite map_map. apply map_ext. intros n. cbn [fst snd].
  f_equal. apply emitted_moved; [exact H | lia].
Qed.

Lemma writes_moved dx dy (ws : list (nat * mxRectangle)) g v :
  writes (map (fun w => (fst w, moved dx dy (snd w))) ws) (fun c => moved dx dy (g c)) v
  = moved dx dy (writes ws g v).
Proof.
  unfold writes. revert g. induction ws as [| [k b] ws IH]; intros g; [reflexivity |].
  cbn [map fold_left fst snd]. rewrite <- IH. f_equal.
  apply functional_extensionality. intros c. unfold upd. now destruct (Nat.eqb c k).
Qed.

Lemma setLocations_moved dx dy X Y v :
  Moved dx dy X Y ->
  geometry (setLocations Y) v = moved dx dy (geometry (setLocations X) v).
Proof.
  intros H. rewrite !setLocations_closed. cbn [geometry set_geometry].
  rewrite (locationWrites_moved dx dy X Y H), (mv_geometry _ _ _ _ H).
  apply writes_moved.
Qed.

(** The rows that are computed on the moved graph. *)
Lemma execute_rows_moved dx dy s1 s1' :
  node s1' = node s1 -> root s1' = root s1 -> nodeDistance s1' = nodeDistance s1 ->
  row s1' = row s1 -> rowRadi s1' = rowRadi s1 -> theta s1' = theta s1 ->
  geometry s1' = (fun v => moved dx dy (geometry s1 v)) ->
  (length (row s1) <= Nat.max 1 (depth (node s1)))%nat ->
  Moved dx dy (execute_rows s1) (execute_rows s1').
Proof.
  intros Hnode Hroot Hnd Hrow Hrad Hth Hg Hlen.
  pose proof (execute_rows_fresh s1 Hlen) as Hfresh.
  assert (Hfresh' : row (execute_rows s1') = treeRows (node s1)).
  { rewrite <- Hnode. apply execute_rows_fresh. now rewrite Hrow, Hnode. }
  destruct (execute_rows_fields s1) as (Hg1 & Hth1 & _ & _ & Hcx1 & Hcy1 & Hd1).
  destruct (execute_rows_fields s1') as (Hg1' & Hth1' & _ & _ & Hcx1' & Hcy1' & Hd1').
  assert (Hdims : forall j, (j < length (row (execute_rows s1)))%nat ->
            num_get (rowMinX (execute_rows s1')) j
            = num_get (rowMinX (execute_rows s1)) j + dx /\
            num_get (rowMaxX (execute_rows s1')) j
            = num_get (rowMaxX (execute_rows s1)) j + dx /\
            num_get (rowRadi (execute_rows s1')) j
            = num_get (rowRadi (execute_rows s1)) j).
  { intros j Hj. rewrite Hfresh, treeRows_length in Hj.
    destruct (execute_rows_dims s1 j Hj) as [_ E].
    destruct (execute_rows_dims s1' j) as [_ E']; [now rewrite Hnode |].
    unfold dims, dimsOf, execute_center, getVertexBounds in E, E'. cbn in E, E'.
    injection E as E1 E2 _ _ E5. injection E' as E1' E2' _ _ E5'.
    rewrite E1, E2, E5, E1', E2', E5', Hnode, Hroot, Hrad, Hg.
    cbn [moved x y width height].
    replace (x (geometry s1 (root s1)) + dx + width (geometry s1 (root s1)) / 2)
      with (x (geometry s1 (root s1)) + width (geometry s1 (root s1)) / 2 + dx) by lra.
    rewrite (rowMin_moved x), (rowMax_moved rightEdge), lastRadius_moved;
      [now repeat split | |]; intros b; unfold rightEdge; cbn [moved x width]; lra. }
  split.
  - congruence.
  - congruence.
  - intros j Hj. apply (Hdims j Hj).
  - intros j Hj. apply (Hdims j Hj).
  - intros j Hj. apply (Hdims j Hj).
  - now rewrite Hg1', Hg, Hg1.
  - rewrite Hcx1, Hcx1', Hroot, Hg. cbn [moved x width]. lra.
  - rewrite Hcy1, Hcy1', Hroot, Hg. cbn [moved y height]. lra.
  - congruence.
Qed.

(** X26: the radial layout follows the compact layout: when the compact
    layout puts every vertex [(dx, dy)] further, on an instance that holds no
    rows of an earlier, deeper run, execute puts every vertex [(dx, dy)]
    further, and gives every vertex below the root the same angle. *)
Theorem execute_follows_the_compact_layout compact parent_ root_ s dx dy :
  (length (row s) <= Nat.max 1 (depth (c_node (compact parent_ root_))))%nat ->
  (forall v,
      geometry (execute (movedCompact dx dy compact) parent_ root_
                  (set_geometry (fun c => moved dx dy (geometry s c)) s)) v
      = moved dx dy (geometry (execute compact parent_ root_ s) v)) /\
  theta (execute (movedCompact dx dy compact) parent_ root_
           (set_geometry (fun c => moved dx dy (geometry s c)) s))
  = theta (execute compact parent_ root_ s).
Proof.
  intros Hlen.
  remember (super_execute compact parent_ root_ (execute_prologue parent_ s)) as s1 eqn:Hs1.
  remember (super_execute (movedCompact dx dy compact) parent_ root_
              (execute_prologue parent_
                 (set_geometry (fun c => moved dx dy (geometry s c)) s))) as s1' eqn:Hs1'.
  assert (HM : Moved dx dy (execute_rows s1) (execute_rows s1')).
  { apply execute_rows_moved; try (subst s1 s1'; reflexivity).
    - subst s1 s1'. apply functional_extensionality. intros v.
      unfold super_execute, movedCompact. cbn.
      now destruct (c_bounds (compact parent_ root_) v).
    - subst s1. exact Hlen. }
  assert (HA : Moved dx dy (execute_angles s1) (execute_angles s1')).
  { unfold execute_angles. rewrite (steepestGradients_moved dx dy _ _ HM).
    rewrite !assignTheta_closed, (thetaWrites_moved dx dy _ _ _ _ HM),
      <- (mv_theta _ _ _ _ HM).
    now apply Moved_theta. }
  assert (HR : Moved dx dy (reconcile (execute_angles s1)) (reconcile (execute_angles s1'))).
  { pose proof (reconcile_sameButTheta (execute_angles s1)) as E.
    pose proof (reconcile_sameButTheta (execute_angles s1')) as E'.
    unfold sameButTheta in E, E'. rewrite E, E'.
    rewrite <- (reconcile_reads _ _ (mv_row _ _ _ _ HA) (mv_theta _ _ _ _ HA)).
    now apply Moved_theta. }
  rewrite !execute_phases, <- Hs1, <- Hs1'. split.
  - intros v. now apply setLocations_moved.
  - destruct (setLocations_fields (reconcile (execute_angles s1))) as (_ & -> & _).
    destruct (setLocations_fields (reconcile (execute_angles s1'))) as (_ & -> & _).
    symmetry. apply (mv_theta _ _ _ _ HR).
Qed.

Lemma execute_follows_the_compact_layout_witness :
  theta (execute (movedCompact 5 7 twoTreesCompact) 0%nat (Some 3%nat)
           (set_geometry (fun c => moved 5 7 (geometry (newLayout twoTreesBounds) c))
              (newLayout twoTreesBounds)))
  = theta (execute twoTreesCompact 0%nat (Some 3%nat) (newLayout twoTreesBounds)).
Proof.
  apply (execute_follows_the_compact_layout twoTreesCompact 0%nat (Some 3%nat)
           (newLayout twoTreesBounds) 5 7).
  cbn. lia.
Defined.

(** * The helpers *)

(** ** getValue *)

(** X3: the result of [getValue] is null or undefined only when both the entry
    and the default are; an entry that is neither is returned itself, also
    when it is false, zero or the empty string. *)
Theorem getValue_isNotNullish array key defaultValue :
  Utils.isNotNullish (Utils.getValue array key defaultValue)
  = (match array with Some a => Utils.isNotNullish (a key) | None => false end
     || Utils.isNotNullish defaultValue)%bool /\
  (forall a, array = Some a -> Utils.isNotNullish (a key) = true ->
             Utils.getValue array key defaultValue = a key).
Proof.
  unfold Utils.getValue, Utils.isNotNullish. split.
  - destruct array as [a |]; cbn; [destruct (a key) |]; reflexivity.
  - intros a -> H. cbv zeta. destruct (a key); try discriminate; reflexivity.
Qed.

(** ** Object.defineProperty and mixInto *)

Lemma PropertyKey_eqb_spec a b : reflect (a = b) (PropertyKey_eqb a b).
Proof.
  destruct a as [s | n], b as [t | m]; cbn; try (constructor; discriminate).
  - destruct (String.eqb_spec s t); constructor; congruence.
  - destruct (Nat.eqb_spec n m); constructor; congruence.
Qed.

Lemma PropertyKey_eqb_refl a : PropertyKey_eqb a a = true.
Proof. now destruct (PropertyKey_eqb_spec a a). Qed.

Lemma PropertyKey_eqb_neq a b : a <> b -> PropertyKey_eqb a b = false.
Proof. now destruct (PropertyKey_eqb_spec a b). Qed.

(** [Object.defineProperty] throws exactly on a locked key, and otherwise
    sets the property. *)
Lemma defineProperty_cases o key v :
  (locked o key = true /\ defineProperty o key v = None) \/
  (locked o key = false /\
   defineProperty o key v = Some (setProperty key (defined (properties o key) v) o)).
Proof.
  unfold locked, defineProperty, defined.
  destruct (properties o key) as [[? w e c | ? ? e c] |].
  - destruct (c || w)%bool; [right | left]; now split.
  - destruct c; [right | left]; now split.
  - destruct (extensible o); [right | left]; now split.
Qed.

Lemma setProperty_same key p o : properties (setProperty key p o) key = Some p.
Proof. cbn. now rewrite PropertyKey_eqb_refl. Qed.

Lemma setProperty_other key p o k :
  k <> key -> properties (setProperty key p o) k = properties o k.
Proof. intros H. cbn. now rewrite PropertyKey_eqb_neq. Qed.

Lemma locked_setProperty_other key p o k :
  k <> key -> locked (setProperty key p o) k = locked o k.
Proof. intros H. unfold locked. now rewrite setProperty_other. Qed.

(** A property that [defineProperty] has set can be set again. *)
Lemma locked_defined key old v o :
  locked (setProperty key (defined old v) o) key = false.
Proof.
  unfold locked. rewrite setProperty_same.
  destruct old as [[? w e c | ? ? e c] |]; cbn; now rewrite ?orb_true_r.
Qed.

Lemma defined_twice old v v' : defined (Some (defined old v)) v' = defined old v'.
Proof. now destruct old as [[? w e c | ? ? e c] |]. Qed.

(** The loop over keys none of which is locked. *)
Lemma defineAll_unlocked mixin :
  forall o,
  NoDup (map fst mixin) ->
  (forall k, In k (map fst mixin) -> locked o k = false) ->
  exists o',
    Utils.defineAll o mixin = (o', false) /\
    (forall k v, In (k, v) mixin ->
                 properties o' k = Some (defined (properties o k) v)) /\
    (forall k, ~ In k (map fst mixin) -> properties o' k = properties o k) /\
    extensible o' = extensible o.
Proof.
  induction mixin as [| [key v] rest IH]; intros o Hnd Hfree.
  - exists o. split; [reflexivity |]. split; [intros k v [] |]. now split.
  - cbn [map fst] in Hnd. inversion Hnd as [| ? ? Hnotin Hnd']; subst.
    destruct (defineProperty_cases o key v) as [[Hl _] | [_ Hdef]].
    { rewrite Hfree in Hl by now left. discriminate. }
    destruct (IH (setProperty key (defined (properties o key) v) o) Hnd')
      as (o' & Hrun & Hin & Hout & Hext).
    { intros k Hk. rewrite locked_setProperty_other by congruence.
      apply Hfree. now right. }
    exists o'. cbn [Utils.defineAll]. rewrite Hdef. split; [exact Hrun |].
    split; [| split].
    + intros k w [E | Hk].
      * injection E as <- <-. rewrite (Hout key Hnotin). apply setProperty_same.
      * rewrite (Hin k w Hk), setProperty_other; [reflexivity |].
        intros ->. apply Hnotin. apply in_map_iff. now exists (key, w).
    + intros k Hk. cbn [map fst In] in Hk.
      rewrite Hout by tauto. apply setProperty_other. intros ->. tauto.
    + exact Hext.
Qed.

(** X4: when [dest.prototype] is an object none of the keys of the mixin is
    locked on, [mixInto] copies every value of the mixin and logs no error.
    Each copied property is writable; it is not enumerable and not
    configurable when it is new, and keeps these attributes when it was
    there.  The other properties stay as they were. *)
Theorem mixInto_copies_every_key o mixin :
  NoDup (map fst mixin) ->
  (forall k, In k (map fst mixin) -> locked o k = false) ->
  exists o',
    Utils.mixInto (Some o) (Some mixin) = Some (Utils.mkMixed (Some o') false) /\
    (forall k v, In (k, v) mixin ->
                 properties o' k = Some (defined (properties o k) v)) /\
    (forall k, ~ In k (map fst mixin) -> properties o' k = properties o k) /\
    extensible o' = extensible o.
Proof.
  intros Hnd Hfree.
  destruct (defineAll_unlocked mixin o Hnd Hfree) as (o' & Hrun & H).
  exists o'. split; [| exact H]. unfold Utils.mixInto. now rewrite Hrun.
Qed.

Lemma defineAll_app before after o :
  Utils.defineAll o (before ++ after)
  = if snd (Utils.defineAll o before) then Utils.defineAll o before
    else Utils.defineAll (fst (Utils.defineAll o before)) after.
Proof.
  revert o. induction before as [| [key v] before IH]; intros o; [reflexivity |].
  cbn [app Utils.defineAll].
  destruct (defineProperty o key v) as [o' |]; [apply IH | reflexivity].
Qed.

(** X5: [mixInto] does not undo what it did when a key cannot be defined: the
    keys before the first locked one are copied, that key and the keys after
    it are not, and the error is logged. *)
Theorem mixInto_stops_at_the_first_locked_key o before key v after :
  NoDup (map fst before) -> ~ In key (map fst before) ->
  (forall k, In k (map fst before) -> locked o k = false) ->
  locked o key = true ->
  exists o',
    Utils.mixInto (Some o) (Some (before ++ (key, v) :: after))
    = Some (Utils.mkMixed (Some o') true) /\
    (forall k w, In (k, w) before ->
                 properties o' k = Some (defined (properties o k) w)) /\
    (forall k, ~ In k (map fst before) -> properties o' k = properties o k).
Proof.
  intros Hnd Hkey Hfree Hlocked.
  destruct (defineAll_unlocked before o Hnd Hfree) as (o' & Hrun & Hin & Hout & Hext).
  exists o'. split; [| split; assumption].
  unfold Utils.mixInto. rewrite defineAll_app, Hrun. cbn [fst snd Utils.defineAll].
  destruct (defineProperty_cases o' key v) as [[_ ->] | [Hl _]]; [reflexivity |].
  unfold locked in Hl, Hlocked. rewrite (Hout key Hkey), Hext in Hl. congruence.
Qed.

Lemma setProperty_id key p o : properties o key = Some p -> setProperty key p o = o.
Proof.
  intros H. destruct o as [ps ext]. unfold setProperty. cbn in *. f_equal.
  apply functional_extensionality. intros k.
  destruct (PropertyKey_eqb_spec k key) as [-> |]; congruence.
Qed.

(** Defining again what is defined changes nothing. *)
Lemma defineAll_again mixin :
  forall o,
  (forall k v, In (k, v) mixin ->
               exists old, properties o k = Some (defined old v)) ->
  Utils.defineAll o mixin = (o, false).
Proof.
  induction mixin as [| [key v] rest IH]; intros o H; [reflexivity |].
  cbn [Utils.defineAll].
  destruct (H key v) as [old Hold]; [now left |].
  destruct (defineProperty_cases o key v) as [[Hl _] | [_ ->]].
  - unfold locked in Hl. rewrite Hold in Hl.
    destruct old as [[? w e c | ? ? e c] |]; cbn in Hl;
      rewrite ?orb_true_r in Hl; discriminate.
  - rewrite Hold, defined_twice, setProperty_id by exact Hold.
    apply IH. intros k w Hk. apply H. now right.
Qed.

(** The loop ends at a key: the keys before it were defined, and it is
    locked. *)
Lemma defineAll_failed mixin :
  forall o o',
  Utils.defineAll o mixin = (o', true) ->
  exists before key v after,
    mixin = before ++ (key, v) :: after /\
    Utils.defineAll o before = (o', false) /\ defineProperty o' key v = None.
Proof.
  induction mixin as [| [key v] rest IH]; intros o o' H; [discriminate |].
  cbn [Utils.defineAll] in H. destruct (defineProperty o key v) as [o1 |] eqn:E.
  - destruct (IH o1 o' H) as (before & key' & v' & after & -> & Hrun & Hfail).
    exists ((key, v) :: before), key', v', after. split; [reflexivity |].
    split; [| exact Hfail]. cbn [Utils.defineAll]. now rewrite E.
  - injection H as <-. exists [], key, v, rest. now repeat split.
Qed.

(** What the loop leaves under the keys it defined. *)
Lemma defineAll_defined mixin :
  forall o o',
  NoDup (map fst mixin) ->
  Utils.defineAll o mixin = (o', false) ->
  forall k v, In (k, v) mixin -> exists old, properties o' k = Some (defined old v).
Proof.
  intros o o' Hnd Hrun k v Hk.
  assert (Hfree : forall k, In k (map fst mixin) -> locked o k = false).
  { revert o Hnd Hrun. clear Hk. induction mixin as [| [key w] rest IH]; intros o Hnd Hrun k' Hk'.
    - contradiction.
    - cbn [map fst] in Hnd. inversion Hnd as [| ? ? Hnotin Hnd']; subst.
      cbn [Utils.defineAll] in Hrun.
      destruct (defineProperty_cases o key w) as [[_ E] | [Hl E]];
        rewrite E in Hrun; [discriminate |].
      destruct Hk' as [<- | Hk']; [exact Hl |].
      rewrite <- (locked_setProperty_other key (defined (properties o key) w) o).
      + now apply (IH _ Hnd' Hrun).
      + intros ->. contradiction. }
  destruct (defineAll_unlocked mixin o Hnd Hfree) as (o'' & Hrun' & Hin & _).
  rewrite Hrun in Hrun'. injection Hrun' as <-.
  exists (properties o k). now apply Hin.
Qed.

(** X6: mixing the same mixin in a second time changes nothing more: the
    second call leaves the object that the first left and logs an error
    exactly when the first did. *)
Theorem mixInto_twice dest mixin m :
  NoDup (map fst mixin) ->
  Utils.mixInto dest (Some mixin) = Some m ->
  Utils.mixInto (Utils.prototype m) (Some mixin) = Some m.
Proof.
  intros Hnd. unfold Utils.mixInto. destruct dest as [o |].
  - destruct (Utils.defineAll o mixin) as [o' failed] eqn:Hrun.
    intros E. injection E as <-. cbn [Utils.prototype].
    destruct failed.
    + destruct (defineAll_failed mixin o o' Hrun)
        as (before & key & v & after & -> & Hbefore & Hfail).
      rewrite defineAll_app.
      assert (Hnd' : NoDup (map fst before)).
      { rewrite map_app in Hnd. now apply NoDup_app_remove_r in Hnd. }
      rewrite (defineAll_again before o'
                 (defineAll_defined before o o' Hnd' Hbefore)).
      cbn [fst snd Utils.defineAll]. now rewrite Hfail.
    + now rewrite (defineAll_again mixin o' (defineAll_defined mixin o o' Hnd Hrun)).
  - intros E. injection E as <-. reflexivity.
Qed.

(** * The codec registry *)

Lemma register_codecs c r n :
  CodecRegistry.codecs (fst (CodecRegistry.register (Some c) r)) n
  = if String.eqb n (CodecRegistry.getName c) then Some c else CodecRegistry.codecs r n.
Proof.
  unfold CodecRegistry.register. cbv zeta. cbn [fst].
  now destruct (negb _).
Qed.

Lemma register_aliases c r n :
  CodecRegistry.aliases (fst (CodecRegistry.register (Some c) r)) n
  = if negb (String.eqb (CodecRegistry.template_constructor_name c) (CodecRegistry.getName c))
       && String.eqb n (CodecRegistry.template_constructor_name c)
    then Some (CodecRegistry.getName c)
    else CodecRegistry.aliases r n.
Proof.
  unfold CodecRegistry.register. cbv zeta. cbn [fst].
  destruct (negb _); reflexivity.
Qed.

(** X7: after a sequence of registrations a name gives the codec that was
    registered last under it, and what it gave before when none was: a
    registration replaces the codec of its name and no other. *)
Theorem getCodecByName_after_registrations cs r n :
  CodecRegistry.getCodecByName n (registerAll cs r)
  = match lastNamed n cs with
    | Some c => Some c
    | None => CodecRegistry.getCodecByName n r
    end.
Proof.
  unfold registerAll, lastNamed, CodecRegistry.getCodecByName.
  induction cs as [| c cs IH] using rev_ind; [reflexivity |].
  rewrite fold_left_app, rev_app_distr. cbn [fold_left rev app find].
  rewrite register_codecs, (String.eqb_sym n).
  destruct (String.eqb (CodecRegistry.getName c) n); [reflexivity | exact IH].
Qed.

(** Where a codec is found after it was registered while no alias
    redirected its name. *)
Lemma registered_lookup c r n :
  CodecRegistry.aliases r (CodecRegistry.getName c) = None ->
  n = CodecRegistry.getName c \/ n = CodecRegistry.template_constructor_name c ->
  CodecRegistry.codecs (fst (CodecRegistry.register (Some c) r))
    (resolved (fst (CodecRegistry.register (Some c) r)) n)
  = Some c.
Proof.
  intros Hfree Hn. unfold resolved. rewrite register_aliases.
  destruct (String.eqb_spec (CodecRegistry.template_constructor_name c)
              (CodecRegistry.getName c)) as [E | E]; cbn [negb andb].
  - assert (n = CodecRegistry.getName c) as -> by (destruct Hn; congruence).
    rewrite Hfree, register_codecs, String.eqb_refl. reflexivity.
  - destruct (String.eqb_spec n (CodecRegistry.template_constructor_name c)) as [-> | E'].
    + rewrite register_codecs, String.eqb_refl. reflexivity.
    + assert (n = CodecRegistry.getName c) as -> by (destruct Hn; congruence).
      rewrite Hfree, register_codecs, String.eqb_refl. reflexivity.
Qed.

(** X8: a codec that is registered while no alias redirects its name is found
    by [getCodec] under its name and under the class name of its template,
    also for a constructor of that name, which is not called; these lookups
    leave the registry as it is. *)
Theorem getCodec_finds_registered c r r' key :
  CodecRegistry.aliases r (CodecRegistry.getName c) = None ->
  r' = fst (CodecRegistry.register (Some c) r) ->
  key = inl (CodecRegistry.getName c) \/
  key = inl (CodecRegistry.template_constructor_name c) \/
  (exists ctor, key = inr ctor /\
                CodecRegistry.name ctor = CodecRegistry.template_constructor_name c) ->
  CodecRegistry.getCodec (Some key) r' = (r', Some c).
Proof.
  intros Hfree -> Hkey.
  pose proof (registered_lookup c r) as Hname. unfold resolved in Hname.
  unfold CodecRegistry.getCodec. cbv zeta.
  destruct Hkey as [-> | [-> | (ctor & -> & Hctor)]].
  - rewrite Hname by (assumption || now left). reflexivity.
  - rewrite Hname by (assumption || now right). reflexivity.
  - rewrite Hctor, Hname by (assumption || now right). reflexivity.
Qed.

(** X9: an alias that is there for the name of a codec hides the codec from
    [getCodec]: asked for that name, it gives what the registry held under
    the target of the alias, and [getCodecByName] gives the codec. *)
Theorem getCodec_follows_an_earlier_alias c r target :
  CodecRegistry.aliases r (CodecRegistry.getName c) = Some target ->
  target <> CodecRegistry.getName c ->
  CodecRegistry.getCodec (Some (inl (CodecRegistry.getName c)))
    (fst (CodecRegistry.register (Some c) r))
  = (fst (CodecRegistry.register (Some c) r), CodecRegistry.getCodecByName target r) /\
  CodecRegistry.getCodecByName (CodecRegistry.getName c)
    (fst (CodecRegistry.register (Some c) r)) = Some c.
Proof.
  intros Halias Hneq. unfold CodecRegistry.getCodecByName. split.
  - unfold CodecRegistry.getCodec. cbv zeta. rewrite register_aliases.
    replace (negb _ && _)%bool with false.
    + rewrite Halias, register_codecs.
      destruct (String.eqb_spec target (CodecRegistry.getName c)); [contradiction |].
      now destruct (CodecRegistry.codecs r target).
    + destruct (String.eqb_spec (CodecRegistry.template_constructor_name c)
                  (CodecRegistry.getName c)) as [E | E]; [reflexivity |].
      cbn [negb andb]. symmetry. apply String.eqb_neq. congruence.
  - now rewrite register_codecs, String.eqb_refl.
Qed.

(** X10: [getCodec] changes the registry only when it is given a constructor,
    holds no codec under the name it looks up, and the construction of a
    codec succeeds.  In every other case it leaves the registry as it is and
    returns what [getCodecByName] gives for that name, or null for a null
    argument. *)
Theorem getCodec_only_looks_up constructor_ r :
  (forall ctor, constructor_ = Some (inr ctor) ->
                CodecRegistry.codecs r (resolved r (CodecRegistry.name ctor)) <> None \/
                CodecRegistry.new_ObjectCodec ctor = None) ->
  CodecRegistry.getCodec constructor_ r
  = (r, match constructor_ with
        | None => None
        | Some (inl s) => CodecRegistry.getCodecByName (resolved r s) r
        | Some (inr ctor) =>
            CodecRegistry.getCodecByName (resolved r (CodecRegistry.name ctor)) r
        end).
Proof.
  intros H. unfold CodecRegistry.getCodec, CodecRegistry.getCodecByName, resolved in *.
  cbv zeta. destruct constructor_ as [[s | ctor] |]; [| | reflexivity].
  - now destruct (CodecRegistry.codecs r _).
  - destruct (CodecRegistry.codecs r _) eqn:E; [reflexivity |].
    destruct (H ctor eq_refl) as [Hc | Hc]; [congruence |]. now rewrite Hc.
Qed.

(** X11: asked for a constructor it has no codec for, [getCodec] makes one,
    registers it and returns it; when the new codec bears the name of the
    constructor, the next call returns the same codec and leaves the registry
    as it is. *)
Theorem getCodec_creates_once ctor c r r' :
  CodecRegistry.aliases r (CodecRegistry.name ctor) = None ->
  CodecRegistry.codecs r (CodecRegistry.name ctor) = None ->
  CodecRegistry.new_ObjectCodec ctor = Some c ->
  CodecRegistry.getName c = CodecRegistry.name ctor ->
  r' = fst (CodecRegistry.register (Some c) r) ->
  CodecRegistry.getCodec (Some (inr ctor)) r = (r', Some c) /\
  CodecRegistry.getCodec (Some (inr ctor)) r' = (r', Some c).
Proof.
  intros Halias Hnone Hnew Hname ->. split.
  - unfold CodecRegistry.getCodec. cbv zeta. now rewrite Halias, Hnone, Hnew.
  - pose proof (registered_lookup c r (CodecRegistry.name ctor)) as Hfound.
    unfold resolved in Hfound. rewrite <- Hname in Halias.
    unfold CodecRegistry.getCodec. cbv zeta.
    rewrite Hfound by (assumption || (left; congruence)). reflexivity.
Qed.

(** * The clipboard helper *)


(** X18: once the text area is in the document and has the focus and the
    selection, [fallbackCopyTextToClipboard] takes it out again as its last
    call and returns, whether [document.execCommand] reports success, reports
    failure or throws; it leaves the text area in the document only when its
    own report to the console throws in the handler, or [removeChild]
    does. *)
Theorem fallback_removes_the_text_area throws successful text :
  throws (Clipboard.createElement "textarea") = false ->
  throws Clipboard.appendChild = false ->
  throws Clipboard.focus = false ->
  throws Clipboard.select = false ->
  throws (Clipboard.console_error "Fallback: Oops, unable to copy") = false ->
  exists inner,
    fst (Clipboard.fallbackCopyTextToClipboard throws successful text)
    = Clipboard.createElement "textarea" :: Clipboard.appendChild :: Clipboard.focus
      :: Clipboard.select :: Clipboard.execCommand "copy" :: inner
      ++ [Clipboard.removeChild] /\
    ~ In Clipboard.removeChild inner /\ ~ In Clipboard.appendChild inner /\
    (throws Clipboard.removeChild = false ->
     snd (Clipboard.fallbackCopyTextToClipboard throws successful text) = Some tt).
Proof.
  intros H1 H2 H3 H4 H5. unfold Clipboard.fallbackCopyTextToClipboard.
  unfold Clipboard.bind, Clipboard.try_catch, Clipboard.call, Clipboard.ret.
  rewrite H1, H2, H3, H4, H5. cbv beta iota zeta delta [fst snd app].
  destruct (throws (Clipboard.execCommand "copy")).
  - exists [Clipboard.console_error "Fallback: Oops, unable to copy"].
    cbv beta iota zeta delta [fst snd app].
    split; [reflexivity |]. split; [cbn; intuition discriminate |].
    split; [cbn; intuition discriminate |]. now intros ->.
  - cbv beta iota zeta delta [fst snd app].
    destruct (throws (Clipboard.console_log _)) eqn:Hlog.
    + eexists [Clipboard.console_log _;
               Clipboard.console_error "Fallback: Oops, unable to copy"].
      cbv beta iota zeta delta [fst snd app].
      split; [reflexivity |]. split; [cbn; intuition discriminate |].
      split; [cbn; intuition discriminate |]. now intros ->.
    + eexists [Clipboard.console_log _].
      cbv beta iota zeta delta [fst snd app].
      split; [reflexivity |]. split; [cbn; intuition discriminate |].
      split; [cbn; intuition discriminate |]. now intros ->.
Qed.


(** * The toolbar *)

Ltac run_step :=
  cbv beta iota zeta delta
    [fst snd app mxDefaultToolbar.editor mxDefaultToolbar.toolbar
     mxDefaultToolbar.resetHandler mxDefaultToolbar.spacing
     mxDefaultToolbar.connectOnDrop].

Ltac walk throws :=
  repeat (run_step;
          match goal with
          | |- context [if throws ?c then _ else _] => destruct (throws c)
          end);
  run_step.

Ltac run_method :=
  unfold mxDefaultToolbar.bind, mxDefaultToolbar.field, mxDefaultToolbar.nonNull,
    mxDefaultToolbar.ret, mxDefaultToolbar.throw, mxDefaultToolbar.call,
    mxDefaultToolbar.call_returning, mxDefaultToolbar.finally, mxDefaultToolbar.assign,
    mxDefaultToolbar.calls, mxDefaultToolbar.result.

(** X12: [connect] puts the new vertex beside the cell it is dropped on and
    keeps its size.  With horizontal flow the left side of the vertex lies
    [spacing * gridSize + 20 * (outgoing edges of the cell)] to the right of
    the right side of the cell, and the two are centered on the same
    horizontal line; without it, the same holds downwards. *)
Theorem connect_places_the_vertex throws this ed vertex evt source gv gs g :
  mxDefaultToolbar.editor this = Some ed ->
  mxDefaultToolbar.getGeometry ed vertex = Some gv ->
  mxDefaultToolbar.getGeometry ed source = Some gs ->
  In (mxDefaultToolbar.setGeometry vertex g)
     (mxDefaultToolbar.calls
        (mxDefaultToolbar.connect throws vertex evt (Some source) this)) ->
  width g = width gv /\ height g = height gv /\
  if mxDefaultToolbar.horizontalFlow ed
  then x g = x gs + width gs
             + (mxDefaultToolbar.spacing this * mxDefaultToolbar.gridSize ed
                + INR (mxDefaultToolbar.getDirectedEdgeCount ed source) * 20) /\
       y g + height g / 2 = y gs + height gs / 2
  else y g = y gs + height gs
             + (mxDefaultToolbar.spacing this * mxDefaultToolbar.gridSize ed
                + INR (mxDefaultToolbar.getDirectedEdgeCount ed source) * 20) /\
       x g + width g / 2 = x gs + width gs / 2.
Proof.
  intros Hed Hgv Hgs. unfold mxDefaultToolbar.connect. run_method.
  rewrite Hed, Hgv, Hgs.
  destruct (_ && _)%bool; [| intros []].
  set (placed := if mxDefaultToolbar.horizontalFlow ed then _ else _).
  intros Hin.
  assert (E : g = placed).
  { revert Hin. generalize placed. intros p.
    destruct (mxDefaultToolbar.getGeometry ed (mxDefaultToolbar.createdEdge ed source vertex)).
    all: walk throws.
    all: cbn [In]; intros H; decompose [or] H; clear H;
      try discriminate; try contradiction.
    all: match goal with H : mxDefaultToolbar.setGeometry _ _ = _ |- _ =>
           injection H as ->; reflexivity end. }
  subst g placed.
  destruct (mxDefaultToolbar.horizontalFlow ed); cbn [x y width height];
    repeat split; lra.
Qed.



(** X14: when the vertex or the cell it is dropped on has no geometry,
    [connect] throws; it has begun and ended an update by then and has added
    nothing to the graph. *)
Theorem connect_without_geometry throws this ed vertex evt source :
  mxDefaultToolbar.editor this = Some ed ->
  mxDefaultToolbar.isCellConnectable ed vertex = true ->
  mxDefaultToolbar.isEdgeValid ed source vertex = true ->
  throws mxDefaultToolbar.beginUpdate = false ->
  mxDefaultToolbar.getGeometry ed vertex = None \/
  mxDefaultToolbar.getGeometry ed source = None ->
  mxDefaultToolbar.connect throws vertex evt (Some source) this
  = (this, ([mxDefaultToolbar.beginUpdate; mxDefaultToolbar.endUpdate], None)).
Proof.
  intros Hed Hc Hv Hb Hgeo. unfold mxDefaultToolbar.connect. run_method.
  rewrite Hed, Hc, Hv, Hb. cbn [andb].
  destruct (mxDefaultToolbar.getGeometry ed vertex) as [gv |].
  - destruct Hgeo as [Hgeo | Hgeo]; [discriminate |]. rewrite Hgeo.
    now destruct (throws mxDefaultToolbar.endUpdate).
  - now destruct (throws mxDefaultToolbar.endUpdate).
Qed.

Lemma mxCell_induction (P : mxDefaultToolbar.mxCell -> Prop) :
  (forall i p, (forall c, p = Some c -> P c) -> P (mxDefaultToolbar.mkCell i p)) ->
  forall c, P c.
Proof.
  intros H. fix IH 1. intros [i p]. apply H.
  destruct p as [c |]; intros c' E; [injection E as <-; apply IH | discriminate].
Qed.

(** The loop of [drop] ends at the first valid drop target. *)
Lemma validTargetFrom_nearest graph vertex evt t :
  nearestValidTarget graph vertex evt (Some t)
    (mxDefaultToolbar.validTargetFrom graph vertex evt t).
Proof.
  induction t as [i p IH] using mxCell_induction.
  cbn [mxDefaultToolbar.validTargetFrom mxDefaultToolbar.cell_parent].
  destruct (mxDefaultToolbar.isValidDropTarget graph (mxDefaultToolbar.mkCell i p) vertex evt)
    eqn:Hvalid; cbn [negb].
  - exists [], (match p with Some c => cellAndAncestors c | None => [] end).
    split; [reflexivity |]. split; [exact Hvalid | intros c []].
  - destruct p as [c |].
    + specialize (IH c eq_refl). unfold nearestValidTarget in *.
      cbn [cellAndAncestors mxDefaultToolbar.cell_parent].
      destruct (mxDefaultToolbar.validTargetFrom graph vertex evt c) as [found |].
      * destruct IH as (inner & outer & E & Hfound & Hinner).
        exists (mxDefaultToolbar.mkCell i (Some c) :: inner), outer.
        split; [cbn; now rewrite E |]. split; [exact Hfound |].
        intros c' [<- | Hc']; [exact Hvalid | now apply Hinner].
      * intros c' [<- | Hc']; [exact Hvalid | now apply IH].
    + intros c' [<- | []]. exact Hvalid.
Qed.

(** The calls of [insert]: it makes one only where [mxEvent] is bound. *)
Lemma insert_calls throws returned mxEvent_defined this ed vertex evt target c :
  mxDefaultToolbar.editor this = Some ed ->
  In c (mxDefaultToolbar.calls
          (mxDefaultToolbar.insert throws returned mxEvent_defined vertex evt target this)) ->
  mxEvent_defined = true /\
  mxDefaultToolbar.canImportCell ed vertex = true /\
  (c = mxDefaultToolbar.addVertex target vertex
         (fst (mxDefaultToolbar.convertPoint ed (mxDefaultToolbar.clientX evt)
                 (mxDefaultToolbar.clientY evt)))
         (snd (mxDefaultToolbar.convertPoint ed (mxDefaultToolbar.clientX evt)
                 (mxDefaultToolbar.clientY evt))) \/
   c = mxDefaultToolbar.splitEdge target vertex
         (fst (mxDefaultToolbar.convertPoint ed (mxDefaultToolbar.clientX evt)
                 (mxDefaultToolbar.clientY evt)))
         (snd (mxDefaultToolbar.convertPoint ed (mxDefaultToolbar.clientX evt)
                 (mxDefaultToolbar.clientY evt)))).
Proof.
  intros Hed. unfold mxDefaultToolbar.insert, mxDefaultToolbar.mxEvent. run_method.
  rewrite Hed.
  destruct (mxDefaultToolbar.canImportCell ed vertex); [| intros []].
  destruct mxEvent_defined; [| intros []].
  destruct (_ && _)%bool; cbn; intros [<- | []]; auto.
Qed.

(** [insert] where [mxEvent] is not bound: it throws for a vertex that the
    graph can import, before it makes a call. *)
Lemma insert_unbound throws returned this ed vertex evt target :
  mxDefaultToolbar.editor this = Some ed ->
  mxDefaultToolbar.insert throws returned false vertex evt target this
  = (this, ([], if mxDefaultToolbar.canImportCell ed vertex then None else Some None)).
Proof.
  intros Hed. unfold mxDefaultToolbar.insert, mxDefaultToolbar.mxEvent. run_method.
  rewrite Hed. now destruct (mxDefaultToolbar.canImportCell ed vertex).
Qed.

Lemma connect_calls_None throws this vertex evt :
  mxDefaultToolbar.calls (mxDefaultToolbar.connect throws vertex evt None this) = [].
Proof.
  unfold mxDefaultToolbar.connect. run_method.
  now destruct (mxDefaultToolbar.editor this).
Qed.

(** [connect] adds no vertex by [addVertex] or [splitEdge]. *)
Lemma connect_never_inserts throws this vertex evt source c :
  In c (mxDefaultToolbar.calls (mxDefaultToolbar.connect throws vertex evt source this)) ->
  match c with
  | mxDefaultToolbar.addVertex _ _ _ _ | mxDefaultToolbar.splitEdge _ _ _ _ => False
  | _ => True
  end.
Proof.
  unfold mxDefaultToolbar.connect. run_method.
  destruct (mxDefaultToolbar.editor this) as [ed |]; [| intros []].
  destruct source as [source |]; [| intros []].
  destruct (_ && _)%bool; [| intros []].
  destruct (mxDefaultToolbar.getGeometry ed vertex) as [gv |];
    destruct (mxDefaultToolbar.getGeometry ed source) as [gs |];
    try set (placed := if mxDefaultToolbar.horizontalFlow ed then _ else _);
    destruct (mxDefaultToolbar.getGeometry ed (mxDefaultToolbar.createdEdge ed source vertex)).
  all: walk throws.
  all: cbn [In]; intros H; decompose [or] H; clear H; subst; try exact I;
    try contradiction.
Qed.

(** Laws of the methods. *)
Lemma bind_field {A B} (f : mxDefaultToolbar.Toolbar -> A)
  (k : A -> mxDefaultToolbar.Method B) this :
  mxDefaultToolbar.bind (mxDefaultToolbar.field f) k this = k (f this) this.
Proof.
  unfold mxDefaultToolbar.bind, mxDefaultToolbar.field.
  now destruct (k (f this) this) as [t [cs b]].
Qed.

Lemma bind_nonNull {A B} (a : A) (k : A -> mxDefaultToolbar.Method B) this :
  mxDefaultToolbar.bind (mxDefaultToolbar.nonNull (Some a)) k this = k a this.
Proof.
  unfold mxDefaultToolbar.bind, mxDefaultToolbar.nonNull, mxDefaultToolbar.ret.
  now destruct (k a this) as [t [cs b]].
Qed.

Lemma calls_bind_ret {A B} (m : mxDefaultToolbar.Method A) (b : B) this :
  mxDefaultToolbar.calls (mxDefaultToolbar.bind m (fun _ => mxDefaultToolbar.ret b) this)
  = mxDefaultToolbar.calls (m this).
Proof.
  unfold mxDefaultToolbar.bind, mxDefaultToolbar.calls, mxDefaultToolbar.ret.
  destruct (m this) as [this' [cs [a |]]]; cbn; [apply app_nil_r | reflexivity].
Qed.

(** The two branches of [drop]. *)
Lemma drop_cases throws returned mxEvent_defined this ed vertex evt target :
  mxDefaultToolbar.editor this = Some ed ->
  mxDefaultToolbar.drop throws returned mxEvent_defined vertex evt target this
  = match target with
    | Some t =>
        if mxDefaultToolbar.isEdge ed t || negb (mxDefaultToolbar.connectOnDrop this)
           || negb (mxDefaultToolbar.isCellConnectable ed t)
        then mxDefaultToolbar.bind
               (mxDefaultToolbar.insert throws returned mxEvent_defined vertex evt
                  (mxDefaultToolbar.validTargetFrom ed vertex evt t))
               (fun _ => mxDefaultToolbar.ret tt) this
        else mxDefaultToolbar.connect throws vertex evt (Some t) this
    | None =>
        mxDefaultToolbar.bind
          (mxDefaultToolbar.insert throws returned mxEvent_defined vertex evt None)
          (fun _ => mxDefaultToolbar.ret tt) this
    end.
Proof.
  intros Hed. unfold mxDefaultToolbar.drop.
  rewrite bind_field, Hed, bind_nonNull, bind_field.
  destruct target as [t |]; [| reflexivity].
  now destruct (_ || _ || _)%bool.
Qed.

(** X15: [drop] begins a connection only when [connectOnDrop] is set and the
    target is a connectable cell that is not an edge; it then connects the
    vertex to the target itself, whether or not that is a valid drop
    target. *)
Theorem drop_connects_only_if throws returned mxEvent_defined this ed vertex evt target :
  mxDefaultToolbar.editor this = Some ed ->
  In mxDefaultToolbar.beginUpdate
     (mxDefaultToolbar.calls
        (mxDefaultToolbar.drop throws returned mxEvent_defined vertex evt target this)) ->
  mxDefaultToolbar.connectOnDrop this = true /\
  exists t, target = Some t /\
            mxDefaultToolbar.isEdge ed t = false /\
            mxDefaultToolbar.isCellConnectable ed t = true /\
            mxDefaultToolbar.drop throws returned mxEvent_defined vertex evt target this
            = mxDefaultToolbar.connect throws vertex evt (Some t) this.
Proof.
  intros Hed.
  assert (Hins : forall tgt,
             ~ In mxDefaultToolbar.beginUpdate
                 (mxDefaultToolbar.calls
                    (mxDefaultToolbar.bind
                       (mxDefaultToolbar.insert throws returned mxEvent_defined vertex evt tgt)
                       (fun _ => mxDefaultToolbar.ret tt) this))).
  { intros tgt Hin. rewrite calls_bind_ret in Hin.
    destruct (insert_calls throws returned mxEvent_defined this ed vertex evt tgt _ Hed Hin)
      as [_ [_ [H | H]]]; discriminate. }
  rewrite (drop_cases throws returned mxEvent_defined this ed vertex evt target Hed).
  destruct target as [t |]; [| intros Hin; now apply Hins in Hin].
  destruct (mxDefaultToolbar.isEdge ed t) eqn:He,
    (mxDefaultToolbar.connectOnDrop this) eqn:Hc,
    (mxDefaultToolbar.isCellConnectable ed t) eqn:Ht; cbn [orb negb];
    try (intros Hin; now apply Hins in Hin).
  intros _. split; [reflexivity |]. exists t. now repeat split.
Qed.

(** X16: what [drop] inserts, it inserts into the first valid drop target
    among the target and its ancestors, or into no cell when there is none,
    at the point of the event; it inserts only a vertex that the graph can
    import, and only where a global [mxEvent] is defined.  As the module
    stands, without such a global, a [drop] that does not connect makes no
    call at all: it throws for a vertex that the graph can import and returns
    for one that it cannot. *)
Theorem drop_inserts_into_the_nearest_valid_target
  throws returned mxEvent_defined this ed vertex evt target :
  mxDefaultToolbar.editor this = Some ed ->
  (forall into v px py,
      In (mxDefaultToolbar.addVertex into v px py)
         (mxDefaultToolbar.calls
            (mxDefaultToolbar.drop throws returned mxEvent_defined vertex evt target this)) \/
      In (mxDefaultToolbar.splitEdge into v px py)
         (mxDefaultToolbar.calls
            (mxDefaultToolbar.drop throws returned mxEvent_defined vertex evt target this)) ->
      mxEvent_defined = true /\
      v = vertex /\
      nearestValidTarget ed vertex evt target into /\
      (px, py) = mxDefaultToolbar.convertPoint ed (mxDefaultToolbar.clientX evt)
                   (mxDefaultToolbar.clientY evt) /\
      mxDefaultToolbar.canImportCell ed vertex = true) /\
  (mxEvent_defined = false ->
   (forall t, target = Some t ->
              mxDefaultToolbar.isEdge ed t = true \/
              mxDefaultToolbar.connectOnDrop this = false \/
              mxDefaultToolbar.isCellConnectable ed t = false) ->
   mxDefaultToolbar.drop throws returned mxEvent_defined vertex evt target this
   = (this, ([], if mxDefaultToolbar.canImportCell ed vertex then None else Some tt))).
Proof.
  intros Hed. split.
  - intros into v px py.
    assert (Hins : forall tgt c,
               c = mxDefaultToolbar.addVertex into v px py \/
               c = mxDefaultToolbar.splitEdge into v px py ->
               In c (mxDefaultToolbar.calls
                       (mxDefaultToolbar.bind
                          (mxDefaultToolbar.insert throws returned mxEvent_defined vertex evt tgt)
                          (fun _ => mxDefaultToolbar.ret tt) this)) ->
               mxEvent_defined = true /\ v = vertex /\ into = tgt /\
               (px, py) = mxDefaultToolbar.convertPoint ed (mxDefaultToolbar.clientX evt)
                            (mxDefaultToolbar.clientY evt) /\
               mxDefaultToolbar.canImportCell ed vertex = true).
    { intros tgt c Hc Hin. rewrite calls_bind_ret in Hin.
      destruct (insert_calls throws returned mxEvent_defined this ed vertex evt tgt _ Hed Hin)
        as (Hdef & Himp & Hc').
      destruct (mxDefaultToolbar.convertPoint ed _ _) as [qx qy]. cbn [fst snd] in Hc'.
      destruct Hc as [-> | ->], Hc' as [E | E]; try discriminate;
        injection E as -> -> -> ->; now repeat split. }
    assert (Hcon : forall t c,
               c = mxDefaultToolbar.addVertex into v px py \/
               c = mxDefaultToolbar.splitEdge into v px py ->
               ~ In c (mxDefaultToolbar.calls
                         (mxDefaultToolbar.connect throws vertex evt (Some t) this))).
    { intros t c Hc Hin. apply connect_never_inserts in Hin.
      now destruct Hc as [-> | ->]. }
    rewrite (drop_cases throws returned mxEvent_defined this ed vertex evt target Hed).
    intros Hin.
    assert (Hin' : exists c,
               (c = mxDefaultToolbar.addVertex into v px py \/
                c = mxDefaultToolbar.splitEdge into v px py) /\
               In c (mxDefaultToolbar.calls
                       match target with
                       | Some t =>
                           if mxDefaultToolbar.isEdge ed t
                              || negb (mxDefaultToolbar.connectOnDrop this)
                              || negb (mxDefaultToolbar.isCellConnectable ed t)
                           then mxDefaultToolbar.bind
                                  (mxDefaultToolbar.insert throws returned mxEvent_defined
                                     vertex evt
                                     (mxDefaultToolbar.validTargetFrom ed vertex evt t))
                                  (fun _ => mxDefaultToolbar.ret tt) this
                           else mxDefaultToolbar.connect throws vertex evt (Some t) this
                       | None =>
                           mxDefaultToolbar.bind
                             (mxDefaultToolbar.insert throws returned mxEvent_defined
                                vertex evt None)
                             (fun _ => mxDefaultToolbar.ret tt) this
                       end)).
    { destruct Hin as [Hin | Hin]; eexists; (split; [| exact Hin]); auto. }
    clear Hin. destruct Hin' as (c & Hc & Hin).
    destruct target as [t |].
    + destruct (_ || _ || _)%bool.
      * destruct (Hins _ c Hc Hin) as (Hdef & Hv & -> & Hpt & Himp).
        repeat split; try assumption. apply validTargetFrom_nearest.
      * now apply Hcon in Hin.
    + destruct (Hins _ c Hc Hin) as (Hdef & Hv & -> & Hpt & Himp).
      repeat split; try assumption. intros c' [].
  - intros -> Hbranch.
    rewrite (drop_cases throws returned false this ed vertex evt target Hed).
    assert (Hins : forall tgt,
               mxDefaultToolbar.bind
                 (mxDefaultToolbar.insert throws returned false vertex evt tgt)
                 (fun _ => mxDefaultToolbar.ret tt) this
               = (this, ([], if mxDefaultToolbar.canImportCell ed vertex
                             then None else Some tt))).
    { intros tgt. unfold mxDefaultToolbar.bind.
      rewrite (insert_unbound throws returned this ed vertex evt tgt Hed).
      now destruct (mxDefaultToolbar.canImportCell ed vertex). }
    destruct target as [t |]; [| apply Hins].
    destruct (Hbranch t eq_refl) as [-> | [-> | ->]]; cbn [orb negb];
      rewrite ?orb_true_r; apply Hins.
Qed.

(** X17: after a [destroy] that returned, the toolbar holds neither its reset
    handler nor the inner toolbar, and a second [destroy] makes no call and
    changes nothing. *)
Theorem destroy_twice throws this :
  mxDefaultToolbar.result (mxDefaultToolbar.destroy throws this) = Some tt ->
  mxDefaultToolbar.resetHandler (fst (mxDefaultToolbar.destroy throws this)) = None /\
  mxDefaultToolbar.toolbar (fst (mxDefaultToolbar.destroy throws this)) = None /\
  mxDefaultToolbar.destroy throws (fst (mxDefaultToolbar.destroy throws this))
  = (fst (mxDefaultToolbar.destroy throws this), ([], Some tt)).
Proof.
  unfold mxDefaultToolbar.destroy. run_method.
  destruct this as [ed tb rh sp cd]. cbn [mxDefaultToolbar.resetHandler
    mxDefaultToolbar.editor mxDefaultToolbar.toolbar mxDefaultToolbar.spacing
    mxDefaultToolbar.connectOnDrop].
  destruct rh as [h |]; [destruct ed as [ed |] |]; destruct tb as [t |].
  all: walk throws.
  all: cbn; try discriminate; intros _; repeat split; reflexivity.
Qed.

(** ** The life of a toolbar *)


(** X23: the handlers of the toolbar.  As the module stands, without a
    global [mxEvent], [init] installs none: it makes no call but
    [new mxToolbar] and stores no reset handler.  Where they are installed,
    and fire after a [destroy] that returned: the reset handler makes no
    call, and the insert function applies its function and then throws, as
    there is no inner toolbar to reset. *)
Theorem handlers_after_destroy throws mxEvent_defined mxToolbar_for bound_resetHandler
  this funct container :
  mxDefaultToolbar.result (mxDefaultToolbar.destroy throws this) = Some tt ->
  throws (mxDefaultToolbar.funct_apply funct container) = false ->
  mxDefaultToolbar.resetHandler_function throws
    (fst (mxDefaultToolbar.destroy throws this))
  = (fst (mxDefaultToolbar.destroy throws this), ([], Some tt)) /\
  mxDefaultToolbar.insertFunction throws funct container
    (fst (mxDefaultToolbar.destroy throws this))
  = (fst (mxDefaultToolbar.destroy throws this),
     ([mxDefaultToolbar.funct_apply funct container], None)) /\
  (mxEvent_defined = false ->
   forall c this0,
     mxDefaultToolbar.resetHandler
       (fst (mxDefaultToolbar.init throws mxEvent_defined mxToolbar_for bound_resetHandler
               (Some c) this0))
     = mxDefaultToolbar.resetHandler this0 /\
     mxDefaultToolbar.result
       (mxDefaultToolbar.init throws mxEvent_defined mxToolbar_for bound_resetHandler
          (Some c) this0) = None /\
     mxDefaultToolbar.calls
       (mxDefaultToolbar.init throws mxEvent_defined mxToolbar_for bound_resetHandler
          (Some c) this0)
     = [mxDefaultToolbar.new_mxToolbar c]).
Proof.
  intros Hret Hf. split; [| split].
  - revert Hret. unfold mxDefaultToolbar.destroy, mxDefaultToolbar.resetHandler_function.
    run_method. destruct this as [ed tb rh sp cd]. run_step.
    destruct rh as [h |]; [destruct ed as [ed |] |]; destruct tb as [t |].
    all: walk throws.
    all: cbn; try discriminate; intros _; reflexivity.
  - revert Hret. unfold mxDefaultToolbar.destroy, mxDefaultToolbar.insertFunction.
    run_method. rewrite Hf.
    destruct this as [ed tb rh sp cd]. run_step.
    destruct rh as [h |]; [destruct ed as [ed |] |]; destruct tb as [t |].
    all: walk throws.
    all: cbn; try discriminate; intros _; reflexivity.
  - intros -> c this0. unfold mxDefaultToolbar.init, mxDefaultToolbar.mxEvent.
    run_method. destruct this0 as [ed tb rh sp cd].
    destruct (throws (mxDefaultToolbar.new_mxToolbar c)); run_step; now repeat split.
Qed.

(** X24: [init] on a toolbar without editor.  Where a global [mxEvent] is
    defined it throws after it has made the inner toolbar and stored the
    reset handler; every [destroy] after that throws before it makes a call,
    so that inner toolbar is never destroyed.  As the module stands, without
    such a global, [init] throws right after it has made the inner toolbar
    and stores no reset handler; a [destroy] after that destroys the inner
    toolbar. *)
Theorem init_without_editor throws mxEvent_defined mxToolbar_for bound_resetHandler
  this container :
  mxDefaultToolbar.editor this = None ->
  throws (mxDefaultToolbar.new_mxToolbar container) = false ->
  throws (mxDefaultToolbar.toolbar_addListener (mxToolbar_for container)
            mxDefaultToolbar.SELECT) = false ->
  mxDefaultToolbar.init throws mxEvent_defined mxToolbar_for bound_resetHandler
    (Some container) this
  = (mxDefaultToolbar.mkToolbar None (Some (mxToolbar_for container))
       (if mxEvent_defined then Some bound_resetHandler
        else mxDefaultToolbar.resetHandler this)
       (mxDefaultToolbar.spacing this) (mxDefaultToolbar.connectOnDrop this),
     (mxDefaultToolbar.new_mxToolbar container
      :: (if mxEvent_defined
          then [mxDefaultToolbar.toolbar_addListener (mxToolbar_for container)
                  mxDefaultToolbar.SELECT]
          else []),
      None)) /\
  (mxEvent_defined = true ->
   mxDefaultToolbar.destroy throws
     (fst (mxDefaultToolbar.init throws mxEvent_defined mxToolbar_for bound_resetHandler
             (Some container) this))
   = (fst (mxDefaultToolbar.init throws mxEvent_defined mxToolbar_for bound_resetHandler
             (Some container) this),
      ([], None))) /\
  (mxEvent_defined = false ->
   mxDefaultToolbar.resetHandler this = None ->
   throws (mxDefaultToolbar.toolbar_destroy (mxToolbar_for container)) = false ->
   mxDefaultToolbar.destroy throws
     (fst (mxDefaultToolbar.init throws mxEvent_defined mxToolbar_for bound_resetHandler
             (Some container) this))
   = (mxDefaultToolbar.mkToolbar None None None (mxDefaultToolbar.spacing this)
        (mxDefaultToolbar.connectOnDrop this),
      ([mxDefaultToolbar.toolbar_destroy (mxToolbar_for container)], Some tt))).
Proof.
  destruct this as [ed tb rh sp cd]. cbn [mxDefaultToolbar.editor].
  intros -> Hnew Hadd.
  unfold mxDefaultToolbar.init, mxDefaultToolbar.destroy, mxDefaultToolbar.mxEvent.
  run_method. rewrite Hnew. destruct mxEvent_defined; run_step.
  - rewrite Hadd. run_step. split; [reflexivity |]. split; [reflexivity |].
    intros E; discriminate E.
  - split; [reflexivity |]. split; [intros E; discriminate E |].
    intros _ -> Hd. rewrite Hd. reflexivity.
Qed.

(** * Instances *)

Lemma sampleMixin_keys : NoDup (map fst sampleMixin).
Proof.
  cbn. repeat constructor; cbn; intuition discriminate.
Defined.

Lemma mixInto_copies_every_key_witness :
  exists o',
    Utils.mixInto (Some sampleProto) (Some sampleMixin)
    = Some (Utils.mkMixed (Some o') false) /\
    properties o' (KeyString "name")
    = Some (DataProperty (JsString "new") true true true) /\
    properties o' (KeyString "run")
    = Some (DataProperty (JsObject 1) true false false).
Proof.
  destruct (mixInto_copies_every_key sampleProto sampleMixin sampleMixin_keys)
    as (o' & Hrun & Hin & _).
  - intros k [<- | [<- | []]]; reflexivity.
  - exists o'. split; [exact Hrun |]. split.
    + apply (Hin (KeyString "name") (JsString "new")). now left.
    + apply (Hin (KeyString "run") (JsObject 1)). right. now left.
Defined.

Lemma mixInto_stops_at_the_first_locked_key_witness :
  exists o',
    Utils.mixInto (Some sampleProto)
      (Some ([(KeyString "run", JsObject 1)] ++ (KeyString "fixed", JsNumber 2)
             :: [(KeyString "name", JsString "new")]))
    = Some (Utils.mkMixed (Some o') true) /\
    properties o' (KeyString "run") = Some (DataProperty (JsObject 1) true false false) /\
    properties o' (KeyString "name") = Some (DataProperty (JsString "old") true true true).
Proof.
  destruct (mixInto_stops_at_the_first_locked_key sampleProto
              [(KeyString "run", JsObject 1)] (KeyString "fixed") (JsNumber 2)
              [(KeyString "name", JsString "new")])
    as (o' & Hrun & Hin & Hout).
  - cbn. repeat constructor. intros [].
  - cbn. intuition discriminate.
  - intros k [<- | []]. reflexivity.
  - reflexivity.
  - exists o'. split; [exact Hrun |]. split.
    + apply (Hin (KeyString "run") (JsObject 1)). now left.
    + rewrite Hout; [reflexivity |]. cbn. intuition discriminate.
Defined.

Lemma mixInto_twice_witness :
  Utils.mixInto
    (Utils.prototype
       (Utils.mkMixed (Some (fst (Utils.defineAll sampleProto sampleMixin))) false))
    (Some sampleMixin)
  = Some (Utils.mkMixed (Some (fst (Utils.defineAll sampleProto sampleMixin))) false).
Proof.
  apply (mixInto_twice (Some sampleProto) sampleMixin).
  - exact sampleMixin_keys.
  - reflexivity.
Defined.

Lemma getCodec_finds_registered_witness :
  CodecRegistry.getCodec (Some (inl "Cell"%string))
    (fst (CodecRegistry.register (Some codecA) CodecRegistry.empty))
  = (fst (CodecRegistry.register (Some codecA) CodecRegistry.empty), Some codecA).
Proof.
  apply (getCodec_finds_registered codecA CodecRegistry.empty).
  - reflexivity.
  - reflexivity.
  - right. left. reflexivity.
Defined.

Lemma getCodec_follows_an_earlier_alias_witness :
  CodecRegistry.getCodec (Some (inl "Cell"%string))
    (fst (CodecRegistry.register (Some codecB)
            (fst (CodecRegistry.register (Some codecA) CodecRegistry.empty))))
  = (fst (CodecRegistry.register (Some codecB)
            (fst (CodecRegistry.register (Some codecA) CodecRegistry.empty))),
     Some codecA) /\
  CodecRegistry.getCodecByName "Cell"
    (fst (CodecRegistry.register (Some codecB)
            (fst (CodecRegistry.register (Some codecA) CodecRegistry.empty))))
  = Some codecB.
Proof.
  apply (getCodec_follows_an_earlier_alias codecB
           (fst (CodecRegistry.register (Some codecA) CodecRegistry.empty)) "mxCell").
  - reflexivity.
  - discriminate.
Defined.

Lemma getCodec_only_looks_up_witness :
  CodecRegistry.getCodec (Some (inr ctorBad)) CodecRegistry.empty
  = (CodecRegistry.empty, None).
Proof.
  apply (getCodec_only_looks_up (Some (inr ctorBad)) CodecRegistry.empty).
  intros ctor E. injection E as <-. right. reflexivity.
Defined.

Lemma getCodec_creates_once_witness :
  CodecRegistry.getCodec (Some (inr ctorPoint)) CodecRegistry.empty
  = (fst (CodecRegistry.register (CodecRegistry.new_ObjectCodec ctorPoint)
            CodecRegistry.empty),
     CodecRegistry.new_ObjectCodec ctorPoint) /\
  CodecRegistry.getCodec (Some (inr ctorPoint))
    (fst (CodecRegistry.register (CodecRegistry.new_ObjectCodec ctorPoint)
            CodecRegistry.empty))
  = (fst (CodecRegistry.register (CodecRegistry.new_ObjectCodec ctorPoint)
            CodecRegistry.empty),
     CodecRegistry.new_ObjectCodec ctorPoint).
Proof.
  apply (getCodec_creates_once ctorPoint (CodecRegistry.mkObjectCodec 3 "Point" "Point")
           CodecRegistry.empty); reflexivity.
Defined.

Lemma connect_places_the_vertex_witness :
  In (mxDefaultToolbar.setGeometry cellNew (Rect 140 5 40 20))
     (mxDefaultToolbar.calls
        (mxDefaultToolbar.connect neverThrows cellNew sampleEvent (Some cellTarget)
           connectingToolbar)) /\
  x (Rect 140 5 40 20) = 0 + 80 + (4 * 10 + INR 1 * 20) /\
  y (Rect 140 5 40 20) + height (Rect 140 5 40 20) / 2 = 0 + 30 / 2.
Proof.
  assert (Hin : In (mxDefaultToolbar.setGeometry cellNew (Rect 140 5 40 20))
                  (mxDefaultToolbar.calls
                     (mxDefaultToolbar.connect neverThrows cellNew sampleEvent
                        (Some cellTarget) connectingToolbar))).
  { right. left. cbn. f_equal. f_equal; lra. }
  split; [exact Hin |].
  exact (proj2 (proj2 (connect_places_the_vertex neverThrows connectingToolbar sampleEditor
                         cellNew sampleEvent cellTarget (Rect 0 0 40 20) (Rect 0 0 80 30)
                         (Rect 140 5 40 20) eq_refl eq_refl eq_refl Hin))).
Defined.

Lemma connect_without_geometry_witness :
  mxDefaultToolbar.connect neverThrows cellNew sampleEvent (Some cellLayer)
    connectingToolbar
  = (connectingToolbar,
     ([mxDefaultToolbar.beginUpdate; mxDefaultToolbar.endUpdate], None)).
Proof.
  apply (connect_without_geometry neverThrows connectingToolbar sampleEditor);
    try reflexivity.
  right. reflexivity.
Defined.

Lemma drop_connects_only_if_witness :
  In mxDefaultToolbar.beginUpdate
     (mxDefaultToolbar.calls
        (mxDefaultToolbar.drop neverThrows returnsNull false cellNew sampleEvent
           (Some cellTarget) connectingToolbar)) /\
  mxDefaultToolbar.connectOnDrop connectingToolbar = true.
Proof.
  assert (Hin : In mxDefaultToolbar.beginUpdate
                  (mxDefaultToolbar.calls
                     (mxDefaultToolbar.drop neverThrows returnsNull false cellNew
                        sampleEvent (Some cellTarget) connectingToolbar))).
  { left. reflexivity. }
  split; [exact Hin |].
  exact (proj1 (drop_connects_only_if neverThrows returnsNull false connectingToolbar
                  sampleEditor cellNew sampleEvent (Some cellTarget) eq_refl Hin)).
Defined.

Lemma drop_inserts_into_the_nearest_valid_target_witness :
  mxDefaultToolbar.drop neverThrows returnsNull false cellNew sampleEvent
    (Some cellTarget) sampleToolbar
  = (sampleToolbar, ([], None)).
Proof.
  apply (proj2 (drop_inserts_into_the_nearest_valid_target neverThrows returnsNull false
                  sampleToolbar sampleEditor cellNew sampleEvent (Some cellTarget)
                  eq_refl)).
  - reflexivity.
  - intros t _. right. left. reflexivity.
Defined.

Lemma destroy_twice_witness :
  mxDefaultToolbar.destroy neverThrows
    (fst (mxDefaultToolbar.destroy neverThrows connectingToolbar))
  = (fst (mxDefaultToolbar.destroy neverThrows connectingToolbar), ([], Some tt)).
Proof.
  apply (destroy_twice neverThrows connectingToolbar). reflexivity.
Defined.

Lemma fallback_removes_the_text_area_witness :
  snd (Clipboard.fallbackCopyTextToClipboard execCommandThrows true "text") = Some tt /\
  In Clipboard.removeChild
     (fst (Clipboard.fallbackCopyTextToClipboard execCommandThrows true "text")).
Proof.
  destruct (fallback_removes_the_text_area execCommandThrows true "text"
              eq_refl eq_refl eq_refl eq_refl eq_refl) as (inner & E & _ & _ & Hret).
  split; [apply Hret; reflexivity |].
  rewrite E. do 5 right. apply in_or_app. right. now left.
Defined.



Lemma handlers_after_destroy_witness :
  mxDefaultToolbar.insertFunction neverThrows 3 1
    (fst (mxDefaultToolbar.destroy neverThrows connectingToolbar))
  = (fst (mxDefaultToolbar.destroy neverThrows connectingToolbar),
     ([mxDefaultToolbar.funct_apply 3 1], None)).
Proof.
  apply (handlers_after_destroy neverThrows false (fun c => c) 7%nat connectingToolbar
           3%nat 1%nat); reflexivity.
Defined.

Lemma init_without_editor_witness :
  mxDefaultToolbar.destroy neverThrows
    (fst (mxDefaultToolbar.init neverThrows false (fun c => c) 7%nat (Some 1%nat)
            (mxDefaultToolbar.newToolbar None)))
  = (mxDefaultToolbar.newToolbar None,
     ([mxDefaultToolbar.toolbar_destroy 1], Some tt)).
Proof.
  apply (proj2 (proj2 (init_without_editor neverThrows false (fun c => c) 7%nat
                         (mxDefaultToolbar.newToolbar None) 1%nat
                         eq_refl eq_refl eq_refl))); reflexivity.
Defined.
